(** * The consensus process of hyperdrive ([proc/proc.go])

    A shallow embedding of the [Process] automaton of package [proc]: its
    message logs, its once-flags, the condition methods that are retried on
    every event, and the event entry points.  The calls the process makes on
    its output collaborators (timer, broadcaster, committer, catcher) are
    recorded, oldest first, in the field [calls]. *)

From stdpp Require Import gmap strings list fin_maps.
From Stdlib Require Import ZArith Lia.

Local Open Scope Z_scope.

(** ** Identifiers *)

(** [type Height int64] and [type Round int64] ([block/block.go], which
    [process/state.go] takes the types of the state from), with the sentinel
    [InvalidRound = Round(-1)].  Both are integers of [Z] here; the two
    places where the code computes with them, the increment of the round in
    [OnTimeoutPrecommit] and that of the height in
    [tryCommitUponSufficientPrecommits], wrap around as [int64] does (see
    [int_wrap] below). *)
Abbreviation Height := Z.
Abbreviation Round := Z.

Definition InvalidRound : Round := -1.

(** Modelled from the spec: [Value] is an opaque payload with an equality
    relation and a distinguished nil value. *)
Class ValueOps (Value : Type) := {
  Value_eq_dec :: EqDecision Value;
  NilValue : Value
}.

(** Modelled from the spec: [currentStep ∈ {Proposing, Prevoting,
    Precommitting}], in this order. *)
Inductive Step := Proposing | Prevoting | Precommitting.

Definition Step_rank (s : Step) : Z :=
  match s with Proposing => 0 | Prevoting => 1 | Precommitting => 2 end.

#[global] Instance Step_eq_dec : EqDecision Step.
Proof. solve_decision. Defined.

(** The result of an operation on Go's [int64] (and on [int], taken as a
    64-bit integer): two's complement wrap-around. *)
Definition int_wrap (z : Z) : Z := (z + 2 ^ 63) mod 2 ^ 64 - 2 ^ 63.

(** An [int64] that is not the largest one, [2^63 - 1]: incrementing it does
    not wrap around. *)
Definition incrementable (z : Z) : Prop := - 2 ^ 63 <= z < 2 ^ 63 - 1.

(** The conversion [uint64(x)] of a 64-bit integer. *)
Definition uint64 (z : Z) : Z := z mod 2 ^ 64.

(** [type OnceFlag uint16] and its three values. *)
Abbreviation OnceFlag := Z.
Definition OnceFlagTimeoutPrecommitUponSufficientPrecommits : OnceFlag := 1.
Definition OnceFlagTimeoutPrevoteUponSufficientPrevotes : OnceFlag := 2.
Definition OnceFlagPrecommitUponSufficientPrevotes : OnceFlag := 4.

(** The enumeration of all [OnceFlag] values. *)
Definition once_flags : list OnceFlag :=
  [OnceFlagTimeoutPrecommitUponSufficientPrecommits;
   OnceFlagTimeoutPrevoteUponSufficientPrevotes;
   OnceFlagPrecommitUponSufficientPrevotes].

Section Model.
Context {Pid : Type} `{!EqDecision Pid, !Countable Pid}.
Context {Value : Type} `{!ValueOps Value}.

(** ** Messages *)

(** Modelled from the spec: the three message variants carry
    [{height, round, from}] and their payload; [Equal] compares every field. *)
Record Propose := {
  Propose_Height : Height;
  Propose_Round : Round;
  Propose_ValidRound : Round;
  Propose_Value : Value;
  Propose_From : Pid
}.

Record Prevote := {
  Prevote_Height : Height;
  Prevote_Round : Round;
  Prevote_Value : Value;
  Prevote_From : Pid
}.

Record Precommit := {
  Precommit_Height : Height;
  Precommit_Round : Round;
  Precommit_Value : Value;
  Precommit_From : Pid
}.

#[global] Instance Propose_eq_dec : EqDecision Propose.
Proof. solve_decision. Defined.
#[global] Instance Prevote_eq_dec : EqDecision Prevote.
Proof. solve_decision. Defined.
#[global] Instance Precommit_eq_dec : EqDecision Precommit.
Proof. solve_decision. Defined.

(** ** Calls on the output interfaces [Timer], [Broadcaster], [Committer]
    and [Catcher] *)
Inductive Effect :=
| TimeoutPropose (h : Height) (r : Round)
| TimeoutPrevote (h : Height) (r : Round)
| TimeoutPrecommit (h : Height) (r : Round)
| BroadcastPropose (h : Height) (r : Round) (v : Value) (vr : Round)
| BroadcastPrevote (h : Height) (r : Round) (v : Value)
| BroadcastPrecommit (h : Height) (r : Round) (v : Value)
| Commit (h : Height) (v : Value)
| CatchDoublePropose (new old : Propose)
| CatchDoublePrevote (new old : Prevote)
| CatchDoublePrecommit (new old : Precommit).

#[global] Instance Effect_eq_dec : EqDecision Effect.
Proof. solve_decision. Defined.

(** ** State *)

(** Modelled from the spec: the [State] embedded in [Process] (the fields
    that [proc.go] reads and writes through [p.CurrentHeight] and so on). *)
Record State := {
  CurrentHeight : Height;
  CurrentRound : Round;
  CurrentStep : Step;
  LockedValue : Value;
  LockedRound : Round;
  ValidValue : Value;
  ValidRound : Round
}.

Record Process := {
  (* input interfaces *)
  scheduler : Height → Round → Pid;
  proposer : Height → Round → Value;
  validator : Value → bool;
  (* output interfaces: the calls made so far *)
  calls : list Effect;
  ProposeLogs : gmap Round Propose;
  PrevoteLogs : gmap Round (gmap Pid Prevote);
  PrecommitLogs : gmap Round (gmap Pid Precommit);
  F : Z;
  OnceFlags : gmap Round OnceFlag;
  Whoami : Pid;
  state :> State
}.

(** *** Field updates *)

Definition set_state (f : State → State) (p : Process) : Process :=
  {| scheduler := scheduler p; proposer := proposer p;
     validator := validator p; calls := calls p;
     ProposeLogs := ProposeLogs p; PrevoteLogs := PrevoteLogs p;
     PrecommitLogs := PrecommitLogs p; F := F p;
     OnceFlags := OnceFlags p; Whoami := Whoami p;
     state := f (state p) |}.

Definition set_calls (l : list Effect) (p : Process) : Process :=
  {| scheduler := scheduler p; proposer := proposer p;
     validator := validator p; calls := l;
     ProposeLogs := ProposeLogs p; PrevoteLogs := PrevoteLogs p;
     PrecommitLogs := PrecommitLogs p; F := F p;
     OnceFlags := OnceFlags p; Whoami := Whoami p;
     state := state p |}.

Definition set_ProposeLogs (m : gmap Round Propose) (p : Process) : Process :=
  {| scheduler := scheduler p; proposer := proposer p;
     validator := validator p; calls := calls p;
     ProposeLogs := m; PrevoteLogs := PrevoteLogs p;
     PrecommitLogs := PrecommitLogs p; F := F p;
     OnceFlags := OnceFlags p; Whoami := Whoami p;
     state := state p |}.

Definition set_PrevoteLogs (m : gmap Round (gmap Pid Prevote)) (p : Process)
  : Process :=
  {| scheduler := scheduler p; proposer := proposer p;
     validator := validator p; calls := calls p;
     ProposeLogs := ProposeLogs p; PrevoteLogs := m;
     PrecommitLogs := PrecommitLogs p; F := F p;
     OnceFlags := OnceFlags p; Whoami := Whoami p;
     state := state p |}.

Definition set_PrecommitLogs (m : gmap Round (gmap Pid Precommit))
  (p : Process) : Process :=
  {| scheduler := scheduler p; proposer := proposer p;
     validator := validator p; calls := calls p;
     ProposeLogs := ProposeLogs p; PrevoteLogs := PrevoteLogs p;
     PrecommitLogs := m; F := F p;
     OnceFlags := OnceFlags p; Whoami := Whoami p;
     state := state p |}.

Definition set_OnceFlags (m : gmap Round OnceFlag) (p : Process) : Process :=
  {| scheduler := scheduler p; proposer := proposer p;
     validator := validator p; calls := calls p;
     ProposeLogs := ProposeLogs p; PrevoteLogs := PrevoteLogs p;
     PrecommitLogs := PrecommitLogs p; F := F p;
     OnceFlags := m; Whoami := Whoami p;
     state := state p |}.

Definition set_CurrentHeight (h : Height) : Process → Process :=
  set_state (λ s,
    {| CurrentHeight := h; CurrentRound := CurrentRound s;
       CurrentStep := CurrentStep s; LockedValue := LockedValue s;
       LockedRound := LockedRound s; ValidValue := ValidValue s;
       ValidRound := ValidRound s |}).

Definition set_CurrentRound (r : Round) : Process → Process :=
  set_state (λ s,
    {| CurrentHeight := CurrentHeight s; CurrentRound := r;
       CurrentStep := CurrentStep s; LockedValue := LockedValue s;
       LockedRound := LockedRound s; ValidValue := ValidValue s;
       ValidRound := ValidRound s |}).

Definition set_CurrentStep (st : Step) : Process → Process :=
  set_state (λ s,
    {| CurrentHeight := CurrentHeight s; CurrentRound := CurrentRound s;
       CurrentStep := st; LockedValue := LockedValue s;
       LockedRound := LockedRound s; ValidValue := ValidValue s;
       ValidRound := ValidRound s |}).

Definition set_LockedValue (v : Value) : Process → Process :=
  set_state (λ s,
    {| CurrentHeight := CurrentHeight s; CurrentRound := CurrentRound s;
       CurrentStep := CurrentStep s; LockedValue := v;
       LockedRound := LockedRound s; ValidValue := ValidValue s;
       ValidRound := ValidRound s |}).

Definition set_LockedRound (r : Round) : Process → Process :=
  set_state (λ s,
    {| CurrentHeight := CurrentHeight s; CurrentRound := CurrentRound s;
       CurrentStep := CurrentStep s; LockedValue := LockedValue s;
       LockedRound := r; ValidValue := ValidValue s;
       ValidRound := ValidRound s |}).

Definition set_ValidValue (v : Value) : Process → Process :=
  set_state (λ s,
    {| CurrentHeight := CurrentHeight s; CurrentRound := CurrentRound s;
       CurrentStep := CurrentStep s; LockedValue := LockedValue s;
       LockedRound := LockedRound s; ValidValue := v;
       ValidRound := ValidRound s |}).

Definition set_ValidRound (r : Round) : Process → Process :=
  set_state (λ s,
    {| CurrentHeight := CurrentHeight s; CurrentRound := CurrentRound s;
       CurrentStep := CurrentStep s; LockedValue := LockedValue s;
       LockedRound := LockedRound s; ValidValue := ValidValue s;
       ValidRound := r |}).

(** A call on one of the output interfaces. *)
Definition emit (e : Effect) (p : Process) : Process :=
  set_calls (calls p ++ [e]) p.

(** ** Helpers of [proc.go] *)

(** [p.OnceFlags[round]&flag == flag]; a missing key reads as zero. *)
Definition checkOnceFlag (round : Round) (flag : OnceFlag) (p : Process)
  : bool :=
  bool_decide (Z.land (default 0 (OnceFlags p !! round)) flag = flag).

(** [p.OnceFlags[round] |= flag] *)
Definition setOnceFlag (round : Round) (flag : OnceFlag) (p : Process)
  : Process :=
  set_OnceFlags
    (<[round := Z.lor (default 0 (OnceFlags p !! round)) flag]> (OnceFlags p))
    p.

(** The counting loops [for _, prevote := range ... { if
    prevote.Value.Equal(&v) { n++ } }]. *)
Definition countPrevotes (v : Value) (m : gmap Pid Prevote) : Z :=
  map_fold (λ _ prevote n, if decide (Prevote_Value prevote = v)
                           then n + 1 else n) 0 m.

Definition countPrecommits (v : Value) (m : gmap Pid Precommit) : Z :=
  map_fold (λ _ precommit n, if decide (Precommit_Value precommit = v)
                             then n + 1 else n) 0 m.

(** [p.PrevoteLogs[round]]: a missing round reads as the nil map. *)
Definition prevotesAt (p : Process) (round : Round) : gmap Pid Prevote :=
  default ∅ (PrevoteLogs p !! round).

Definition precommitsAt (p : Process) (round : Round) : gmap Pid Precommit :=
  default ∅ (PrecommitLogs p !! round).

(** [len(m)] *)
Definition len {A} (m : gmap Pid A) : Z := Z.of_nat (size m).

(** Modelled from the spec: [State.Reset] of package [proc] is not part of
    the sources at hand; the commit rule resets the lock and valid fields to
    [(Nil, InvalidRound)], as the [Reset] of [process/state.go] does. *)
Definition Reset (p : Process) : Process :=
  let p := set_LockedValue NilValue p in
  let p := set_LockedRound InvalidRound p in
  let p := set_ValidValue NilValue p in
  set_ValidRound InvalidRound p.

(** ** Inserting into the message logs *)

Definition insertPropose (propose : Propose) (p : Process) : bool * Process :=
  if decide (Propose_Height propose ≠ CurrentHeight p) then (false, p) else
  match ProposeLogs p !! Propose_Round propose with
  | Some existingPropose =>
      if decide (propose ≠ existingPropose)
      then (false, emit (CatchDoublePropose propose existingPropose) p)
      else (false, p)
  | None =>
      let scheduled :=
        scheduler p (Propose_Height propose) (Propose_Round propose) in
      if decide (scheduled ≠ Propose_From propose) then (false, p) else
      if negb (validator p (Propose_Value propose)) then (false, p) else
      (true,
       set_ProposeLogs (<[Propose_Round propose := propose]> (ProposeLogs p)) p)
  end.

Definition insertPrevote (prevote : Prevote) (p : Process) : bool * Process :=
  if decide (Prevote_Height prevote ≠ CurrentHeight p) then (false, p) else
  let p :=
    match PrevoteLogs p !! Prevote_Round prevote with
    | None =>
        set_PrevoteLogs (<[Prevote_Round prevote := ∅]> (PrevoteLogs p)) p
    | Some _ => p
    end in
  match prevotesAt p (Prevote_Round prevote) !! Prevote_From prevote with
  | Some existingPrevote =>
      if decide (prevote ≠ existingPrevote)
      then (false, emit (CatchDoublePrevote prevote existingPrevote) p)
      else (false, p)
  | None =>
      (true,
       set_PrevoteLogs
         (<[Prevote_Round prevote :=
              <[Prevote_From prevote := prevote]>
                (prevotesAt p (Prevote_Round prevote))]> (PrevoteLogs p)) p)
  end.

Definition insertPrecommit (precommit : Precommit) (p : Process)
  : bool * Process :=
  if decide (Precommit_Height precommit ≠ CurrentHeight p)
  then (false, p) else
  let p :=
    match PrecommitLogs p !! Precommit_Round precommit with
    | None =>
        set_PrecommitLogs
          (<[Precommit_Round precommit := ∅]> (PrecommitLogs p)) p
    | Some _ => p
    end in
  match precommitsAt p (Precommit_Round precommit) !! Precommit_From precommit
  with
  | Some existingPrecommit =>
      if decide (precommit ≠ existingPrecommit)
      then (false, emit (CatchDoublePrecommit precommit existingPrecommit) p)
      else (false, p)
  | None =>
      (true,
       set_PrecommitLogs
         (<[Precommit_Round precommit :=
              <[Precommit_From precommit := precommit]>
                (precommitsAt p (Precommit_Round precommit))]>
            (PrecommitLogs p)) p)
  end.

(** ** The condition methods *)

(** L34: schedule the prevote timeout. *)
Definition tryTimeoutPrevoteUponSufficientPrevotes (p : Process) : Process :=
  if checkOnceFlag (CurrentRound p)
       OnceFlagTimeoutPrevoteUponSufficientPrevotes p then p else
  if decide (CurrentStep p ≠ Prevoting) then p else
  let p :=
    if decide (len (prevotesAt p (CurrentRound p)) = int_wrap (2 * F p + 1))
    then emit (TimeoutPrevote (CurrentHeight p) (CurrentRound p)) p
    else p in
  setOnceFlag (CurrentRound p) OnceFlagTimeoutPrevoteUponSufficientPrevotes p.

(** L47: schedule the precommit timeout. *)
Definition tryTimeoutPrecommitUponSufficientPrecommits (p : Process)
  : Process :=
  if checkOnceFlag (CurrentRound p)
       OnceFlagTimeoutPrecommitUponSufficientPrecommits p then p else
  if decide (len (precommitsAt p (CurrentRound p)) = int_wrap (2 * F p + 1))
  then
    let p := emit (TimeoutPrecommit (CurrentHeight p) (CurrentRound p)) p in
    setOnceFlag (CurrentRound p)
      OnceFlagTimeoutPrecommitUponSufficientPrecommits p
  else p.

(** The condition methods that call one another ([tryPrevoteUponPropose] →
    [stepToPrevoting] → [tryPrecommitUponSufficientPrevotes] →
    [stepToPrecommitting] → ...).  The first argument bounds the depth of the
    calls; [None] means that the bound was reached. *)
Fixpoint tryPrevoteUponPropose (n : nat) (p : Process) : option Process :=
  match n with
  | O => None
  | S n =>
    if decide (CurrentStep p ≠ Proposing) then Some p else
    match ProposeLogs p !! CurrentRound p with
    | None => Some p
    | Some propose =>
      if decide (Propose_ValidRound propose ≠ InvalidRound) then Some p else
      let p :=
        if decide (LockedRound p = InvalidRound
                   ∨ LockedValue p = Propose_Value propose)
        then emit (BroadcastPrevote (CurrentHeight p) (CurrentRound p)
                     (Propose_Value propose)) p
        else emit (BroadcastPrevote (CurrentHeight p) (CurrentRound p)
                     NilValue) p in
      stepToPrevoting n p
    end
  end

with tryPrevoteUponSufficientPrevotes (n : nat) (p : Process)
  : option Process :=
  match n with
  | O => None
  | S n =>
    if decide (CurrentStep p ≠ Proposing) then Some p else
    match ProposeLogs p !! CurrentRound p with
    | None => Some p
    | Some propose =>
      if decide (Propose_ValidRound propose = InvalidRound
                 ∨ Propose_ValidRound propose >= CurrentRound p)
      then Some p else
      let prevotesInValidRound :=
        countPrevotes (Propose_Value propose)
          (prevotesAt p (Propose_ValidRound propose)) in
      if decide (prevotesInValidRound < int_wrap (2 * F p + 1))
      then Some p else
      let p :=
        if decide (LockedRound p <= Propose_ValidRound propose
                   ∨ LockedValue p = Propose_Value propose)
        then emit (BroadcastPrevote (CurrentHeight p) (CurrentRound p)
                     (Propose_Value propose)) p
        else emit (BroadcastPrevote (CurrentHeight p) (CurrentRound p)
                     NilValue) p in
      stepToPrevoting n p
    end
  end

with tryPrecommitUponSufficientPrevotes (n : nat) (p : Process)
  : option Process :=
  match n with
  | O => None
  | S n =>
    if checkOnceFlag (CurrentRound p)
         OnceFlagPrecommitUponSufficientPrevotes p then Some p else
    if decide (Step_rank (CurrentStep p) < Step_rank Prevoting)
    then Some p else
    match ProposeLogs p !! CurrentRound p with
    | None => Some p
    | Some propose =>
      let prevotesForValue :=
        countPrevotes (Propose_Value propose)
          (prevotesAt p (CurrentRound p)) in
      if decide (prevotesForValue < int_wrap (2 * F p + 1))
      then Some p else
      '(p, retry) ←
        (if decide (CurrentStep p = Prevoting) then
           let p := set_LockedValue (Propose_Value propose) p in
           let p := set_LockedRound (CurrentRound p) p in
           let p := emit (BroadcastPrecommit (CurrentHeight p)
                            (CurrentRound p) (Propose_Value propose)) p in
           p ← stepToPrecommitting n p;
           Some (p, true)
         else Some (p, false));
      let p := set_ValidValue (Propose_Value propose) p in
      let p := set_ValidRound (CurrentRound p) p in
      let p := setOnceFlag (CurrentRound p)
                 OnceFlagPrecommitUponSufficientPrevotes p in
      (* the deferred retries, registered in the Prevoting branch only *)
      if retry : bool then
        p ← tryPrevoteUponPropose n p;
        tryPrevoteUponSufficientPrevotes n p
      else Some p
    end
  end

with tryPrecommitNilUponSufficientPrevotes (n : nat) (p : Process)
  : option Process :=
  match n with
  | O => None
  | S n =>
    if decide (CurrentStep p ≠ Prevoting) then Some p else
    let prevotesForNil :=
      countPrevotes NilValue (prevotesAt p (CurrentRound p)) in
    if decide (prevotesForNil = int_wrap (2 * F p + 1)) then
      let p := emit (BroadcastPrecommit (CurrentHeight p) (CurrentRound p)
                       NilValue) p in
      stepToPrecommitting n p
    else Some p
  end

with stepToPrevoting (n : nat) (p : Process) : option Process :=
  match n with
  | O => None
  | S n =>
    let p := set_CurrentStep Prevoting p in
    p ← tryPrecommitUponSufficientPrevotes n p;
    p ← tryPrecommitNilUponSufficientPrevotes n p;
    Some (tryTimeoutPrevoteUponSufficientPrevotes p)
  end

with stepToPrecommitting (n : nat) (p : Process) : option Process :=
  match n with
  | O => None
  | S n =>
    let p := set_CurrentStep Precommitting p in
    tryPrecommitUponSufficientPrevotes n p
  end.

(** ** Rounds *)

(** L11.  The deferred retries run on both return paths. *)
Definition StartRound (n : nat) (round : Round) (p : Process)
  : option Process :=
  let p := set_CurrentRound round p in
  let p := set_CurrentStep Proposing p in
  let scheduled := scheduler p (CurrentHeight p) (CurrentRound p) in
  let p :=
    if decide (Whoami p ≠ scheduled)
    then emit (TimeoutPropose (CurrentHeight p) (CurrentRound p)) p
    else
      let proposeValue :=
        if decide (ValidValue p = NilValue)
        then proposer p (CurrentHeight p) (CurrentRound p)
        else ValidValue p in
      emit (BroadcastPropose (CurrentHeight p) (CurrentRound p) proposeValue
              (ValidRound p)) p in
  p ← tryPrecommitUponSufficientPrevotes n p;
  p ← tryPrecommitNilUponSufficientPrevotes n p;
  p ← tryPrevoteUponPropose n p;
  p ← tryPrevoteUponSufficientPrevotes n p;
  let p := tryTimeoutPrecommitUponSufficientPrecommits p in
  Some (tryTimeoutPrevoteUponSufficientPrevotes p).

Definition Start (n : nat) (p : Process) : option Process := StartRound n 0 p.

(** L49: commit. *)
Definition tryCommitUponSufficientPrecommits (n : nat) (round : Round)
  (p : Process) : option Process :=
  match ProposeLogs p !! round with
  | None => Some p
  | Some propose =>
    let precommitsForValue :=
      countPrecommits (Propose_Value propose) (precommitsAt p round) in
    if decide (precommitsForValue = int_wrap (2 * F p + 1)) then
      let p := emit (Commit (CurrentHeight p) (Propose_Value propose)) p in
      let p := set_CurrentHeight (int_wrap (CurrentHeight p + 1)) p in
      let p := set_ProposeLogs ∅ p in
      let p := set_PrevoteLogs ∅ p in
      let p := set_PrecommitLogs ∅ p in
      let p := set_OnceFlags ∅ p in
      let p := Reset p in
      StartRound n 0 p
    else Some p
  end.

(** L55: skip to a future round. *)
Definition trySkipToFutureRound (n : nat) (round : Round) (p : Process)
  : option Process :=
  if decide (round <= CurrentRound p) then Some p else
  let msgsInRound :=
    match ProposeLogs p !! round with Some _ => 1 | None => 0 end in
  let msgsInRound := msgsInRound + len (prevotesAt p round) in
  let msgsInRound := msgsInRound + len (precommitsAt p round) in
  if decide (msgsInRound = int_wrap (F p + 1))
  then StartRound n round p
  else Some p.

(** ** Event entry points

    The methods [Propose], [Prevote] and [Precommit] of [Process] are named
    [Process_Propose], [Process_Prevote] and [Process_Precommit] here, the
    short names being those of the message types. *)

Definition Process_Propose (n : nat) (propose : Propose) (p : Process)
  : option Process :=
  let '(ok, p) := insertPropose propose p in
  if negb ok then Some p else
  p ← trySkipToFutureRound n (Propose_Round propose) p;
  p ← tryCommitUponSufficientPrecommits n (Propose_Round propose) p;
  p ← tryPrecommitUponSufficientPrevotes n p;
  p ← tryPrevoteUponPropose n p;
  tryPrevoteUponSufficientPrevotes n p.

Definition Process_Prevote (n : nat) (prevote : Prevote) (p : Process)
  : option Process :=
  let '(ok, p) := insertPrevote prevote p in
  if negb ok then Some p else
  p ← trySkipToFutureRound n (Prevote_Round prevote) p;
  p ← tryPrecommitUponSufficientPrevotes n p;
  p ← tryPrecommitNilUponSufficientPrevotes n p;
  p ← tryPrevoteUponSufficientPrevotes n p;
  Some (tryTimeoutPrevoteUponSufficientPrevotes p).

Definition Process_Precommit (n : nat) (precommit : Precommit) (p : Process)
  : option Process :=
  let '(ok, p) := insertPrecommit precommit p in
  if negb ok then Some p else
  p ← trySkipToFutureRound n (Precommit_Round precommit) p;
  p ← tryCommitUponSufficientPrecommits n (Precommit_Round precommit) p;
  Some (tryTimeoutPrecommitUponSufficientPrecommits p).

(** L57 *)
Definition OnTimeoutPropose (n : nat) (height : Height) (round : Round)
  (p : Process) : option Process :=
  if decide (height = CurrentHeight p ∧ round = CurrentRound p
             ∧ CurrentStep p = Proposing) then
    let p := emit (BroadcastPrevote (CurrentHeight p) (CurrentRound p)
                     NilValue) p in
    stepToPrevoting n p
  else Some p.

(** L61 *)
Definition OnTimeoutPrevote (n : nat) (height : Height) (round : Round)
  (p : Process) : option Process :=
  if decide (height = CurrentHeight p ∧ round = CurrentRound p
             ∧ CurrentStep p = Prevoting) then
    let p := emit (BroadcastPrecommit (CurrentHeight p) (CurrentRound p)
                     NilValue) p in
    stepToPrecommitting n p
  else Some p.

(** L65 *)
Definition OnTimeoutPrecommit (n : nat) (height : Height) (round : Round)
  (p : Process) : option Process :=
  if decide (height = CurrentHeight p ∧ round = CurrentRound p)
  then StartRound n (int_wrap (round + 1)) p
  else Some p.

(** ** The entry points as one transition function *)

Inductive Event :=
| EvStart
| EvStartRound (round : Round)
| EvPropose (propose : Propose)
| EvPrevote (prevote : Prevote)
| EvPrecommit (precommit : Precommit)
| EvTimeoutPropose (height : Height) (round : Round)
| EvTimeoutPrevote (height : Height) (round : Round)
| EvTimeoutPrecommit (height : Height) (round : Round).

Definition handle (n : nat) (ev : Event) (p : Process) : option Process :=
  match ev with
  | EvStart => Start n p
  | EvStartRound round => StartRound n round p
  | EvPropose propose => Process_Propose n propose p
  | EvPrevote prevote => Process_Prevote n prevote p
  | EvPrecommit precommit => Process_Precommit n precommit p
  | EvTimeoutPropose height round => OnTimeoutPropose n height round p
  | EvTimeoutPrevote height round => OnTimeoutPrevote n height round p
  | EvTimeoutPrecommit height round => OnTimeoutPrecommit n height round p
  end.

(** The driver: events are delivered one after the other. *)
Definition run (n : nat) (evs : list Event) (p : Process) : option Process :=
  foldl (λ o ev, o ≫= handle n ev) (Some p) evs.

(** The state in which a run leaves the process (depth bound 5, which is
    enough for every run to return). *)
Definition after (evs : list Event) (p : Process) : Process :=
  default p (run 5 evs p).

(** Rounds are non-negative counters: an external [StartRound] is given one. *)
Definition wf_event (ev : Event) : Prop :=
  match ev with
  | EvStartRound round => 0 <= round
  | _ => True
  end.

(** Modelled from the spec: the constructor of package [proc] is not part of
    the sources at hand; a process is created in the default state (height 1,
    round 0, step Proposing, no lock, no valid value, as [DefaultState] of
    [process/state.go] has it) with empty logs. *)
Definition DefaultState : State :=
  {| CurrentHeight := 1; CurrentRound := 0; CurrentStep := Proposing;
     LockedValue := NilValue; LockedRound := InvalidRound;
     ValidValue := NilValue; ValidRound := InvalidRound |}.

Definition New (whoami : Pid) (f : Z) (sched : Height → Round → Pid)
  (prop : Height → Round → Value) (valid : Value → bool) : Process :=
  {| scheduler := sched; proposer := prop; validator := valid;
     calls := []; ProposeLogs := ∅; PrevoteLogs := ∅; PrecommitLogs := ∅;
     F := f; OnceFlags := ∅; Whoami := whoami; state := DefaultState |}.

(** The states a process created by [New] can be brought to by events. *)
Inductive reachable (p0 : Process) : Process → Prop :=
| reachable_init : reachable p0 p0
| reachable_step p ev n q :
    reachable p0 p → wf_event ev → handle n ev p = Some q → reachable p0 q.

(** The event does not make the round counter overflow: it is not the
    precommit timeout of the last round, [2^63 - 1], which
    [OnTimeoutPrecommit] answers by starting round [-2^63]. *)
Definition keeps_rounds (ev : Event) : Prop :=
  match ev with
  | EvTimeoutPrecommit _ round => round < 2 ^ 63 - 1
  | _ => True
  end.

(** The states a process can be brought to by events that do not make the
    round counter overflow. *)
Inductive reachable_in_range (p0 : Process) : Process → Prop :=
| reachable_in_range_init : reachable_in_range p0 p0
| reachable_in_range_step p ev n q :
    reachable_in_range p0 p → wf_event ev → keeps_rounds ev →
    handle n ev p = Some q → reachable_in_range p0 q.

(** ** Predicates of the specification *)

(** The calls a retried condition can make: votes and vote timeouts. *)
Definition retry_call (e : Effect) : Prop :=
  match e with
  | BroadcastPrevote _ _ _ | BroadcastPrecommit _ _ _
  | TimeoutPrevote _ _ | TimeoutPrecommit _ _ => True
  | _ => False
  end.

(** The calls a process that has left the Proposing step can make in the
    same round: precommits and the prevote timeout. *)
Definition past_call (e : Effect) : Prop :=
  match e with
  | BroadcastPrecommit _ _ _ | TimeoutPrevote _ _ => True
  | _ => False
  end.

(** Reports to the catcher. *)
Definition catch_call (e : Effect) : Prop :=
  match e with
  | CatchDoublePropose _ _ | CatchDoublePrevote _ _
  | CatchDoublePrecommit _ _ => True
  | _ => False
  end.

#[global] Instance catch_call_dec e : Decision (catch_call e).
Proof. destruct e; simpl; apply _. Defined.

(** The broadcasts, timer requests and commits made so far (the calls
    without the reports to the catcher). *)
Definition outputs (p : Process) : list Effect :=
  filter (λ e, ¬ catch_call e) (calls p).

(** The first call of [StartRound round]: the proposal of the scheduled
    proposer, or the propose timeout of everybody else. *)
Definition StartRound_call (round : Round) (p : Process) : Effect :=
  if decide (Whoami p ≠ scheduler p (CurrentHeight p) round)
  then TimeoutPropose (CurrentHeight p) round
  else BroadcastPropose (CurrentHeight p) round
         (if decide (ValidValue p = NilValue)
          then proposer p (CurrentHeight p) round
          else ValidValue p)
         (ValidRound p).

(** The three message deliveries among the events. *)
Definition is_message (ev : Event) : Prop :=
  match ev with
  | EvPropose _ | EvPrevote _ | EvPrecommit _ => True
  | _ => False
  end.

(** The insertion that opens the delivery of a message refuses it. *)
Definition dropped (ev : Event) (p : Process) : Prop :=
  match ev with
  | EvPropose propose => (insertPropose propose p).1 = false
  | EvPrevote prevote => (insertPrevote prevote p).1 = false
  | EvPrecommit precommit => (insertPrecommit precommit p).1 = false
  | _ => False
  end.

(** A [Propose] is broadcast only for a height and round at which the
    process is the scheduled proposer. *)
Definition scheduled_propose (p : Process) (e : Effect) : Prop :=
  match e with
  | BroadcastPropose h r _ _ => scheduler p h r = Whoami p
  | _ => True
  end.

(** What the retried conditions leave alone: collaborators, logs, [F],
    [Whoami], height and round; they only add votes and vote timeouts to the
    calls. *)
Record frame (p q : Process) : Prop := {
  frame_scheduler : scheduler q = scheduler p;
  frame_proposer : proposer q = proposer p;
  frame_validator : validator q = validator p;
  frame_ProposeLogs : ProposeLogs q = ProposeLogs p;
  frame_PrevoteLogs : PrevoteLogs q = PrevoteLogs p;
  frame_PrecommitLogs : PrecommitLogs q = PrecommitLogs p;
  frame_F : F q = F p;
  frame_Whoami : Whoami q = Whoami p;
  frame_CurrentHeight : CurrentHeight q = CurrentHeight p;
  frame_CurrentRound : CurrentRound q = CurrentRound p;
  frame_calls : ∃ l, calls q = calls p ++ l ∧ Forall retry_call l
}.

(** What every condition method leaves alone: the collaborators, [F] and
    [Whoami]; a [Propose] is added to the calls only when the process is
    scheduled, and no report to the catcher is made. *)
Record evolves (p q : Process) : Prop := {
  evolves_scheduler : scheduler q = scheduler p;
  evolves_proposer : proposer q = proposer p;
  evolves_validator : validator q = validator p;
  evolves_F : F q = F p;
  evolves_Whoami : Whoami q = Whoami p;
  evolves_calls :
    ∃ l, calls q = calls p ++ l ∧ Forall (scheduled_propose p) l
         ∧ Forall (λ e, ¬ catch_call e) l
}.

(** What every event leaves alone: the collaborators, [F] and [Whoami]; a
    [Propose] is added to the calls only when the process is scheduled. *)
Record advances (p q : Process) : Prop := {
  advances_scheduler : scheduler q = scheduler p;
  advances_proposer : proposer q = proposer p;
  advances_validator : validator q = validator p;
  advances_F : F q = F p;
  advances_Whoami : Whoami q = Whoami p;
  advances_calls :
    ∃ l, calls q = calls p ++ l ∧ Forall (scheduled_propose p) l
}.

(** What the conditions tried after the Proposing step do: the step stays
    past Proposing, and only precommits and the prevote timeout are added to
    the calls. *)
Definition past (p q : Process) : Prop :=
  CurrentStep q ≠ Proposing
  ∧ ∃ l, calls q = calls p ++ l ∧ Forall past_call l.

Definition runs_in (R : Process → Process → Prop)
  (f : Process → option Process) : Prop :=
  ∀ p q, f p = Some q → R p q.

(** A relation between the state before and after that holds of the six
    condition methods that call one another, at a given depth bound. *)
Definition cycle_runs_in (R : Process → Process → Prop) (n : nat) : Prop :=
  runs_in R (tryPrevoteUponPropose n)
  ∧ runs_in R (tryPrevoteUponSufficientPrevotes n)
  ∧ runs_in R (tryPrecommitUponSufficientPrevotes n)
  ∧ runs_in R (tryPrecommitNilUponSufficientPrevotes n)
  ∧ runs_in R (stepToPrevoting n)
  ∧ runs_in R (stepToPrecommitting n).

(** Lock coherence (invariant 4 of the data model). *)
Definition coherent (s : State) : Prop :=
  (LockedRound s = InvalidRound ↔ LockedValue s = NilValue)
  ∧ (ValidRound s = InvalidRound ↔ ValidValue s = NilValue).

(** Lock coherence together with what the code relies on to keep it: rounds
    are counters, and a logged proposal carries a value that passed the
    validator, which refuses the nil value. *)
Record Inv (p : Process) : Prop := {
  Inv_coherent : coherent p;
  Inv_round : 0 <= CurrentRound p;
  Inv_proposals :
    ∀ r m, ProposeLogs p !! r = Some m → Propose_Value m ≠ NilValue;
  Inv_validator : validator p NilValue = false
}.

(** The number of messages of a round, as [trySkipToFutureRound] counts
    them. *)
Definition msgsInRound (p : Process) (round : Round) : Z :=
  match ProposeLogs p !! round with Some _ => 1 | None => 0 end
  + len (prevotesAt p round) + len (precommitsAt p round).

(** No future round has reached the threshold of [F + 1] messages yet. *)
Record below_threshold (p : Process) : Prop := {
  below_F : 0 <= F p < 2 ^ 62;
  below_future : ∀ r, CurrentRound p < r → msgsInRound p r <= F p
}.

(** The event does not take the process back to an earlier round, as
    starting it again does, and as a precommit timeout in the last round,
    [2^63 - 1], does, the round counter wrapping around. *)
Definition no_restart (ev : Event) (p : Process) : Prop :=
  match ev with
  | EvStart => CurrentRound p <= 0
  | EvStartRound round => CurrentRound p <= round
  | EvTimeoutPrecommit _ _ => incrementable (CurrentRound p)
  | _ => True
  end.

(** The process state without the record of the calls made. *)
Definition forget_calls (p : Process) : Process := set_calls [] p.

(** The updates that [tryPrecommitUponSufficientPrevotes] makes in either
    step once it has seen the polka for [v]: the valid value and the valid
    round are set, and then the once-flag of the round. *)
Definition validated (v : Value) (p : Process) : Process :=
  setOnceFlag (CurrentRound p) OnceFlagPrecommitUponSufficientPrevotes
    (set_ValidRound (CurrentRound p) (set_ValidValue v p)).

(** The updates it makes before, when the polka is seen in step Prevoting:
    the lock is taken and the precommit broadcast; [stepToPrecommitting]
    follows. *)
Definition locked (v : Value) (p : Process) : Process :=
  emit (BroadcastPrecommit (CurrentHeight p) (CurrentRound p) v)
    (set_LockedRound (CurrentRound p) (set_LockedValue v p)).

(** ** Observations on runs *)

(** The height a delivered message was sent at. *)
Definition message_height (ev : Event) : option Height :=
  match ev with
  | EvPropose propose => Some (Propose_Height propose)
  | EvPrevote prevote => Some (Prevote_Height prevote)
  | EvPrecommit precommit => Some (Precommit_Height precommit)
  | _ => None
  end.

(** The values handed to the committer, with their heights, oldest first. *)
Definition commits (l : list Effect) : list (Height * Value) :=
  omap (λ e, match e with Commit h v => Some (h, v) | _ => None end) l.

(** The process after the insertion that opens the delivery of a message
    (the process itself for the other events). *)
Definition inserted (ev : Event) (p : Process) : Process :=
  match ev with
  | EvPropose propose => (insertPropose propose p).2
  | EvPrevote prevote => (insertPrevote prevote p).2
  | EvPrecommit precommit => (insertPrecommit precommit p).2
  | _ => p
  end.

(** A vote for a value other than nil that the logs bear out: a prevote,
    by the proposal logged for its round; a precommit, by that proposal and
    at least [2F + 1] prevotes of the round for its value. *)
Definition backed (p : Process) (e : Effect) : Prop :=
  match e with
  | BroadcastPrevote h r v =>
      v = NilValue
      ∨ h = CurrentHeight p
        ∧ ∃ propose, ProposeLogs p !! r = Some propose
                     ∧ Propose_Value propose = v
  | BroadcastPrecommit h r v =>
      v = NilValue
      ∨ h = CurrentHeight p
        ∧ ∃ propose, ProposeLogs p !! r = Some propose
                     ∧ Propose_Value propose = v
                     ∧ int_wrap (2 * F p + 1)
                       <= countPrevotes v (prevotesAt p r)
  | _ => True
  end.

(** The votes made from [p] to [q] are borne out by the logs of [p], and
    the proposals and prevotes that [q] holds are those of [p], unless [q] has
    none because a commit has emptied the logs. *)
Definition backs (p q : Process) : Prop :=
  F q = F p
  ∧ (ProposeLogs q = ∅
     ∨ CurrentHeight q = CurrentHeight p ∧ ProposeLogs q = ProposeLogs p
       ∧ PrevoteLogs q = PrevoteLogs p)
  ∧ ∃ l, calls q = calls p ++ l ∧ Forall (backed p) l.

(** The logs hold messages of the current height only, each filed under its
    own round (and sender); a logged proposal comes from the proposer that
    the scheduler names for its round and carries a value that the validator
    accepted. *)
Record filed (p : Process) : Prop := {
  filed_proposes :
    ∀ r m, ProposeLogs p !! r = Some m →
           Propose_Height m = CurrentHeight p ∧ Propose_Round m = r
           ∧ Propose_From m = scheduler p (CurrentHeight p) r
           ∧ validator p (Propose_Value m) = true;
  filed_prevotes :
    ∀ r from m, prevotesAt p r !! from = Some m →
                Prevote_Height m = CurrentHeight p ∧ Prevote_Round m = r
                ∧ Prevote_From m = from;
  filed_precommits :
    ∀ r from m, precommitsAt p r !! from = Some m →
                Precommit_Height m = CurrentHeight p ∧ Precommit_Round m = r
                ∧ Precommit_From m = from
}.

(** A report to the catcher between two different messages of the same
    height and round: for votes, of the same sender; for proposals, the
    logged one being from the scheduled proposer. *)
Definition justified (p : Process) (e : Effect) : Prop :=
  match e with
  | CatchDoublePropose new old =>
      new ≠ old ∧ Propose_Height new = Propose_Height old
      ∧ Propose_Round new = Propose_Round old
      ∧ Propose_From old
        = scheduler p (Propose_Height old) (Propose_Round old)
  | CatchDoublePrevote new old =>
      new ≠ old ∧ Prevote_Height new = Prevote_Height old
      ∧ Prevote_Round new = Prevote_Round old
      ∧ Prevote_From new = Prevote_From old
  | CatchDoublePrecommit new old =>
      new ≠ old ∧ Precommit_Height new = Precommit_Height old
      ∧ Precommit_Round new = Precommit_Round old
      ∧ Precommit_From new = Precommit_From old
  | _ => True
  end.

(** Nothing is committed or reported to the catcher, and the height, the
    logs and [F] stay as they are. *)
Record quiet (p q : Process) : Prop := {
  quiet_CurrentHeight : CurrentHeight q = CurrentHeight p;
  quiet_F : F q = F p;
  quiet_ProposeLogs : ProposeLogs q = ProposeLogs p;
  quiet_PrevoteLogs : PrevoteLogs q = PrevoteLogs p;
  quiet_PrecommitLogs : PrecommitLogs q = PrecommitLogs p;
  quiet_calls :
    ∃ l, calls q = calls p ++ l ∧ Forall (λ e, ¬ catch_call e) l
         ∧ commits l = []
}.

(** What the conditions tried after an insertion do about committing: either
    height and logs stay and nothing is committed, or the value of a logged
    proposal with exactly [2F + 1] matching precommits is committed, once and
    at the height the process is at, and the process moves to the next height
    (the increment wrapping around as [int64] does) with empty logs.  No
    report to the catcher is made. *)
Definition decides (p q : Process) : Prop :=
  ∃ l, calls q = calls p ++ l
       ∧ Forall (λ e, ¬ catch_call e) l
       ∧ ((CurrentHeight q = CurrentHeight p
           ∧ ProposeLogs q = ProposeLogs p ∧ PrevoteLogs q = PrevoteLogs p
           ∧ PrecommitLogs q = PrecommitLogs p
           ∧ commits l = [])
          ∨ (∃ r propose,
               ProposeLogs p !! r = Some propose
               ∧ countPrecommits (Propose_Value propose) (precommitsAt p r)
                 = int_wrap (2 * F p + 1)
               ∧ CurrentHeight q = int_wrap (CurrentHeight p + 1)
               ∧ ProposeLogs q = ∅ ∧ PrevoteLogs q = ∅
               ∧ PrecommitLogs q = ∅
               ∧ commits l = [(CurrentHeight p, Propose_Value propose)])).

(** ** The calls made for a height and round *)

(** The kinds of calls that carry a height and a round: the three
    broadcasts and the three timeout requests. *)
Inductive Kind :=
| KindPropose
| KindPrevote
| KindPrecommit
| KindTimeoutPropose
| KindTimeoutPrevote
| KindTimeoutPrecommit.

(** The height and round that a call of a kind is made for. *)
Definition slot (k : Kind) (e : Effect) : option (Height * Round) :=
  match k, e with
  | KindPropose, BroadcastPropose h r _ _
  | KindPrevote, BroadcastPrevote h r _
  | KindPrecommit, BroadcastPrecommit h r _
  | KindTimeoutPropose, TimeoutPropose h r
  | KindTimeoutPrevote, TimeoutPrevote h r
  | KindTimeoutPrecommit, TimeoutPrecommit h r => Some (h, r)
  | _, _ => None
  end.

Definition slots (k : Kind) (l : list Effect) : list (Height * Round) :=
  omap (slot k) l.

Definition position (p : Process) : Height * Round :=
  (CurrentHeight p, CurrentRound p).

(** Heights first, then rounds. *)
Definition before (a b : Height * Round) : Prop :=
  a.1 < b.1 ∨ a.1 = b.1 ∧ a.2 < b.2.

(** What in the state stands for a call of a kind having been made for the
    current height and round: the step for the votes, the once-flag of the
    round for the vote timeouts.  (The proposal and the propose timeout are
    made on entering the round.) *)
Definition made (k : Kind) (p : Process) : Prop :=
  match k with
  | KindPropose | KindTimeoutPropose => True
  | KindPrevote => CurrentStep p ≠ Proposing
  | KindPrecommit => CurrentStep p = Precommitting
  | KindTimeoutPrevote =>
      checkOnceFlag (CurrentRound p)
        OnceFlagTimeoutPrevoteUponSufficientPrevotes p = true
  | KindTimeoutPrecommit =>
      checkOnceFlag (CurrentRound p)
        OnceFlagTimeoutPrecommitUponSufficientPrecommits p = true
  end.

(** The votes of a kind that stand between two steps: the prevote between
    Proposing and the later steps, the precommit between the earlier steps
    and Precommitting. *)
Definition votes_between (k : Kind) (s s' : Step) : nat :=
  match k, s, s' with
  | KindPrevote, Proposing, (Prevoting | Precommitting) => 1%nat
  | KindPrecommit, (Proposing | Prevoting), Precommitting => 1%nat
  | _, _, _ => 0%nat
  end.

(** Steps and votes go together in the retried conditions: from [p] to [q]
    height and round stay and the step does not go back; the prevote of the
    round is broadcast when the step leaves Proposing, its precommit when the
    step becomes Precommitting, each once, and no vote is broadcast
    otherwise. *)
Record stepwise (p q : Process) : Prop := {
  stepwise_position : position q = position p;
  stepwise_rank : Step_rank (CurrentStep p) <= Step_rank (CurrentStep q);
  stepwise_calls :
    ∃ l, calls q = calls p ++ l
         ∧ slots KindPrevote l
           = replicate
               (votes_between KindPrevote (CurrentStep p) (CurrentStep q))
               (position p)
         ∧ slots KindPrecommit l
           = replicate
               (votes_between KindPrecommit (CurrentStep p) (CurrentStep q))
               (position p)
}.

(** What the retried conditions do within a round: height and round stay,
    and a call of a kind is made at most once, for the current height and
    round, and only if the state does not tell that it has been made. *)
Record acts (p q : Process) : Prop := {
  acts_position : position q = position p;
  acts_made : ∀ k, made k p → made k q;
  acts_calls :
    ∃ l, calls q = calls p ++ l
         ∧ ∀ k, slots k l = []
                ∨ slots k l = [position p] ∧ ¬ made k p ∧ made k q
}.

(** The calls made so far are for heights and rounds up to the current one,
    those for the current one are accounted for in the state, and no two
    calls of a kind are for the same height and round. *)
Record once (p : Process) : Prop := {
  once_slots :
    ∀ k s, s ∈ slots k (calls p) →
           before s (position p) ∨ s = position p ∧ made k p;
  once_NoDup : ∀ k, NoDup (slots k (calls p))
}.

(** The lock is not younger than the valid value, which is not younger than
    the round. *)
Definition ordered (s : State) : Prop :=
  InvalidRound <= LockedRound s <= ValidRound s
  ∧ ValidRound s <= CurrentRound s.

(** What the retried conditions do to the lock and the valid value: the
    round stays; either the lock is left alone and the valid round is left
    alone or set to the round, or both are set to the round. *)
Definition relocks (p q : Process) : Prop :=
  CurrentRound q = CurrentRound p
  ∧ (LockedRound q = LockedRound p
     ∧ (ValidRound q = ValidRound p ∨ ValidRound q = CurrentRound p)
     ∨ LockedRound q = CurrentRound p ∧ ValidRound q = CurrentRound p).

(** Height, round and step of [q] are those of [p] or later ones. *)
Definition forward (p q : Process) : Prop :=
  before (position p) (position q)
  ∨ position q = position p
    ∧ Step_rank (CurrentStep p) <= Step_rank (CurrentStep q).

(** ** A process that is driven as [Replica.Run] does *)

(** The events delivered after the start: messages and timeouts. *)
Definition is_input (ev : Event) : Prop :=
  match ev with
  | EvStart | EvStartRound _ => False
  | _ => True
  end.

(** The states of a process that is started once and then given messages
    and timeouts, for as long as neither its height nor its round is the
    largest [int64]: the counters of a running process do not wrap around. *)
Inductive running (p0 : Process) : Process → Prop :=
| running_start n q : Start n p0 = Some q → running p0 q
| running_step p ev n q :
    running p0 p → is_input ev →
    incrementable (CurrentHeight p) → incrementable (CurrentRound p) →
    handle n ev p = Some q → running p0 q.

(** The counters have room all along the delivery of the events to [p]:
    neither the height nor the round is the largest [int64] when an event
    is delivered. *)
Fixpoint with_room (evs : list Event) (p : Process) : Prop :=
  match evs with
  | [] => True
  | ev :: evs =>
      incrementable (CurrentHeight p) ∧ incrementable (CurrentRound p)
      ∧ with_room evs (after [ev] p)
  end.

(** ** The driver (package [replica])

    [Replica.Run] starts the process once and then hands it the timeouts and
    the messages that pass [filterHeight] and [filterFrom] (see [running]);
    the process is given a round-robin scheduler over the signatories. *)

(** [roundRobinScheduler.Schedule]:
    [signatories[(uint64(height)+uint64(round))%uint64(len(signatories))]].
    [None] stands for the run-time panic of the division by zero, which is
    what happens without signatories. *)
Definition Schedule (signatories : list Pid) (height : Height)
  (round : Round) : option Pid :=
  let n := uint64 (Z.of_nat (length signatories)) in
  if decide (n = 0) then None
  else signatories !! Z.to_nat (uint64 (uint64 height + uint64 round) `mod` n).

(** The map that [New] fills: [for _, signatory := range signatories
    { procsAllowed[signatory] = true }]. *)
Definition procsAllowed (signatories : list Pid) : gmap Pid bool :=
  foldl (λ allowed signatory, <[signatory := true]> allowed) ∅ signatories.

(** [replica.procsAllowed[from]]: a missing key reads as [false]. *)
Definition filterFrom (allowed : gmap Pid bool) (from : Pid) : bool :=
  default false (allowed !! from).

(** [height >= replica.proc.CurrentHeight] *)
Definition filterHeight (p : Process) (height : Height) : bool :=
  bool_decide (height >= CurrentHeight p).

End Model.

(** ** The scenarios of the specification

    Participants are named by strings and values are strings, the empty
    string being the nil value; the scheduler is the round-robin reference
    implementation [signatories[(h + r) mod n]]. *)

#[global] Instance string_ValueOps : ValueOps string :=
  {| NilValue := EmptyString |}.

Definition roundRobin (signatories : list string) (h : Height) (r : Round)
  : string :=
  default EmptyString
    (signatories !! Z.to_nat ((h + r) `mod` Z.of_nat (length signatories))).

(** Four participants, [A] being scheduled at height 1, round 0. *)
Definition four : list string := ["D"; "A"; "B"; "C"].

(** Seven participants, [A] being scheduled at height 1, round 0. *)
Definition seven : list string := ["G"; "A"; "B"; "C"; "D"; "E"; "F"].

Definition proposeW (h : Height) (r : Round) : string := "W".

Definition rejectNil (v : string) : bool := bool_decide (v ≠ NilValue).

Definition acceptAll (v : string) : bool := true.

Definition mkPropose (r : Round) (v : string) (vr : Round) (from : string)
  : Propose :=
  {| Propose_Height := 1; Propose_Round := r; Propose_ValidRound := vr;
     Propose_Value := v; Propose_From := from |}.

Definition mkPrevote (r : Round) (v : string) (from : string) : Prevote :=
  {| Prevote_Height := 1; Prevote_Round := r; Prevote_Value := v;
     Prevote_From := from |}.

Definition mkPrecommit (r : Round) (v : string) (from : string) : Precommit :=
  {| Precommit_Height := 1; Precommit_Round := r; Precommit_Value := v;
     Precommit_From := from |}.


(** Scenario S6 before the proposal arrives. *)
Definition locked_B : Process (Pid:=string) (Value:=string) :=
  set_LockedRound 1 (set_LockedValue "V" (set_CurrentRound 2
    (New "B" 1 (roundRobin four) proposeW rejectNil))).

(** Scenario S1 up to the polka: the proposal of [A] and three prevotes for
    it. *)
Definition polka : list (Event (Pid:=string) (Value:=string)) :=
  [EvStart; EvPropose (mkPropose 0 "V" (-1) "A");
   EvPrevote (mkPrevote 0 "V" "A"); EvPrevote (mkPrevote 0 "V" "B");
   EvPrevote (mkPrevote 0 "V" "C")].

(** The proposal of [A] reaches [G] after the precommits of the six other
    participants. *)
Definition late_proposal : list (Event (Pid:=string) (Value:=string)) :=
  [EvStart;
   EvPrecommit (mkPrecommit 0 "V" "A"); EvPrecommit (mkPrecommit 0 "V" "B");
   EvPrecommit (mkPrecommit 0 "V" "C"); EvPrecommit (mkPrecommit 0 "V" "D");
   EvPrecommit (mkPrecommit 0 "V" "E"); EvPrecommit (mkPrecommit 0 "V" "F");
   EvPropose (mkPropose 0 "V" (-1) "A")].

(** Participant [B], one of four, and participant [G], one of seven. *)
Definition processB : Process (Pid:=string) (Value:=string) :=
  New "B" 1 (roundRobin four) proposeW rejectNil.

Definition processG : Process (Pid:=string) (Value:=string) :=
  New "G" 2 (roundRobin seven) proposeW rejectNil.

(** Participant [A], the proposer of height 1, round 0. *)
Definition processA : Process (Pid:=string) (Value:=string) :=
  New "A" 1 (roundRobin four) proposeW rejectNil.

(** Participant [B] with a validator that accepts every value. *)
Definition permissiveB : Process (Pid:=string) (Value:=string) :=
  New "B" 1 (roundRobin four) proposeW acceptAll.

(** [A] proposes [V]; [C], who is not scheduled, sends a proposal for the
    same round. *)
Definition proposal_of_A : list (Event (Pid:=string) (Value:=string)) :=
  [EvStart; EvPropose (mkPropose 0 "V" (-1) "A")].

(** The propose timeout fires before any prevote has arrived; then three
    prevotes arrive, two for [V] and the nil prevote of [B] itself. *)
Definition prevotes_after_timeout
  : list (Event (Pid:=string) (Value:=string)) :=
  [EvStart; EvTimeoutPropose 1 0;
   EvPrevote (mkPrevote 0 "V" "A"); EvPrevote (mkPrevote 0 NilValue "B");
   EvPrevote (mkPrevote 0 "V" "C")].

(** Scenario S4: prevotes of round 5 from [A] and [C]. *)
Definition future_round : list (Event (Pid:=string) (Value:=string)) :=
  [EvStart; EvPrevote (mkPrevote 5 "V" "A"); EvPrevote (mkPrevote 5 "V" "C")].

(** After S4 a third prevote of round 5 arrives and the process is started
    again (as after a restart from its saved state); then a precommit of
    round 5 arrives. *)
Definition future_round_restarted
  : list (Event (Pid:=string) (Value:=string)) :=
  future_round
  ++ [EvPrevote (mkPrevote 5 "V" "D"); EvStart;
      EvPrecommit (mkPrecommit 5 "V" "A")].

(** The proposer proposes the nil value and three participants prevote it. *)
Definition nil_polka : list (Event (Pid:=string) (Value:=string)) :=
  [EvStart; EvPropose (mkPropose 0 NilValue (-1) "A");
   EvPrevote (mkPrevote 0 NilValue "A");
   EvPrevote (mkPrevote 0 NilValue "B");
   EvPrevote (mkPrevote 0 NilValue "C")].

(** A prevote of height 2, which [B] receives at height 1. *)
Definition prevote_of_height_2 : Prevote (Pid:=string) (Value:=string) :=
  {| Prevote_Height := 2; Prevote_Round := 0; Prevote_Value := "V";
     Prevote_From := "A" |}.

(** [B] has logged the prevote of [A] for [V]. *)
Definition one_prevote : list (Event (Pid:=string) (Value:=string)) :=
  [EvStart; EvPrevote (mkPrevote 0 "V" "A")].

(** [B] holds the proposal of [A] and the prevotes of [A] and of itself for
    it: one prevote short of a polka. *)
Definition two_prevotes : list (Event (Pid:=string) (Value:=string)) :=
  [EvStart; EvPropose (mkPropose 0 "V" (-1) "A");
   EvPrevote (mkPrevote 0 "V" "A"); EvPrevote (mkPrevote 0 "V" "B")].

(** The third prevote is in the log and no rule has been tried yet. *)
Definition polka_logged : Process (Pid:=string) (Value:=string) :=
  (insertPrevote (mkPrevote 0 "V" "C") (after two_prevotes processB)).2.

(** As [two_prevotes], but the prevote timeout has taken [B] to step
    Precommitting before the prevotes arrive. *)
Definition two_late_prevotes : list (Event (Pid:=string) (Value:=string)) :=
  [EvStart; EvPropose (mkPropose 0 "V" (-1) "A"); EvTimeoutPrevote 1 0;
   EvPrevote (mkPrevote 0 "V" "A"); EvPrevote (mkPrevote 0 "V" "B")].

Definition late_polka_logged : Process (Pid:=string) (Value:=string) :=
  (insertPrevote (mkPrevote 0 "V" "C")
     (after two_late_prevotes processB)).2.

(** Participant [D]: it sees three prevotes for [V] in round 0 but no
    proposal, and its three timeouts take it to round 1, whose proposer is
    [B]. *)
Definition processD : Process (Pid:=string) (Value:=string) :=
  New "D" 1 (roundRobin four) proposeW rejectNil.

Definition round_without_proposal
  : list (Event (Pid:=string) (Value:=string)) :=
  [EvStart; EvPrevote (mkPrevote 0 "V" "A");
   EvPrevote (mkPrevote 0 "V" "B"); EvPrevote (mkPrevote 0 "V" "C");
   EvTimeoutPropose 1 0; EvTimeoutPrevote 1 0; EvTimeoutPrecommit 1 0].

(** In round 1, [D] has logged the proposal of [B] for [V] with valid
    round 0. *)
Definition reproposal_logged : Process (Pid:=string) (Value:=string) :=
  (insertPropose (mkPropose 1 "V" 0 "B")
     (after round_without_proposal processD)).2.

(** After its propose timeout, [B] has logged two nil prevotes, and a third
    one is put in the log. *)
Definition two_nil_prevotes : list (Event (Pid:=string) (Value:=string)) :=
  [EvStart; EvTimeoutPropose 1 0; EvPrevote (mkPrevote 0 NilValue "A");
   EvPrevote (mkPrevote 0 NilValue "B")].

Definition nil_prevotes_logged : Process (Pid:=string) (Value:=string) :=
  (insertPrevote (mkPrevote 0 NilValue "C")
     (after two_nil_prevotes processB)).2.

(** After the polka, two precommits for [V]: one short of a commit. *)
Definition two_precommits : list (Event (Pid:=string) (Value:=string)) :=
  polka ++ [EvPrecommit (mkPrecommit 0 "V" "A");
            EvPrecommit (mkPrecommit 0 "V" "B")].

(** The third precommit is in the log and no rule has been tried yet. *)
Definition commit_logged : Process (Pid:=string) (Value:=string) :=
  (insertPrecommit (mkPrecommit 0 "V" "C")
     (after two_precommits processB)).2.

(** Scenario S1 in full: [B] commits [V] at height 1. *)
Definition committed : list (Event (Pid:=string) (Value:=string)) :=
  two_precommits ++ [EvPrecommit (mkPrecommit 0 "V" "C")].

(** [A] prevotes [V] and then [X] in round 0. *)
Definition double_prevote : list (Event (Pid:=string) (Value:=string)) :=
  [EvStart; EvPrevote (mkPrevote 0 "V" "A");
   EvPrevote (mkPrevote 0 "X" "A")].

(** The round counter overflows: the prevote and the precommit of [A] for
    round [2^63 - 1] make [B] skip to that round, whose precommit timeout
    starts round [-2^63]; the prevote and the precommit of [A] for round
    [-1] make [B] skip to round [-1], where the proposer [D] proposes [V]
    and [B] and [C] prevote it. *)
Definition round_overflow : list (Event (Pid:=string) (Value:=string)) :=
  [EvStart;
   EvPrevote (mkPrevote (2 ^ 63 - 1) "V" "A");
   EvPrecommit (mkPrecommit (2 ^ 63 - 1) "V" "A");
   EvTimeoutPrecommit 1 (2 ^ 63 - 1);
   EvPrevote (mkPrevote (-1) "V" "A");
   EvPrecommit (mkPrecommit (-1) "V" "A");
   EvPropose (mkPropose (-1) "V" (-1) "D");
   EvPrevote (mkPrevote (-1) "V" "B");
   EvPrevote (mkPrevote (-1) "V" "C")].

(** * Properties *)

Section Properties.
Context {Pid : Type} `{!EqDecision Pid, !Countable Pid}.
Context {Value : Type} `{!ValueOps Value}.
Implicit Types p q : Process (Pid:=Pid) (Value:=Value).
Implicit Types e : Effect (Pid:=Pid) (Value:=Value).


(** ** Inverting a run *)

Ltac run_step :=
  match goal with
  | H : None = Some _ |- _ => discriminate H
  | H : Some _ = Some _ |- _ => apply (inj Some) in H; simplify_eq
  | H : (_ ≫= _) = Some _ |- _ =>
      let x := fresh "x" in
      let Hx := fresh "Hx" in
      apply bind_Some in H; destruct H as (x & Hx & H)
  | H : (if decide ?P then _ else _) = Some _ |- _ => destruct (decide P)
  | H : (if ?b then _ else _) = Some _ |- _ => destruct b eqn:?
  | H : match ?o with Some _ => _ | None => _ end = Some _ |- _ =>
      destruct o eqn:?
  | H : match ?x with (_, _) => _ end = Some _ |- _ => destruct x
  | H : ?lhs = Some _ |- _ =>
      match lhs with
      | context [decide ?P] => destruct (decide P)
      end
  end.
Ltac run_inv := repeat run_step.

(** ** The frame of the retried conditions *)

Lemma frame_refl p : frame p p.
Proof. split; try done. exists []. by rewrite app_nil_r. Qed.

Lemma frame_trans p q r : frame p q → frame q r → frame p r.
Proof.
  intros [? ? ? ? ? ? ? ? ? ? (l1 & E1 & F1)] [? ? ? ? ? ? ? ? ? ? (l2 & E2 & F2)].
  split; try congruence.
  exists (l1 ++ l2). split.
  - by rewrite E2, E1, app_assoc.
  - by apply Forall_app.
Qed.

Lemma frame_state p f :
  CurrentHeight (f (state p)) = CurrentHeight p →
  CurrentRound (f (state p)) = CurrentRound p →
  frame p (set_state f p).
Proof. intros; split; try done. exists []. by rewrite app_nil_r. Qed.

Lemma frame_emit p e : retry_call e → frame p (emit e p).
Proof.
  intros He; split; try done. exists [e]. split; [done | by constructor].
Qed.

Lemma frame_setOnceFlag p r fl : frame p (setOnceFlag r fl p).
Proof. split; try done. exists []. by rewrite app_nil_r. Qed.

Lemma frame_tryTimeoutPrevote p :
  frame p (tryTimeoutPrevoteUponSufficientPrevotes p).
Proof.
  unfold tryTimeoutPrevoteUponSufficientPrevotes.
  destruct (checkOnceFlag _ _ _); [apply frame_refl |].
  repeat case_decide; try apply frame_refl.
  - eapply frame_trans; [apply frame_emit | apply frame_setOnceFlag]. done.
  - apply frame_setOnceFlag.
Qed.

Lemma frame_tryTimeoutPrecommit p :
  frame p (tryTimeoutPrecommitUponSufficientPrecommits p).
Proof.
  unfold tryTimeoutPrecommitUponSufficientPrecommits.
  destruct (checkOnceFlag _ _ _); [apply frame_refl |].
  case_decide; [| apply frame_refl].
  eapply frame_trans; [apply frame_emit | apply frame_setOnceFlag]. done.
Qed.

Ltac frame_tac :=
  repeat first
    [ assumption
    | apply frame_refl
    | match goal with
      | |- frame _ (set_state _ _) =>
          eapply frame_trans; [| by apply frame_state]
      | |- frame _ (emit _ _) =>
          eapply frame_trans; [| by apply frame_emit]
      | |- frame _ (setOnceFlag _ _ _) =>
          eapply frame_trans; [| apply frame_setOnceFlag]
      | |- frame _ (tryTimeoutPrevoteUponSufficientPrevotes _) =>
          eapply frame_trans; [| apply frame_tryTimeoutPrevote]
      | |- frame _ (tryTimeoutPrecommitUponSufficientPrecommits _) =>
          eapply frame_trans; [| apply frame_tryTimeoutPrecommit]
      | H : ?f ?y = Some ?x, IH : runs_in frame ?f |- frame _ ?x =>
          eapply frame_trans; [| exact (IH _ _ H)]
      end ].

Ltac unfold_setters :=
  unfold set_CurrentHeight, set_CurrentRound, set_CurrentStep,
    set_LockedValue, set_LockedRound, set_ValidValue, set_ValidRound in *.

Lemma cycle_frame n : cycle_runs_in (Pid:=Pid) (Value:=Value) frame n.
Proof.
  induction n as [|n (IH1 & IH2 & IH3 & IH4 & IH5 & IH6)].
  { repeat apply conj; intros p q Hq; discriminate Hq. }
  repeat apply conj; intros p q Hq; simpl in Hq; run_inv;
    unfold_setters; frame_tac.
Qed.

(** ** Enough fuel: the retried conditions return *)

Lemma tryPrevoteUponPropose_not_proposing n p :
  CurrentStep p ≠ Proposing → tryPrevoteUponPropose (S n) p = Some p.
Proof. intros Hs. simpl. by rewrite decide_True. Qed.

Lemma tryPrevoteUponSufficientPrevotes_not_proposing n p :
  CurrentStep p ≠ Proposing →
  tryPrevoteUponSufficientPrevotes (S n) p = Some p.
Proof. intros Hs. simpl. by rewrite decide_True. Qed.

Lemma tryPrecommit_not_prevoting n p :
  CurrentStep p ≠ Prevoting →
  ∃ q, tryPrecommitUponSufficientPrevotes (S n) p = Some q
       ∧ CurrentStep q = CurrentStep p.
Proof.
  intros Hs. simpl.
  destruct (checkOnceFlag _ _ _); [by eauto |].
  case_decide; [by eauto |].
  destruct (ProposeLogs p !! CurrentRound p); [| by eauto].
  case_decide; [by eauto |].
  rewrite decide_False by done. simpl. eauto.
Qed.

Lemma stepToPrecommitting_S n p :
  stepToPrecommitting (S n) p
  = tryPrecommitUponSufficientPrevotes n (set_CurrentStep Precommitting p).
Proof. reflexivity. Qed.

Lemma stepToPrevoting_S n p :
  stepToPrevoting (S n) p
  = (p ← tryPrecommitUponSufficientPrevotes n (set_CurrentStep Prevoting p);
     p ← tryPrecommitNilUponSufficientPrevotes n p;
     Some (tryTimeoutPrevoteUponSufficientPrevotes p)).
Proof. reflexivity. Qed.

Lemma stepToPrecommitting_total n p :
  ∃ q, stepToPrecommitting (S (S n)) p = Some q
       ∧ CurrentStep q = Precommitting.
Proof.
  rewrite stepToPrecommitting_S.
  destruct (tryPrecommit_not_prevoting n (set_CurrentStep Precommitting p))
    as (q & -> & Hq); [done |]. eauto.
Qed.

Lemma tryPrecommit_total n p :
  ∃ q, tryPrecommitUponSufficientPrevotes (S (S (S n))) p = Some q
       ∧ (CurrentStep p ≠ Proposing → CurrentStep q ≠ Proposing).
Proof.
  destruct (decide (CurrentStep p = Prevoting)) as [Hs | Hs].
  2: { destruct (tryPrecommit_not_prevoting (S (S n)) p Hs) as (q & Hq & E).
       exists q. split; [done | congruence]. }
  remember (S (S n)) as k eqn:Hk. simpl. subst k.
  destruct (checkOnceFlag _ _ _); [by eauto |].
  case_decide; [by eauto |].
  destruct (ProposeLogs p !! CurrentRound p) as [propose|]; [| by eauto].
  case_decide; [by eauto |].
  rewrite decide_True by done.
  match goal with |- context [stepToPrecommitting _ ?x] =>
    destruct (stepToPrecommitting_total n x) as (q & -> & Hq) end.
  cbn [mbind option_bind].
  rewrite tryPrevoteUponPropose_not_proposing by (simpl; congruence).
  cbn [mbind option_bind].
  rewrite tryPrevoteUponSufficientPrevotes_not_proposing
    by (simpl; congruence).
  eexists; split; [done |]. simpl. congruence.
Qed.

Lemma tryPrecommitNil_total n p :
  ∃ q, tryPrecommitNilUponSufficientPrevotes (S (S (S n))) p = Some q
       ∧ (CurrentStep p ≠ Proposing → CurrentStep q ≠ Proposing).
Proof.
  remember (S (S n)) as k eqn:Hk. simpl. subst k.
  case_decide; [by eauto |].
  case_decide; [| by eauto].
  match goal with |- context [stepToPrecommitting _ ?x] =>
    destruct (stepToPrecommitting_total n x) as (q & Hq & Hs) end.
  exists q. split; [exact Hq | congruence].
Qed.

Lemma stepToPrevoting_total n p :
  ∃ q, stepToPrevoting (S (S (S (S n)))) p = Some q
       ∧ CurrentStep q ≠ Proposing.
Proof.
  rewrite stepToPrevoting_S.
  destruct (tryPrecommit_total n (set_CurrentStep Prevoting p))
    as (q1 & -> & H1).
  cbn [mbind option_bind].
  destruct (tryPrecommitNil_total n q1) as (q2 & -> & H2).
  cbn [mbind option_bind]. eexists; split; [done |].
  assert (CurrentStep q2 ≠ Proposing) by (apply H2, H1; done).
  unfold tryTimeoutPrevoteUponSufficientPrevotes.
  destruct (checkOnceFlag _ _ _); [done |].
  repeat case_decide; done.
Qed.

Lemma tryPrevoteUponPropose_total n p :
  ∃ q, tryPrevoteUponPropose (S (S (S (S (S n))))) p = Some q.
Proof.
  remember (S (S (S (S n)))) as k eqn:Hk. simpl. subst k.
  case_decide; [by eauto |].
  destruct (ProposeLogs p !! CurrentRound p) as [propose|]; [| by eauto].
  case_decide; [by eauto |].
  match goal with |- context [stepToPrevoting _ ?x] =>
    destruct (stepToPrevoting_total n x) as (q & Hq & _) end.
  eauto.
Qed.

Lemma tryPrevoteUponSufficientPrevotes_total n p :
  ∃ q, tryPrevoteUponSufficientPrevotes (S (S (S (S (S n))))) p = Some q.
Proof.
  remember (S (S (S (S n)))) as k eqn:Hk. simpl. subst k.
  case_decide; [by eauto |].
  destruct (ProposeLogs p !! CurrentRound p) as [propose|]; [| by eauto].
  case_decide; [by eauto |].
  case_decide; [by eauto |].
  match goal with |- context [stepToPrevoting _ ?x] =>
    destruct (stepToPrevoting_total n x) as (q & Hq & _) end.
  eauto.
Qed.


(** ** The depth bound does not matter once it is large enough *)

Lemma cycle_mono n :
  (∀ p q, tryPrevoteUponPropose n p = Some q →
          tryPrevoteUponPropose (S n) p = Some q)
  ∧ (∀ p q, tryPrevoteUponSufficientPrevotes n p = Some q →
            tryPrevoteUponSufficientPrevotes (S n) p = Some q)
  ∧ (∀ p q, tryPrecommitUponSufficientPrevotes n p = Some q →
            tryPrecommitUponSufficientPrevotes (S n) p = Some q)
  ∧ (∀ p q, tryPrecommitNilUponSufficientPrevotes n p = Some q →
            tryPrecommitNilUponSufficientPrevotes (S n) p = Some q)
  ∧ (∀ p q, stepToPrevoting n p = Some q → stepToPrevoting (S n) p = Some q)
  ∧ (∀ p q, stepToPrecommitting n p = Some q →
            stepToPrecommitting (S n) p = Some q).
Proof.
  induction n as [|n (IH1 & IH2 & IH3 & IH4 & IH5 & IH6)].
  { repeat apply conj; intros p q Hq; discriminate Hq. }
  repeat apply conj; intros p q Hq;
    remember (S n) as k eqn:Hk; simpl; subst k; simpl in Hq; run_inv.
  all: try reflexivity.
  all: repeat
    (match goal with
     | H : ?f ?m ?y = Some ?x |- context [?f (S ?m) ?y] =>
         first [ rewrite (IH1 _ _ H) | rewrite (IH2 _ _ H)
               | rewrite (IH3 _ _ H) | rewrite (IH4 _ _ H)
               | rewrite (IH5 _ _ H) | rewrite (IH6 _ _ H) ]
     end; cbn [mbind option_bind]); done.
Qed.

Lemma cycle_fuel n k :
  (∀ p q, tryPrevoteUponPropose n p = Some q →
          tryPrevoteUponPropose (k + n) p = Some q)
  ∧ (∀ p q, tryPrevoteUponSufficientPrevotes n p = Some q →
            tryPrevoteUponSufficientPrevotes (k + n) p = Some q)
  ∧ (∀ p q, tryPrecommitUponSufficientPrevotes n p = Some q →
            tryPrecommitUponSufficientPrevotes (k + n) p = Some q)
  ∧ (∀ p q, tryPrecommitNilUponSufficientPrevotes n p = Some q →
            tryPrecommitNilUponSufficientPrevotes (k + n) p = Some q)
  ∧ (∀ p q, stepToPrevoting n p = Some q →
            stepToPrevoting (k + n) p = Some q)
  ∧ (∀ p q, stepToPrecommitting n p = Some q →
            stepToPrecommitting (k + n) p = Some q).
Proof.
  induction k as [|k (IH1 & IH2 & IH3 & IH4 & IH5 & IH6)]; [done |].
  destruct (cycle_mono (k + n)) as (M1 & M2 & M3 & M4 & M5 & M6).
  repeat apply conj; intros p q Hq; cbn [Nat.add]; auto.
Qed.


(** ** Starting a round *)

Lemma StartRound_frame n r p q :
  StartRound n r p = Some q →
  frame (emit (StartRound_call r p)
           (set_CurrentStep Proposing (set_CurrentRound r p))) q.
Proof.
  destruct (cycle_frame n) as (IH1 & IH2 & IH3 & IH4 & IH5 & IH6).
  unfold StartRound, StartRound_call. intros Hq.
  cbn [CurrentHeight CurrentRound state set_CurrentStep set_CurrentRound
       set_state Whoami scheduler proposer ValidValue ValidRound] in *.
  destruct (decide (Whoami p ≠ scheduler p (CurrentHeight p) r));
    run_inv; frame_tac.
Qed.

Lemma StartRound_total n r p :
  ∃ q, StartRound (S (S (S (S (S n))))) r p = Some q.
Proof.
  unfold StartRound.
  match goal with |- context [tryPrecommitUponSufficientPrevotes _ ?x] =>
    destruct (tryPrecommit_total (S (S n)) x) as (q1 & -> & _) end.
  cbn [mbind option_bind].
  destruct (tryPrecommitNil_total (S (S n)) q1) as (q2 & -> & _).
  cbn [mbind option_bind].
  destruct (tryPrevoteUponPropose_total n q2) as (q3 & ->).
  cbn [mbind option_bind].
  destruct (tryPrevoteUponSufficientPrevotes_total n q3) as (q4 & ->).
  cbn [mbind option_bind]. eauto.
Qed.

(** ** What every condition method leaves alone *)

Lemma evolves_refl p : evolves p p.
Proof.
  split; try done. exists []. rewrite app_nil_r. by repeat split.
Qed.

Lemma scheduled_propose_eq p q e :
  scheduler q = scheduler p → Whoami q = Whoami p →
  scheduled_propose q e → scheduled_propose p e.
Proof. intros Hs Hw. destruct e; simpl; congruence. Qed.

Lemma evolves_trans p q r : evolves p q → evolves q r → evolves p r.
Proof.
  intros [? ? ? ? ? (l1 & E1 & F1 & C1)] [? ? ? ? ? (l2 & E2 & F2 & C2)].
  split; try congruence.
  exists (l1 ++ l2). repeat split.
  - by rewrite E2, E1, app_assoc.
  - apply Forall_app; split; [done |].
    eapply Forall_impl; [exact F2 |].
    intros e. by apply scheduled_propose_eq.
  - by apply Forall_app.
Qed.

Lemma retry_call_scheduled p e : retry_call e → scheduled_propose p e.
Proof. by destruct e. Qed.

Lemma retry_call_not_catch e : retry_call e → ¬ catch_call e.
Proof. destruct e; simpl; tauto. Qed.

Lemma frame_evolves p q : frame p q → evolves p q.
Proof.
  intros [? ? ? ? ? ? ? ? ? ? (l & E & Fl)]. split; try done.
  exists l. repeat split; [done | |].
  - eapply Forall_impl; [exact Fl |]. intros e. apply retry_call_scheduled.
  - eapply Forall_impl; [exact Fl |]. apply retry_call_not_catch.
Qed.

Lemma StartRound_call_scheduled r p : scheduled_propose p (StartRound_call r p).
Proof.
  unfold StartRound_call. case_decide as Hd; simpl; [done |].
  destruct (decide (scheduler p (CurrentHeight p) r = Whoami p)); congruence.
Qed.

Lemma StartRound_call_not_catch r p : ¬ catch_call (StartRound_call r p).
Proof. unfold StartRound_call. case_decide; simpl; tauto. Qed.

Lemma StartRound_evolves n r p q : StartRound n r p = Some q → evolves p q.
Proof.
  intros Hq. apply StartRound_frame, frame_evolves in Hq.
  eapply evolves_trans; [| exact Hq].
  split; try done. exists [StartRound_call r p].
  repeat split; [by apply Forall_singleton, StartRound_call_scheduled |].
  apply Forall_singleton, StartRound_call_not_catch.
Qed.

Lemma tryCommit_evolves n r p q :
  tryCommitUponSufficientPrecommits n r p = Some q → evolves p q.
Proof.
  unfold tryCommitUponSufficientPrecommits. intros Hq.
  destruct (ProposeLogs p !! r) as [propose|];
    [| injection Hq as <-; apply evolves_refl].
  case_decide; [| injection Hq as <-; apply evolves_refl].
  apply StartRound_evolves in Hq.
  eapply evolves_trans; [| exact Hq].
  split; try done; simpl.
  eexists [_]. split; [done |].
  split; apply Forall_singleton; simpl; tauto.
Qed.

Lemma trySkip_evolves n r p q :
  trySkipToFutureRound n r p = Some q → evolves p q.
Proof.
  unfold trySkipToFutureRound. intros Hq.
  case_decide; [injection Hq as <-; apply evolves_refl |].
  case_decide; [| injection Hq as <-; apply evolves_refl].
  by eapply StartRound_evolves.
Qed.

Lemma tryCommit_total n r p :
  ∃ q, tryCommitUponSufficientPrecommits (S (S (S (S (S n))))) r p = Some q.
Proof.
  unfold tryCommitUponSufficientPrecommits.
  destruct (ProposeLogs p !! r) as [propose|]; [| by eauto].
  case_decide; [| by eauto]. apply StartRound_total.
Qed.

Lemma trySkip_total n r p :
  ∃ q, trySkipToFutureRound (S (S (S (S (S n))))) r p = Some q.
Proof.
  unfold trySkipToFutureRound.
  case_decide; [by eauto |].
  case_decide; [| by eauto]. apply StartRound_total.
Qed.

(** ** The message logs *)

Lemma insertPropose_spec m p ok p1 :
  insertPropose m p = (ok, p1) →
  if ok then
    Propose_Height m = CurrentHeight p
    ∧ ProposeLogs p !! Propose_Round m = None
    ∧ scheduler p (Propose_Height m) (Propose_Round m) = Propose_From m
    ∧ validator p (Propose_Value m) = true
    ∧ p1 = set_ProposeLogs (<[Propose_Round m := m]> (ProposeLogs p)) p
  else
    p1 = p
    ∨ ∃ old, Propose_Height m = CurrentHeight p
             ∧ ProposeLogs p !! Propose_Round m = Some old ∧ m ≠ old
             ∧ p1 = emit (CatchDoublePropose m old) p.
Proof.
  unfold insertPropose. intros Hi.
  case_decide as Hh; [by simplify_eq; left |].
  destruct (ProposeLogs p !! Propose_Round m) as [old|] eqn:Hl.
  { case_decide; simplify_eq; [right; by eauto | by left]. }
  case_decide as Hs; [by simplify_eq; left |].
  destruct (validator p (Propose_Value m)) eqn:Hv; simpl in Hi; simplify_eq;
    [done | by left].
Qed.

Lemma insertPrevote_spec m p ok p1 :
  insertPrevote m p = (ok, p1) →
  if ok then
    Prevote_Height m = CurrentHeight p
    ∧ prevotesAt p (Prevote_Round m) !! Prevote_From m = None
    ∧ p1 = set_PrevoteLogs
             (<[Prevote_Round m :=
                  <[Prevote_From m := m]> (prevotesAt p (Prevote_Round m))]>
                (PrevoteLogs p)) p
  else
    p1 = p
    ∨ ∃ old, Prevote_Height m = CurrentHeight p
             ∧ prevotesAt p (Prevote_Round m) !! Prevote_From m = Some old
             ∧ m ≠ old
             ∧ p1 = emit (CatchDoublePrevote m old) p.
Proof.
  unfold insertPrevote, prevotesAt.
  case_decide as Hh; [by intros; simplify_eq; left |].
  destruct (PrevoteLogs p !! Prevote_Round m) as [votes|] eqn:Hl;
    cbn [PrevoteLogs set_PrevoteLogs].
  - rewrite Hl. cbn [default from_option id].
    destruct (votes !! Prevote_From m) as [old|] eqn:Hv.
    + case_decide; intros; simplify_eq; [right; by eauto | by left].
    + by intros; simplify_eq.
  - rewrite lookup_insert_eq. cbn [default from_option id].
    rewrite lookup_empty. intros; simplify_eq.
    repeat split; [done |]. unfold set_PrevoteLogs; simpl.
    by rewrite insert_insert_eq.
Qed.

Lemma insertPrecommit_spec m p ok p1 :
  insertPrecommit m p = (ok, p1) →
  if ok then
    Precommit_Height m = CurrentHeight p
    ∧ precommitsAt p (Precommit_Round m) !! Precommit_From m = None
    ∧ p1 = set_PrecommitLogs
             (<[Precommit_Round m :=
                  <[Precommit_From m := m]>
                    (precommitsAt p (Precommit_Round m))]>
                (PrecommitLogs p)) p
  else
    p1 = p
    ∨ ∃ old, Precommit_Height m = CurrentHeight p
             ∧ precommitsAt p (Precommit_Round m) !! Precommit_From m
               = Some old
             ∧ m ≠ old
             ∧ p1 = emit (CatchDoublePrecommit m old) p.
Proof.
  unfold insertPrecommit, precommitsAt.
  case_decide as Hh; [by intros; simplify_eq; left |].
  destruct (PrecommitLogs p !! Precommit_Round m) as [votes|] eqn:Hl;
    cbn [PrecommitLogs set_PrecommitLogs].
  - rewrite Hl. cbn [default from_option id].
    destruct (votes !! Precommit_From m) as [old|] eqn:Hv.
    + case_decide; intros; simplify_eq; [right; by eauto | by left].
    + by intros; simplify_eq.
  - rewrite lookup_insert_eq. cbn [default from_option id].
    rewrite lookup_empty. intros; simplify_eq.
    repeat split; [done |]. unfold set_PrecommitLogs; simpl.
    by rewrite insert_insert_eq.
Qed.

(** ** What every event leaves alone *)

Lemma advances_refl p : advances p p.
Proof. split; try done. exists []. by rewrite app_nil_r. Qed.

Lemma advances_trans p q r : advances p q → advances q r → advances p r.
Proof.
  intros [? ? ? ? ? (l1 & E1 & F1)] [? ? ? ? ? (l2 & E2 & F2)].
  split; try congruence.
  exists (l1 ++ l2). split; [by rewrite E2, E1, app_assoc |].
  apply Forall_app; split; [done |].
  eapply Forall_impl; [exact F2 |]. intros e. by apply scheduled_propose_eq.
Qed.

Lemma evolves_advances p q : evolves p q → advances p q.
Proof.
  intros [? ? ? ? ? (l & E & Fl & _)]. split; try done. by exists l.
Qed.

Lemma advances_emit p e : scheduled_propose p e → advances p (emit e p).
Proof. intros He. split; try done. exists [e]. by rewrite Forall_singleton. Qed.

Lemma insertPropose_advances m p ok p1 :
  insertPropose m p = (ok, p1) → advances p p1.
Proof.
  intros Hi. apply insertPropose_spec in Hi. destruct ok.
  - destruct Hi as (_ & _ & _ & _ & ->). split; try done.
    exists []. by rewrite app_nil_r.
  - destruct Hi as [-> | (old & _ & _ & _ & ->)];
      [apply advances_refl | by apply advances_emit].
Qed.

Lemma insertPrevote_advances m p ok p1 :
  insertPrevote m p = (ok, p1) → advances p p1.
Proof.
  intros Hi. apply insertPrevote_spec in Hi. destruct ok.
  - destruct Hi as (_ & _ & ->). split; try done.
    exists []. by rewrite app_nil_r.
  - destruct Hi as [-> | (old & _ & _ & _ & ->)];
      [apply advances_refl | by apply advances_emit].
Qed.

Lemma insertPrecommit_advances m p ok p1 :
  insertPrecommit m p = (ok, p1) → advances p p1.
Proof.
  intros Hi. apply insertPrecommit_spec in Hi. destruct ok.
  - destruct Hi as (_ & _ & ->). split; try done.
    exists []. by rewrite app_nil_r.
  - destruct Hi as [-> | (old & _ & _ & _ & ->)];
      [apply advances_refl | by apply advances_emit].
Qed.

(** ** The entry points *)

Ltac evolves_tac :=
  repeat first
    [ apply evolves_refl
    | match goal with
      | H : trySkipToFutureRound _ _ ?y = Some ?x |- evolves _ ?x =>
          eapply evolves_trans; [| exact (trySkip_evolves _ _ _ _ H)]
      | H : tryCommitUponSufficientPrecommits _ _ ?y = Some ?x
        |- evolves _ ?x =>
          eapply evolves_trans; [| exact (tryCommit_evolves _ _ _ _ H)]
      | H : StartRound _ _ ?y = Some ?x |- evolves _ ?x =>
          eapply evolves_trans; [| exact (StartRound_evolves _ _ _ _ H)]
      | H : ?f ?y = Some ?x, IH : runs_in frame ?f |- evolves _ ?x =>
          eapply evolves_trans; [| exact (frame_evolves _ _ (IH _ _ H))]
      | |- evolves _ (tryTimeoutPrevoteUponSufficientPrevotes ?x) =>
          eapply evolves_trans;
            [| exact (frame_evolves _ _ (frame_tryTimeoutPrevote x))]
      | |- evolves _ (tryTimeoutPrecommitUponSufficientPrecommits ?x) =>
          eapply evolves_trans;
            [| exact (frame_evolves _ _ (frame_tryTimeoutPrecommit x))]
      end ].

Lemma Process_Propose_inv n m p q :
  Process_Propose n m p = Some q →
  ∃ ok p1, insertPropose m p = (ok, p1)
           ∧ if ok then evolves p1 q else q = p1.
Proof.
  destruct (cycle_frame n) as (IH1 & IH2 & IH3 & IH4 & IH5 & IH6).
  unfold Process_Propose.
  destruct (insertPropose m p) as [[] p1]; cbn [negb]; intros Hq;
    eexists _, p1; (split; [reflexivity |]); run_inv; [| done]. evolves_tac.
Qed.

Lemma Process_Prevote_inv n m p q :
  Process_Prevote n m p = Some q →
  ∃ ok p1, insertPrevote m p = (ok, p1)
           ∧ if ok then evolves p1 q else q = p1.
Proof.
  destruct (cycle_frame n) as (IH1 & IH2 & IH3 & IH4 & IH5 & IH6).
  unfold Process_Prevote.
  destruct (insertPrevote m p) as [[] p1]; cbn [negb]; intros Hq;
    eexists _, p1; (split; [reflexivity |]); run_inv; [| done]. evolves_tac.
Qed.

Lemma Process_Precommit_inv n m p q :
  Process_Precommit n m p = Some q →
  ∃ ok p1, insertPrecommit m p = (ok, p1)
           ∧ if ok then evolves p1 q else q = p1.
Proof.
  unfold Process_Precommit.
  destruct (insertPrecommit m p) as [[] p1]; cbn [negb]; intros Hq;
    eexists _, p1; (split; [reflexivity |]); run_inv; [| done]. evolves_tac.
Qed.

Lemma OnTimeoutPropose_evolves n h r p q :
  OnTimeoutPropose n h r p = Some q → evolves p q.
Proof.
  destruct (cycle_frame n) as (IH1 & IH2 & IH3 & IH4 & IH5 & IH6).
  unfold OnTimeoutPropose. intros Hq. run_inv; [| apply evolves_refl].
  apply frame_evolves. frame_tac.
Qed.

Lemma OnTimeoutPrevote_evolves n h r p q :
  OnTimeoutPrevote n h r p = Some q → evolves p q.
Proof.
  destruct (cycle_frame n) as (IH1 & IH2 & IH3 & IH4 & IH5 & IH6).
  unfold OnTimeoutPrevote. intros Hq. run_inv; [| apply evolves_refl].
  apply frame_evolves. frame_tac.
Qed.

Lemma OnTimeoutPrecommit_evolves n h r p q :
  OnTimeoutPrecommit n h r p = Some q → evolves p q.
Proof.
  unfold OnTimeoutPrecommit. intros Hq. run_inv; evolves_tac.
Qed.

Lemma handle_advances n ev p q : handle n ev p = Some q → advances p q.
Proof.
  destruct ev; cbn [handle]; intros Hq.
  - by eapply evolves_advances, StartRound_evolves.
  - by eapply evolves_advances, StartRound_evolves.
  - apply Process_Propose_inv in Hq as (ok & p1 & Hi & Hq).
    apply insertPropose_advances in Hi. destruct ok; [| by subst].
    eapply advances_trans; [exact Hi | by apply evolves_advances].
  - apply Process_Prevote_inv in Hq as (ok & p1 & Hi & Hq).
    apply insertPrevote_advances in Hi. destruct ok; [| by subst].
    eapply advances_trans; [exact Hi | by apply evolves_advances].
  - apply Process_Precommit_inv in Hq as (ok & p1 & Hi & Hq).
    apply insertPrecommit_advances in Hi. destruct ok; [| by subst].
    eapply advances_trans; [exact Hi | by apply evolves_advances].
  - by eapply evolves_advances, OnTimeoutPropose_evolves.
  - by eapply evolves_advances, OnTimeoutPrevote_evolves.
  - by eapply evolves_advances, OnTimeoutPrecommit_evolves.
Qed.

Lemma handle_total n ev p : ∃ q, handle (S (S (S (S (S n))))) ev p = Some q.
Proof.
  destruct ev; cbn [handle].
  - apply StartRound_total.
  - apply StartRound_total.
  - unfold Process_Propose. destruct (insertPropose _ _) as [[] p1];
      cbn [negb]; [| by eauto].
    destruct (trySkip_total n (Propose_Round propose) p1) as (q1 & ->).
    cbn [mbind option_bind].
    destruct (tryCommit_total n (Propose_Round propose) q1) as (q2 & ->).
    cbn [mbind option_bind].
    destruct (tryPrecommit_total (S (S n)) q2) as (q3 & -> & _).
    cbn [mbind option_bind].
    destruct (tryPrevoteUponPropose_total n q3) as (q4 & ->).
    cbn [mbind option_bind].
    apply tryPrevoteUponSufficientPrevotes_total.
  - unfold Process_Prevote. destruct (insertPrevote _ _) as [[] p1];
      cbn [negb]; [| by eauto].
    destruct (trySkip_total n (Prevote_Round prevote) p1) as (q1 & ->).
    cbn [mbind option_bind].
    destruct (tryPrecommit_total (S (S n)) q1) as (q2 & -> & _).
    cbn [mbind option_bind].
    destruct (tryPrecommitNil_total (S (S n)) q2) as (q3 & -> & _).
    cbn [mbind option_bind].
    destruct (tryPrevoteUponSufficientPrevotes_total n q3) as (q4 & ->).
    cbn [mbind option_bind]. eauto.
  - unfold Process_Precommit. destruct (insertPrecommit _ _) as [[] p1];
      cbn [negb]; [| by eauto].
    destruct (trySkip_total n (Precommit_Round precommit) p1) as (q1 & ->).
    cbn [mbind option_bind].
    destruct (tryCommit_total n (Precommit_Round precommit) q1) as (q2 & ->).
    cbn [mbind option_bind]. eauto.
  - unfold OnTimeoutPropose. case_decide; [| by eauto].
    match goal with |- context [stepToPrevoting _ ?x] =>
      destruct (stepToPrevoting_total (S n) x) as (q & Hq & _) end. eauto.
  - unfold OnTimeoutPrevote. case_decide; [| by eauto].
    match goal with |- context [stepToPrecommitting _ ?x] =>
      destruct (stepToPrecommitting_total (S (S (S n))) x) as (q & Hq & _)
    end. eauto.
  - unfold OnTimeoutPrecommit. case_decide; [| by eauto].
    apply StartRound_total.
Qed.

(** ** Past the Proposing step *)

Lemma tryPrevoteUponPropose_past n p q :
  tryPrevoteUponPropose n p = Some q → CurrentStep p ≠ Proposing → q = p.
Proof.
  destruct n; [done |]. simpl. intros Hq Hs.
  rewrite decide_True in Hq by done. by simplify_eq.
Qed.

Lemma tryPrevoteUponSufficientPrevotes_past n p q :
  tryPrevoteUponSufficientPrevotes n p = Some q →
  CurrentStep p ≠ Proposing → q = p.
Proof.
  destruct n; [done |]. simpl. intros Hq Hs.
  rewrite decide_True in Hq by done. by simplify_eq.
Qed.

Lemma past_refl p : CurrentStep p ≠ Proposing → past p p.
Proof. intros Hs. split; [done |]. exists []. by rewrite app_nil_r. Qed.

Lemma past_trans p q r : past p q → past q r → past p r.
Proof.
  intros (_ & l1 & E1 & F1) (Hs & l2 & E2 & F2). split; [done |].
  exists (l1 ++ l2). split; [by rewrite E2, E1, app_assoc |].
  by apply Forall_app.
Qed.

Lemma past_tryTimeoutPrevote p :
  CurrentStep p ≠ Proposing →
  past p (tryTimeoutPrevoteUponSufficientPrevotes p).
Proof.
  intros Hs. unfold tryTimeoutPrevoteUponSufficientPrevotes.
  destruct (checkOnceFlag _ _ _); [by apply past_refl |].
  case_decide; [by apply past_refl |].
  case_decide; (split; [done |]); simpl.
  - eexists [_]. split; [done |]. by apply Forall_singleton.
  - exists []. by rewrite app_nil_r.
Qed.

Lemma cycle_past n :
  (∀ p q, tryPrecommitUponSufficientPrevotes n p = Some q →
          CurrentStep p ≠ Proposing → past p q)
  ∧ (∀ p q, tryPrecommitNilUponSufficientPrevotes n p = Some q →
            CurrentStep p ≠ Proposing → past p q)
  ∧ (∀ p q, stepToPrevoting n p = Some q → 
            past (set_CurrentStep Prevoting p) q)
  ∧ (∀ p q, stepToPrecommitting n p = Some q →
            past (set_CurrentStep Precommitting p) q).
Proof.
  induction n as [|n (IH3 & IH4 & IH5 & IH6)].
  { repeat apply conj; intros p q Hq; discriminate Hq. }
  repeat apply conj; intros p q Hq; simpl in Hq.
  - intros Hs. run_inv; try (by apply past_refl).
    + apply IH6 in Hx0 as Hp. 
      apply tryPrevoteUponPropose_past in Hx; [| apply Hp]. subst x.
      apply tryPrevoteUponSufficientPrevotes_past in Hq; [| apply Hp].
      subst q.
      destruct Hp as (Hs' & l & E & Fl). split; [exact Hs' |].
      eexists (_ :: l). simpl in *. rewrite E.
      split; [by rewrite <- app_assoc |]. by constructor.
    + split; [done |]. exists []. by rewrite app_nil_r.
  - intros Hs. run_inv; try (by apply past_refl).
    apply IH6 in Hq as (Hs' & l & E & Fl). split; [exact Hs' |].
    eexists (_ :: l). simpl in *. rewrite E.
    split; [by rewrite <- app_assoc |]. by constructor.
  - run_inv. apply IH3 in Hx; [| done]. 
    apply IH4 in Hx0; [| apply Hx].
    eapply past_trans; [exact Hx |]. eapply past_trans; [exact Hx0 |].
    apply past_tryTimeoutPrevote, Hx0.
  - by apply IH3 in Hq.
Qed.

Lemma stepToPrevoting_frame n p q :
  stepToPrevoting n p = Some q → frame (set_CurrentStep Prevoting p) q.
Proof.
  destruct n; [done |].
  destruct (cycle_frame n) as (IH1 & IH2 & IH3 & IH4 & IH5 & IH6).
  rewrite stepToPrevoting_S. intros Hq. run_inv. frame_tac.
Qed.

(** ** The entry points do not depend on the depth bound *)

Ltac fuel_tac k n :=
  destruct (cycle_fuel n k) as (M1 & M2 & M3 & M4 & M5 & M6);
  repeat
    (match goal with
     | H : ?f n ?y = Some ?x |- context [?f (k + n)%nat ?y] =>
         first [ rewrite (M1 _ _ H) | rewrite (M2 _ _ H)
               | rewrite (M3 _ _ H) | rewrite (M4 _ _ H)
               | rewrite (M5 _ _ H) | rewrite (M6 _ _ H) ]
     end; cbn [mbind option_bind]).

Lemma StartRound_fuel n k r p q :
  StartRound n r p = Some q → StartRound (k + n) r p = Some q.
Proof.
  unfold StartRound. intros Hq.
  apply bind_Some in Hq as (x1 & H1 & Hq).
  apply bind_Some in Hq as (x2 & H2 & Hq).
  apply bind_Some in Hq as (x3 & H3 & Hq).
  apply bind_Some in Hq as (x4 & H4 & Hq).
  by fuel_tac k n.
Qed.

Lemma tryCommit_fuel n k r p q :
  tryCommitUponSufficientPrecommits n r p = Some q →
  tryCommitUponSufficientPrecommits (k + n) r p = Some q.
Proof.
  unfold tryCommitUponSufficientPrecommits.
  destruct (ProposeLogs p !! r); [| done].
  case_decide; [| done]. apply StartRound_fuel.
Qed.

Lemma trySkip_fuel n k r p q :
  trySkipToFutureRound n r p = Some q →
  trySkipToFutureRound (k + n) r p = Some q.
Proof.
  unfold trySkipToFutureRound.
  case_decide; [done |]. case_decide; [| done]. apply StartRound_fuel.
Qed.

Lemma handle_fuel n k ev p q :
  handle n ev p = Some q → handle (k + n) ev p = Some q.
Proof.
  destruct ev; cbn [handle].
  - apply StartRound_fuel.
  - apply StartRound_fuel.
  - unfold Process_Propose. destruct (insertPropose _ _) as [[] p1];
      cbn [negb]; [| done]. intros Hq.
    apply bind_Some in Hq as (x1 & H1 & Hq).
    apply bind_Some in Hq as (x2 & H2 & Hq).
    apply bind_Some in Hq as (x3 & H3 & Hq).
    apply bind_Some in Hq as (x4 & H4 & Hq).
    rewrite (trySkip_fuel _ _ _ _ _ H1). cbn [mbind option_bind].
    rewrite (tryCommit_fuel _ _ _ _ _ H2). cbn [mbind option_bind].
    by fuel_tac k n.
  - unfold Process_Prevote. destruct (insertPrevote _ _) as [[] p1];
      cbn [negb]; [| done]. intros Hq.
    apply bind_Some in Hq as (x1 & H1 & Hq).
    apply bind_Some in Hq as (x2 & H2 & Hq).
    apply bind_Some in Hq as (x3 & H3 & Hq).
    apply bind_Some in Hq as (x4 & H4 & Hq).
    rewrite (trySkip_fuel _ _ _ _ _ H1). cbn [mbind option_bind].
    by fuel_tac k n.
  - unfold Process_Precommit. destruct (insertPrecommit _ _) as [[] p1];
      cbn [negb]; [| done]. intros Hq.
    apply bind_Some in Hq as (x1 & H1 & Hq).
    apply bind_Some in Hq as (x2 & H2 & Hq).
    rewrite (trySkip_fuel _ _ _ _ _ H1). cbn [mbind option_bind].
    by rewrite (tryCommit_fuel _ _ _ _ _ H2).
  - unfold OnTimeoutPropose. case_decide; [| done].
    by destruct (cycle_fuel n k) as (_ & _ & _ & _ & M5 & _); apply M5.
  - unfold OnTimeoutPrevote. case_decide; [| done].
    by destruct (cycle_fuel n k) as (_ & _ & _ & _ & _ & M6); apply M6.
  - unfold OnTimeoutPrecommit. case_decide; [| done]. apply StartRound_fuel.
Qed.

(** Five nested calls are enough, and more change nothing. *)
Lemma handle_enough n ev p : handle (n + 5) ev p = handle 5 ev p.
Proof.
  destruct (handle_total 0 ev p) as (q & Hq).
  rewrite Hq. by apply handle_fuel.
Qed.

(** ** Timeouts *)

(** C9.  A timeout for another height or round than the current one, and a
    propose (prevote) timeout when the process is not in the Proposing
    (Prevoting) step, changes nothing: the process, with its record of the
    calls made on timer, broadcaster, committer and catcher, is returned as
    it was. *)
Theorem stale_timeouts_ignored n h r p :
  (h ≠ CurrentHeight p ∨ r ≠ CurrentRound p ∨ CurrentStep p ≠ Proposing →
   OnTimeoutPropose n h r p = Some p)
  ∧ (h ≠ CurrentHeight p ∨ r ≠ CurrentRound p ∨ CurrentStep p ≠ Prevoting →
     OnTimeoutPrevote n h r p = Some p)
  ∧ (h ≠ CurrentHeight p ∨ r ≠ CurrentRound p →
     OnTimeoutPrecommit n h r p = Some p).
Proof.
  unfold OnTimeoutPropose, OnTimeoutPrevote, OnTimeoutPrecommit.
  repeat split; intros Hne; case_decide; try done; tauto.
Qed.

(** ** Proposals are broadcast by the scheduled proposer only *)

(** C10.  Whatever the event and the state, the entry point returns, and
    every [Propose] that it makes the process broadcast is for a height and
    round at which the scheduler names the process itself. *)
Theorem propose_only_when_scheduled n ev p :
  ∃ q l, handle (5 + n) ev p = Some q
         ∧ calls q = calls p ++ l
         ∧ ∀ h r v vr, BroadcastPropose h r v vr ∈ l →
                       scheduler p h r = Whoami p.
Proof.
  destruct (handle_total n ev p) as (q & Hq).
  destruct (advances_calls _ _ (handle_advances _ _ _ _ Hq)) as (l & E & Fl).
  exists q, l. split; [exact Hq |]. split; [done |]. intros h r v vr Hin.
  rewrite Forall_forall in Fl. exact (Fl _ Hin).
Qed.


(** ** Counters that wrap around *)

Lemma int_wrap_succ z : incrementable z → int_wrap (z + 1) = z + 1.
Proof.
  unfold incrementable, int_wrap. intros Hz. rewrite Z.mod_small; lia.
Qed.

(** Incrementing an [int64] changes it, also when it wraps around. *)
Lemma int_wrap_succ_ne z : int_wrap (z + 1) ≠ z.
Proof.
  unfold int_wrap. intros Hz.
  pose proof (Z.div_mod (z + 1 + 2 ^ 63) (2 ^ 64)). lia.
Qed.

Implicit Types l : list (Effect (Pid:=Pid) (Value:=Value)).

(** ** Committing *)

Lemma commits_app l1 l2 : commits (l1 ++ l2) = commits l1 ++ commits l2.
Proof. apply omap_app. Qed.

Lemma commits_retry l : Forall retry_call l → commits l = [].
Proof.
  induction 1 as [|e l He _ IH]; [done |].
  change (commits (e :: l)) with (commits ([e] ++ l)).
  rewrite commits_app, IH. by destruct e.
Qed.

Lemma commits_StartRound_call r p : commits [StartRound_call r p] = [].
Proof. unfold StartRound_call. by case_decide. Qed.

Lemma quiet_refl p : quiet p p.
Proof. split; try done. exists []. by rewrite app_nil_r. Qed.

Lemma quiet_trans p q r : quiet p q → quiet q r → quiet p r.
Proof.
  intros [? ? ? ? ? (l1 & E1 & F1 & C1)] [? ? ? ? ? (l2 & E2 & F2 & C2)].
  split; try congruence. exists (l1 ++ l2).
  split; [by rewrite E2, E1, app_assoc |].
  split; [by apply Forall_app |]. by rewrite commits_app, C1, C2.
Qed.

Lemma frame_quiet p q : frame p q → quiet p q.
Proof.
  intros [? ? ? ? ? ? ? ? ? ? (l & E & Fl)]. split; try done.
  exists l. split; [done |]. split; [| by apply commits_retry].
  eapply Forall_impl; [exact Fl |]. apply retry_call_not_catch.
Qed.

Lemma StartRound_quiet n r p q : StartRound n r p = Some q → quiet p q.
Proof.
  intros Hq. apply StartRound_frame, frame_quiet in Hq.
  eapply quiet_trans; [| exact Hq]. split; try done.
  exists [StartRound_call r p]. split; [done |].
  split; [apply Forall_singleton, StartRound_call_not_catch |].
  apply commits_StartRound_call.
Qed.

Lemma trySkip_quiet n r p q : trySkipToFutureRound n r p = Some q → quiet p q.
Proof.
  unfold trySkipToFutureRound. intros Hq.
  case_decide; [injection Hq as <-; apply quiet_refl |].
  case_decide; [| injection Hq as <-; apply quiet_refl].
  by eapply StartRound_quiet.
Qed.

Lemma quiet_decides p q : quiet p q → decides p q.
Proof.
  intros [? ? ? ? ? (l & E & Fl & C)]. exists l.
  split; [done |]. split; [done |]. by left.
Qed.

Lemma decides_quiet_l p q r : quiet p q → decides q r → decides p r.
Proof.
  intros [Hh HF H1 H2 H3 (l1 & E1 & F1 & C1)] (l2 & E2 & F2 & D).
  exists (l1 ++ l2). split; [by rewrite E2, E1, app_assoc |].
  split; [by apply Forall_app |]. rewrite commits_app, C1, app_nil_l.
  destruct D as [(? & ? & ? & ? & ?) | (r0 & m & Hl & Hc & ? & ? & ? & ? & C2)].
  - left. repeat split; congruence.
  - right. exists r0, m. unfold precommitsAt in *.
    rewrite <- H1, <- H3, <- HF, <- Hh.
    by repeat split.
Qed.

Lemma decides_quiet_r p q r : decides p q → quiet q r → decides p r.
Proof.
  intros (l1 & E1 & F1 & D) [Hh HF H1 H2 H3 (l2 & E2 & F2 & C2)].
  exists (l1 ++ l2). split; [by rewrite E2, E1, app_assoc |].
  split; [by apply Forall_app |]. rewrite commits_app, C2, app_nil_r.
  destruct D as [(? & ? & ? & ? & ?) | (r0 & m & Hl & Hc & ? & ? & ? & ? & C1)].
  - left. repeat split; congruence.
  - right. exists r0, m. repeat split; congruence.
Qed.

Lemma tryCommit_decides n r p q :
  tryCommitUponSufficientPrecommits n r p = Some q → decides p q.
Proof.
  unfold tryCommitUponSufficientPrecommits. intros Hq.
  destruct (ProposeLogs p !! r) as [propose|] eqn:Hl;
    [| injection Hq as <-; apply quiet_decides, quiet_refl].
  case_decide as Hc; [| injection Hq as <-; apply quiet_decides, quiet_refl].
  apply StartRound_quiet in Hq.
  destruct Hq as [Hh HF H1 H2 H3 (l & E & Fl & C)].
  exists (Commit (CurrentHeight p) (Propose_Value propose) :: l).
  split; [rewrite E; simpl; by rewrite <- app_assoc |].
  split; [constructor; [simpl; tauto | done] |].
  right. exists r, propose. repeat split; try done.
  change (commits (?e :: l)) with (commits ([e] ++ l)).
  by rewrite commits_app, C.
Qed.

Lemma Process_Propose_decides n m p q :
  Process_Propose n m p = Some q →
  ∃ ok p1, insertPropose m p = (ok, p1)
           ∧ if ok then decides p1 q else q = p1.
Proof.
  destruct (cycle_frame n) as (IH1 & IH2 & IH3 & IH4 & IH5 & IH6).
  unfold Process_Propose.
  destruct (insertPropose m p) as [[] p1]; cbn [negb]; intros Hq;
    eexists _, p1; (split; [reflexivity |]); run_inv; [| done].
  do 3 (eapply decides_quiet_r; [| apply frame_quiet; eauto]).
  eapply decides_quiet_l; [by eapply trySkip_quiet |].
  by eapply tryCommit_decides.
Qed.

Lemma Process_Prevote_decides n m p q :
  Process_Prevote n m p = Some q →
  ∃ ok p1, insertPrevote m p = (ok, p1)
           ∧ if ok then decides p1 q else q = p1.
Proof.
  destruct (cycle_frame n) as (IH1 & IH2 & IH3 & IH4 & IH5 & IH6).
  unfold Process_Prevote.
  destruct (insertPrevote m p) as [[] p1]; cbn [negb]; intros Hq;
    eexists _, p1; (split; [reflexivity |]); run_inv; [| done].
  apply quiet_decides.
  eapply quiet_trans; [by eapply trySkip_quiet |].
  apply frame_quiet. frame_tac.
Qed.

Lemma Process_Precommit_decides n m p q :
  Process_Precommit n m p = Some q →
  ∃ ok p1, insertPrecommit m p = (ok, p1)
           ∧ if ok then decides p1 q else q = p1.
Proof.
  unfold Process_Precommit.
  destruct (insertPrecommit m p) as [[] p1]; cbn [negb]; intros Hq;
    eexists _, p1; (split; [reflexivity |]); run_inv; [| done].
  eapply decides_quiet_r; [| apply frame_quiet, frame_tryTimeoutPrecommit].
  eapply decides_quiet_l; [by eapply trySkip_quiet |].
  by eapply tryCommit_decides.
Qed.

Lemma OnTimeoutPropose_quiet n h r p q :
  OnTimeoutPropose n h r p = Some q → quiet p q.
Proof.
  destruct (cycle_frame n) as (IH1 & IH2 & IH3 & IH4 & IH5 & IH6).
  unfold OnTimeoutPropose. intros Hq. run_inv; [| apply quiet_refl].
  apply frame_quiet. frame_tac.
Qed.

Lemma OnTimeoutPrevote_quiet n h r p q :
  OnTimeoutPrevote n h r p = Some q → quiet p q.
Proof.
  destruct (cycle_frame n) as (IH1 & IH2 & IH3 & IH4 & IH5 & IH6).
  unfold OnTimeoutPrevote. intros Hq. run_inv; [| apply quiet_refl].
  apply frame_quiet. frame_tac.
Qed.

Lemma OnTimeoutPrecommit_quiet n h r p q :
  OnTimeoutPrecommit n h r p = Some q → quiet p q.
Proof.
  unfold OnTimeoutPrecommit. intros Hq. run_inv; [| apply quiet_refl].
  by eapply StartRound_quiet.
Qed.

(** With the height, the logs are kept. *)
Lemma decides_logs p q :
  decides p q → CurrentHeight q = CurrentHeight p →
  ProposeLogs q = ProposeLogs p ∧ PrevoteLogs q = PrevoteLogs p
  ∧ PrecommitLogs q = PrecommitLogs p.
Proof.
  intros (l & _ & _ & [(_ & ? & ? & ? & _) | D]) Hh; [done |].
  destruct D as (r & m & _ & _ & Hh' & _). rewrite Hh in Hh'.
  symmetry in Hh'. by apply int_wrap_succ_ne in Hh'.
Qed.

(** ** Delivering a message twice *)

Lemma set_calls_id p : set_calls (calls p ++ []) p = p.
Proof. rewrite app_nil_r. by destruct p. Qed.

Lemma insertPropose_existing m p old :
  Propose_Height m = CurrentHeight p →
  ProposeLogs p !! Propose_Round m = Some old →
  insertPropose m p
  = (false, if decide (m ≠ old) then emit (CatchDoublePropose m old) p
            else p).
Proof.
  intros Hh Hl. unfold insertPropose.
  rewrite decide_False by (by intros []). rewrite Hl. by case_decide.
Qed.

Lemma insertPrevote_existing m p old :
  Prevote_Height m = CurrentHeight p →
  prevotesAt p (Prevote_Round m) !! Prevote_From m = Some old →
  insertPrevote m p
  = (false, if decide (m ≠ old) then emit (CatchDoublePrevote m old) p
            else p).
Proof.
  intros Hh. unfold insertPrevote, prevotesAt.
  rewrite decide_False by (by intros []).
  destruct (PrevoteLogs p !! Prevote_Round m) as [votes|] eqn:Hl;
    cbn [default from_option id]; [| by rewrite lookup_empty].
  rewrite Hl. cbn [default from_option id]. intros ->. by case_decide.
Qed.

Lemma insertPrecommit_existing m p old :
  Precommit_Height m = CurrentHeight p →
  precommitsAt p (Precommit_Round m) !! Precommit_From m = Some old →
  insertPrecommit m p
  = (false, if decide (m ≠ old) then emit (CatchDoublePrecommit m old) p
            else p).
Proof.
  intros Hh. unfold insertPrecommit, precommitsAt.
  rewrite decide_False by (by intros []).
  destruct (PrecommitLogs p !! Precommit_Round m) as [votes|] eqn:Hl;
    cbn [default from_option id]; [| by rewrite lookup_empty].
  rewrite Hl. cbn [default from_option id]. intros ->. by case_decide.
Qed.

Lemma insertPropose_again m p ok p1 q :
  insertPropose m p = (ok, p1) →
  (if ok then decides p1 q else q = p1) →
  ∃ l, insertPropose m q = (false, set_calls (calls q ++ l) q)
       ∧ Forall catch_call l.
Proof.
  intros Hi Hq. pose proof (insertPropose_spec _ _ _ _ Hi) as Hs.
  destruct ok.
  - destruct Hs as (Hh & _ & _ & _ & ->).
    exists []. split; [| done]. rewrite set_calls_id.
    destruct (decide (Propose_Height m = CurrentHeight q)) as [Hh'|Hh'].
    + destruct (decides_logs _ _ Hq) as (E & _ & _); [simpl; congruence |].
      rewrite (insertPropose_existing m q m Hh').
      * by rewrite decide_False by (by intros []).
      * rewrite E. apply lookup_insert_eq.
    + unfold insertPropose. by rewrite decide_True.
  - subst q. destruct Hs as [-> | (old & Hh & Hl & Hne & ->)].
    + exists []. by rewrite set_calls_id.
    + eexists [_]. rewrite (insertPropose_existing m _ old) by done.
      rewrite decide_True by done. split; [done |].
      by apply Forall_singleton.
Qed.

Lemma insertPrevote_again m p ok p1 q :
  insertPrevote m p = (ok, p1) →
  (if ok then decides p1 q else q = p1) →
  ∃ l, insertPrevote m q = (false, set_calls (calls q ++ l) q)
       ∧ Forall catch_call l.
Proof.
  intros Hi Hq. pose proof (insertPrevote_spec _ _ _ _ Hi) as Hs.
  destruct ok.
  - destruct Hs as (Hh & _ & ->).
    exists []. split; [| done]. rewrite set_calls_id.
    destruct (decide (Prevote_Height m = CurrentHeight q)) as [Hh'|Hh'].
    + destruct (decides_logs _ _ Hq) as (_ & E & _); [simpl; congruence |].
      rewrite (insertPrevote_existing m q m Hh').
      * by rewrite decide_False by (by intros []).
      * unfold prevotesAt at 1. rewrite E. cbn [PrevoteLogs set_PrevoteLogs].
        rewrite lookup_insert_eq. apply lookup_insert_eq.
    + unfold insertPrevote. by rewrite decide_True.
  - subst q. destruct Hs as [-> | (old & Hh & Hl & Hne & ->)].
    + exists []. by rewrite set_calls_id.
    + eexists [_]. rewrite (insertPrevote_existing m _ old) by done.
      rewrite decide_True by done. split; [done |].
      by apply Forall_singleton.
Qed.

Lemma insertPrecommit_again m p ok p1 q :
  insertPrecommit m p = (ok, p1) →
  (if ok then decides p1 q else q = p1) →
  ∃ l, insertPrecommit m q = (false, set_calls (calls q ++ l) q)
       ∧ Forall catch_call l.
Proof.
  intros Hi Hq. pose proof (insertPrecommit_spec _ _ _ _ Hi) as Hs.
  destruct ok.
  - destruct Hs as (Hh & _ & ->).
    exists []. split; [| done]. rewrite set_calls_id.
    destruct (decide (Precommit_Height m = CurrentHeight q)) as [Hh'|Hh'].
    + destruct (decides_logs _ _ Hq) as (_ & _ & E); [simpl; congruence |].
      rewrite (insertPrecommit_existing m q m Hh').
      * by rewrite decide_False by (by intros []).
      * unfold precommitsAt at 1. rewrite E.
        cbn [PrecommitLogs set_PrecommitLogs].
        rewrite lookup_insert_eq. apply lookup_insert_eq.
    + unfold insertPrecommit. by rewrite decide_True.
  - subst q. destruct Hs as [-> | (old & Hh & Hl & Hne & ->)].
    + exists []. by rewrite set_calls_id.
    + eexists [_]. rewrite (insertPrecommit_existing m _ old) by done.
      rewrite decide_True by done. split; [done |].
      by apply Forall_singleton.
Qed.

Lemma outputs_set_calls p l :
  Forall catch_call l → outputs (set_calls (calls p ++ l) p) = outputs p.
Proof.
  intros Fl. unfold outputs. cbn [calls set_calls]. rewrite filter_app.
  rewrite <- (app_nil_r (filter _ (calls p))) at 2. f_equal.
  induction Fl as [|e l He _ IH]; [done |].
  rewrite filter_cons_False by tauto. exact IH.
Qed.

(** C8.  The delivery of a message returns, and delivering the message a
    second time is refused by the insertion that opens the delivery, before
    any condition is retried; the process state is the one the first
    delivery left, and no broadcast, timer request or commit is added (a
    second delivery of an equivocating message repeats the report to the
    catcher, which is none of these). *)
Theorem duplicate_delivery_dropped n n' ev p :
  is_message ev →
  ∃ q q', handle (5 + n) ev p = Some q
          ∧ handle n' ev q = Some q'
          ∧ dropped ev q
          ∧ forget_calls q' = forget_calls q
          ∧ outputs q' = outputs q.
Proof.
  intros Hm. destruct (handle_total n ev p) as (q & Hq). exists q.
  change (5 + n)%nat with (S (S (S (S (S n))))).
  destruct ev as [| | m | m | m | | |]; try done;
    cbn [handle dropped] in *.
  - apply Process_Propose_decides in Hq as Hi. destruct Hi as (ok & p1 & Hi & Hr).
    destruct (insertPropose_again _ _ _ _ _ Hi Hr) as (l & Hi' & Fl).
    unfold Process_Propose at 2. rewrite Hi'. cbn [negb fst].
    eexists; split; [done |]. split; [done |]. split; [done |].
    split; [done |]. by apply outputs_set_calls.
  - apply Process_Prevote_decides in Hq as Hi. destruct Hi as (ok & p1 & Hi & Hr).
    destruct (insertPrevote_again _ _ _ _ _ Hi Hr) as (l & Hi' & Fl).
    unfold Process_Prevote at 2. rewrite Hi'. cbn [negb fst].
    eexists; split; [done |]. split; [done |]. split; [done |].
    split; [done |]. by apply outputs_set_calls.
  - apply Process_Precommit_decides in Hq as Hi.
    destruct Hi as (ok & p1 & Hi & Hr).
    destruct (insertPrecommit_again _ _ _ _ _ Hi Hr) as (l & Hi' & Fl).
    unfold Process_Precommit at 2. rewrite Hi'. cbn [negb fst].
    eexists; split; [done |]. split; [done |]. split; [done |].
    split; [done |]. by apply outputs_set_calls.
Qed.

(** ** Lock coherence *)

Lemma Inv_set_CurrentStep s p : Inv p → Inv (set_CurrentStep s p).
Proof. by intros []. Qed.

Lemma Inv_set_CurrentRound r p : 0 <= r → Inv p → Inv (set_CurrentRound r p).
Proof. by intros ? []. Qed.

Lemma Inv_emit e p : Inv p → Inv (emit e p).
Proof. by intros []. Qed.

Lemma Inv_setOnceFlag r fl p : Inv p → Inv (setOnceFlag r fl p).
Proof. by intros []. Qed.

Lemma Inv_tryTimeoutPrevote p :
  Inv p → Inv (tryTimeoutPrevoteUponSufficientPrevotes p).
Proof.
  intros HI. unfold tryTimeoutPrevoteUponSufficientPrevotes.
  destruct (checkOnceFlag _ _ _); [done |].
  repeat case_decide; try done;
    repeat first [apply Inv_setOnceFlag | apply Inv_emit]; done.
Qed.

Lemma Inv_tryTimeoutPrecommit p :
  Inv p → Inv (tryTimeoutPrecommitUponSufficientPrecommits p).
Proof.
  intros HI. unfold tryTimeoutPrecommitUponSufficientPrecommits.
  destruct (checkOnceFlag _ _ _); [done |].
  case_decide; [| done]. by apply Inv_setOnceFlag, Inv_emit.
Qed.

Lemma Inv_lock v p :
  v ≠ NilValue → Inv p →
  Inv (set_LockedRound (CurrentRound p) (set_LockedValue v p)).
Proof.
  intros Hv [[_ Hc] Hr Hp Hn]. split; try done.
  split; [| done]. simpl. unfold InvalidRound. split; [lia | done].
Qed.

Lemma Inv_valid v p :
  v ≠ NilValue → Inv p →
  Inv (set_ValidRound (CurrentRound p) (set_ValidValue v p)).
Proof.
  intros Hv [[Hc _] Hr Hp Hn]. split; try done.
  split; [done |]. simpl. unfold InvalidRound. split; [lia | done].
Qed.

Ltac inv_tac :=
  repeat first
    [ assumption
    | match goal with
      | |- Inv (set_CurrentStep _ _) => apply Inv_set_CurrentStep
      | |- Inv (emit _ _) => apply Inv_emit
      | |- Inv (setOnceFlag _ _ _) => apply Inv_setOnceFlag
      | |- Inv (tryTimeoutPrevoteUponSufficientPrevotes _) =>
          apply Inv_tryTimeoutPrevote
      | |- Inv (tryTimeoutPrecommitUponSufficientPrecommits _) =>
          apply Inv_tryTimeoutPrecommit
      | |- Inv (set_LockedRound _ (set_LockedValue _ _)) =>
          apply Inv_lock
      | |- Inv (set_ValidRound _ (set_ValidValue _ _)) =>
          apply Inv_valid
      | H : ProposeLogs ?p !! _ = Some ?m, HI : Inv ?p
        |- Propose_Value ?m ≠ NilValue =>
          exact (Inv_proposals p HI _ _ H)
      | H : ?f ?y = Some ?x, IH : runs_in _ ?f |- Inv ?x =>
          apply (IH _ _ H)
      end ].

Lemma cycle_Inv n :
  cycle_runs_in (Pid:=Pid) (Value:=Value) (λ p q, Inv p → Inv q) n.
Proof.
  induction n as [|n (IH1 & IH2 & IH3 & IH4 & IH5 & IH6)].
  { repeat apply conj; intros p q Hq; discriminate Hq. }
  repeat apply conj; intros p q Hq HI; simpl in Hq; run_inv; inv_tac.
Qed.

Lemma StartRound_Inv n r p q :
  0 <= r → Inv p → StartRound n r p = Some q → Inv q.
Proof.
  destruct (cycle_Inv n) as (IH1 & IH2 & IH3 & IH4 & IH5 & IH6).
  intros Hr HI. unfold StartRound. intros Hq.
  assert (Inv (set_CurrentStep Proposing (set_CurrentRound r p))) as HI'
    by by apply Inv_set_CurrentStep, Inv_set_CurrentRound.
  run_inv; inv_tac.
Qed.

Lemma Inv_commit h p :
  Inv p →
  Inv (Reset (set_OnceFlags ∅ (set_PrecommitLogs ∅ (set_PrevoteLogs ∅
         (set_ProposeLogs ∅ (set_CurrentHeight h p)))))).
Proof. intros [_ Hr _ Hn]. by split. Qed.

Lemma tryCommit_Inv n r p q :
  Inv p → tryCommitUponSufficientPrecommits n r p = Some q → Inv q.
Proof.
  intros HI. unfold tryCommitUponSufficientPrecommits. intros Hq.
  run_inv; try done.
  eapply StartRound_Inv; [| | exact Hq]; [done |].
  by apply Inv_commit, Inv_emit.
Qed.

Lemma trySkip_Inv n r p q :
  Inv p → trySkipToFutureRound n r p = Some q → Inv q.
Proof.
  intros HI. unfold trySkipToFutureRound. intros Hq.
  run_inv; try done.
  eapply StartRound_Inv; [| exact HI | exact Hq].
  pose proof (Inv_round _ HI). lia.
Qed.

Lemma insertPropose_Inv m p ok p1 :
  Inv p → insertPropose m p = (ok, p1) → Inv p1.
Proof.
  intros HI Hi. apply insertPropose_spec in Hi. destruct ok.
  - destruct Hi as (_ & _ & _ & Hv & ->). destruct HI as [Hc Hr Hp Hn].
    split; try done. cbn [ProposeLogs set_ProposeLogs]. intros r m'.
    rewrite lookup_insert. case_decide; [| by apply Hp].
    intros [= <-] Hnil. congruence.
  - destruct Hi as [-> | (old & _ & _ & _ & ->)]; [done |].
    by apply Inv_emit.
Qed.

Lemma insertPrevote_Inv m p ok p1 :
  Inv p → insertPrevote m p = (ok, p1) → Inv p1.
Proof.
  intros HI Hi. apply insertPrevote_spec in Hi. destruct ok.
  - destruct Hi as (_ & _ & ->). by destruct HI.
  - destruct Hi as [-> | (old & _ & _ & _ & ->)]; [done |].
    by apply Inv_emit.
Qed.

Lemma insertPrecommit_Inv m p ok p1 :
  Inv p → insertPrecommit m p = (ok, p1) → Inv p1.
Proof.
  intros HI Hi. apply insertPrecommit_spec in Hi. destruct ok.
  - destruct Hi as (_ & _ & ->). by destruct HI.
  - destruct Hi as [-> | (old & _ & _ & _ & ->)]; [done |].
    by apply Inv_emit.
Qed.

Ltac inv_step :=
  match goal with
  | H : trySkipToFutureRound _ _ ?y = Some ?x |- Inv ?x =>
      apply (λ HI, trySkip_Inv _ _ _ _ HI H)
  | H : tryCommitUponSufficientPrecommits _ _ ?y = Some ?x |- Inv ?x =>
      apply (λ HI, tryCommit_Inv _ _ _ _ HI H)
  end.

(** Every entry point keeps lock coherence, together with what it rests on
    (see [Inv]), unless the round counter overflows. *)
Lemma handle_Inv n ev p q :
  wf_event ev → keeps_rounds ev → Inv p → handle n ev p = Some q → Inv q.
Proof.
  destruct (cycle_Inv n) as (IH1 & IH2 & IH3 & IH4 & IH5 & IH6).
  destruct ev; cbn [handle wf_event keeps_rounds]; intros Hwf Hk HI Hq.
  - by eapply (StartRound_Inv n 0).
  - by eapply StartRound_Inv.
  - unfold Process_Propose in Hq.
    destruct (insertPropose _ _) as [ok p1] eqn:Hi.
    apply (insertPropose_Inv _ _ _ _ HI) in Hi.
    destruct ok; cbn [negb] in Hq; run_inv; [| done].
    repeat first [inv_step | inv_tac].
  - unfold Process_Prevote in Hq.
    destruct (insertPrevote _ _) as [ok p1] eqn:Hi.
    apply (insertPrevote_Inv _ _ _ _ HI) in Hi.
    destruct ok; cbn [negb] in Hq; run_inv; [| done].
    repeat first [inv_step | inv_tac].
  - unfold Process_Precommit in Hq.
    destruct (insertPrecommit _ _) as [ok p1] eqn:Hi.
    apply (insertPrecommit_Inv _ _ _ _ HI) in Hi.
    destruct ok; cbn [negb] in Hq; run_inv; [| done].
    repeat first [inv_step | inv_tac].
  - unfold OnTimeoutPropose in Hq. run_inv; inv_tac; done.
  - unfold OnTimeoutPrevote in Hq. run_inv; inv_tac; done.
  - unfold OnTimeoutPrecommit in Hq.
    case_decide as Hd; [| by simplify_eq]. destruct Hd as (_ & ->).
    eapply StartRound_Inv; [| exact HI | exact Hq].
    pose proof (Inv_round _ HI).
    rewrite int_wrap_succ by (unfold incrementable; lia). lia.
Qed.

Lemma New_Inv whoami f sched prop (valid : Value → bool) :
  valid NilValue = false →
  Inv (New (Pid:=Pid) whoami f sched prop valid).
Proof. intros Hv. by split. Qed.

(** C7, as amended.  When the validator refuses the nil value, every state
    that events bring a new process to without making its round counter
    overflow (no precommit timeout is delivered for the last round,
    [2^63 - 1]) is lock coherent: the locked round is the invalid round
    exactly when the locked value is nil, and the valid round is the invalid
    round exactly when the valid value is nil.  The current round of such a
    state is not negative, the proposals it holds are not for the nil value,
    and every entry point keeps all this, as long as the event does not make
    the round counter overflow. *)
Theorem lock_coherence whoami f sched prop (valid : Value → bool) p :
  valid NilValue = false →
  reachable_in_range (New (Pid:=Pid) whoami f sched prop valid) p →
  coherent p
  ∧ 0 <= CurrentRound p
  ∧ (∀ r m, ProposeLogs p !! r = Some m → Propose_Value m ≠ NilValue)
  ∧ ∀ n ev q, wf_event ev → keeps_rounds ev → handle n ev p = Some q →
              coherent q ∧ 0 <= CurrentRound q.
Proof.
  intros Hv Hr.
  assert (Inv p) as HI.
  { induction Hr as [|p ev n q _ IH Hwf Hk Hq]; [by apply New_Inv |].
    by eapply handle_Inv. }
  split; [apply HI |]. split; [apply HI |]. split; [apply HI |].
  intros n ev q Hwf Hk Hq.
  assert (Inv q) as HI' by by eapply handle_Inv.
  split; apply HI'.
Qed.

(** ** The thresholds *)

Lemma int_wrap_small z : - 2 ^ 63 <= z < 2 ^ 63 → int_wrap z = z.
Proof.
  intros Hz. unfold int_wrap. rewrite Z.mod_small; lia.
Qed.

(** [2 * F + 1] is odd, also after overflow. *)
Lemma quorum_nonzero f : int_wrap (2 * f + 1) ≠ 0.
Proof.
  unfold int_wrap. intros Hz.
  pose proof (Z.div_mod (2 * f + 1 + 2 ^ 63) (2 ^ 64)) as Hdm.
  lia.
Qed.

Lemma checkOnceFlag_empty r fl p :
  OnceFlags p = ∅ → fl ≠ 0 → checkOnceFlag r fl p = false.
Proof.
  intros Hf Hfl. unfold checkOnceFlag. rewrite Hf, lookup_empty.
  cbn [default from_option id]. rewrite Z.land_0_l.
  by apply bool_decide_eq_false.
Qed.

Lemma OnceFlags_nonzero :
  OnceFlagTimeoutPrecommitUponSufficientPrecommits ≠ 0
  ∧ OnceFlagTimeoutPrevoteUponSufficientPrevotes ≠ 0
  ∧ OnceFlagPrecommitUponSufficientPrevotes ≠ 0.
Proof. done. Qed.

Lemma checkOnceFlag_setOnceFlag r fl p :
  checkOnceFlag r fl (setOnceFlag r fl p) = true.
Proof.
  unfold checkOnceFlag, setOnceFlag. cbn [OnceFlags set_OnceFlags].
  rewrite lookup_insert_eq. cbn [default from_option id].
  apply bool_decide_eq_true. apply Z.bits_inj'. intros k _.
  rewrite Z.land_spec, Z.lor_spec. by destruct (Z.testbit _ k), (Z.testbit fl k).
Qed.

(** *** Commit (L49) *)

Lemma timeout_prevote_proposing p :
  CurrentStep p = Proposing → tryTimeoutPrevoteUponSufficientPrevotes p = p.
Proof.
  intros Hs. unfold tryTimeoutPrevoteUponSufficientPrevotes.
  destruct (checkOnceFlag _ _ _); [done |].
  rewrite decide_True; [done |]. by rewrite Hs.
Qed.

Lemma tryPrecommit_proposing n p :
  CurrentStep p = Proposing →
  tryPrecommitUponSufficientPrevotes (S n) p = Some p.
Proof.
  intros Hs. simpl. destruct (checkOnceFlag _ _ _); [done |].
  rewrite decide_True; [done |]. rewrite Hs. simpl. lia.
Qed.

Lemma tryPrecommitNil_not_prevoting n p :
  CurrentStep p ≠ Prevoting →
  tryPrecommitNilUponSufficientPrevotes (S n) p = Some p.
Proof. intros Hs. simpl. by rewrite decide_True. Qed.

Lemma tryPrevoteUponPropose_no_proposal n p :
  ProposeLogs p !! CurrentRound p = None →
  tryPrevoteUponPropose (S n) p = Some p.
Proof. intros Hl. simpl. rewrite Hl. by case_decide. Qed.

Lemma tryPrevoteUponSufficientPrevotes_no_proposal n p :
  ProposeLogs p !! CurrentRound p = None →
  tryPrevoteUponSufficientPrevotes (S n) p = Some p.
Proof. intros Hl. simpl. rewrite Hl. by case_decide. Qed.

(** The state in which the next height starts: the commit is recorded, the
    height incremented, logs and once-flags emptied, lock and valid value
    reset, and round 0 entered in step Proposing with the first call of
    [StartRound 0]. *)
Lemma commit_upon_exact_threshold n r p propose :
  ProposeLogs p !! r = Some propose →
  countPrecommits (Propose_Value propose) (precommitsAt p r)
  = int_wrap (2 * F p + 1) →
  let committed :=
    Reset (set_OnceFlags ∅ (set_PrecommitLogs ∅ (set_PrevoteLogs ∅
      (set_ProposeLogs ∅ (set_CurrentHeight (int_wrap (CurrentHeight p + 1))
        (emit (Commit (CurrentHeight p) (Propose_Value propose)) p)))))) in
  let entered := set_CurrentStep Proposing (set_CurrentRound 0 committed) in
  tryCommitUponSufficientPrecommits (S n) r p
  = Some (emit (StartRound_call 0 committed) entered)
  ∧ StartRound (S n) 0 committed
    = Some (emit (StartRound_call 0 committed) entered).
Proof.
  intros Hl Hc committed entered.
  assert (StartRound (S n) 0 committed
          = Some (emit (StartRound_call 0 committed) entered)) as HS.
  { unfold StartRound.
    set (p1 := (if decide _ then _ else _) : Process).
    assert (p1 = emit (StartRound_call 0 committed) entered) as ->.
    { unfold p1, StartRound_call. by repeat case_decide. }
    rewrite tryPrecommit_proposing by done. cbn [mbind option_bind].
    rewrite tryPrecommitNil_not_prevoting by done. cbn [mbind option_bind].
    rewrite tryPrevoteUponPropose_no_proposal by apply lookup_empty.
    cbn [mbind option_bind].
    rewrite tryPrevoteUponSufficientPrevotes_no_proposal
      by apply lookup_empty.
    cbn [mbind option_bind].
    unfold tryTimeoutPrecommitUponSufficientPrecommits.
    rewrite checkOnceFlag_empty by done.
    rewrite decide_False; [by rewrite timeout_prevote_proposing |].
    unfold precommitsAt, len. cbn [PrecommitLogs emit set_calls entered
      committed Reset set_LockedValue set_LockedRound set_ValidValue
      set_ValidRound set_CurrentStep set_CurrentRound set_state
      set_OnceFlags set_PrecommitLogs].
    rewrite lookup_empty. cbn [default from_option id].
    rewrite map_size_empty. intros E. by apply (quorum_nonzero (F p)). }
  split; [| exact HS].
  unfold tryCommitUponSufficientPrecommits. rewrite Hl.
  by rewrite decide_True.
Qed.

(** With any other number of matching precommits, more than [2F + 1]
    included, nothing happens. *)
Lemma commit_only_at_exact_threshold n r p propose :
  ProposeLogs p !! r = Some propose →
  countPrecommits (Propose_Value propose) (precommitsAt p r)
  ≠ int_wrap (2 * F p + 1) →
  tryCommitUponSufficientPrecommits n r p = Some p.
Proof.
  intros Hl Hc. unfold tryCommitUponSufficientPrecommits. rewrite Hl.
  by rewrite decide_False.
Qed.

(** *** Skipping to a future round (L55) *)

Lemma skip_upon_exact_threshold n r p :
  CurrentRound p < r →
  (match ProposeLogs p !! r with Some _ => 1 | None => 0 end)
  + len (prevotesAt p r) + len (precommitsAt p r) = int_wrap (F p + 1) →
  trySkipToFutureRound n r p = StartRound n r p.
Proof.
  intros Hr Hc. unfold trySkipToFutureRound.
  rewrite decide_False by lia. by rewrite decide_True.
Qed.

(** With any other number of messages, more than [F + 1] included, nothing
    happens. *)
Lemma skip_only_at_exact_threshold n r p :
  (match ProposeLogs p !! r with Some _ => 1 | None => 0 end)
  + len (prevotesAt p r) + len (precommitsAt p r) ≠ int_wrap (F p + 1) →
  trySkipToFutureRound n r p = Some p.
Proof.
  intros Hc. unfold trySkipToFutureRound.
  case_decide; [done |]. by rewrite decide_False.
Qed.

(** *** The prevote timeout (L34) *)

Lemma timeout_prevote_upon_exact_threshold p :
  checkOnceFlag (CurrentRound p)
    OnceFlagTimeoutPrevoteUponSufficientPrevotes p = false →
  CurrentStep p = Prevoting →
  len (prevotesAt p (CurrentRound p)) = int_wrap (2 * F p + 1) →
  tryTimeoutPrevoteUponSufficientPrevotes p
  = setOnceFlag (CurrentRound p) OnceFlagTimeoutPrevoteUponSufficientPrevotes
      (emit (TimeoutPrevote (CurrentHeight p) (CurrentRound p)) p).
Proof.
  intros Hf Hs Hc. unfold tryTimeoutPrevoteUponSufficientPrevotes.
  rewrite Hf. rewrite decide_False by (intros Hne; by apply Hne).
  by rewrite decide_True.
Qed.

(** The request is made at most once in a round: once the flag is set the
    method does nothing. *)
Lemma timeout_prevote_once p :
  checkOnceFlag (CurrentRound p)
    OnceFlagTimeoutPrevoteUponSufficientPrevotes p = true →
  tryTimeoutPrevoteUponSufficientPrevotes p = p.
Proof.
  intros Hf. unfold tryTimeoutPrevoteUponSufficientPrevotes. by rewrite Hf.
Qed.

(** The flag is set on the first try in step Prevoting, whether or not the
    request is made. *)
Lemma timeout_prevote_flag_without_request p :
  checkOnceFlag (CurrentRound p)
    OnceFlagTimeoutPrevoteUponSufficientPrevotes p = false →
  CurrentStep p = Prevoting →
  len (prevotesAt p (CurrentRound p)) ≠ int_wrap (2 * F p + 1) →
  tryTimeoutPrevoteUponSufficientPrevotes p
  = setOnceFlag (CurrentRound p) OnceFlagTimeoutPrevoteUponSufficientPrevotes
      p.
Proof.
  intros Hf Hs Hc. unfold tryTimeoutPrevoteUponSufficientPrevotes.
  rewrite Hf. rewrite decide_False by (intros Hne; by apply Hne).
  by rewrite decide_False.
Qed.

(** *** Inserting a proposal *)

(** Without an entry for the round, the proposal is stored exactly when it
    comes from the scheduled proposer and its value is valid; otherwise the
    process is left as it was. *)
Lemma insertPropose_fresh m p :
  Propose_Height m = CurrentHeight p →
  ProposeLogs p !! Propose_Round m = None →
  insertPropose m p
  = if decide (scheduler p (Propose_Height m) (Propose_Round m)
               = Propose_From m
               ∧ validator p (Propose_Value m) = true)
    then (true,
          set_ProposeLogs (<[Propose_Round m := m]> (ProposeLogs p)) p)
    else (false, p).
Proof.
  intros Hh Hl. unfold insertPropose.
  rewrite decide_False by (intros Hne; by apply Hne). rewrite Hl.
  destruct (decide (scheduler p (Propose_Height m) (Propose_Round m)
                    ≠ Propose_From m)) as [Hs|Hs].
  { rewrite decide_False; [done | by intros [? _]]. }
  destruct (validator p (Propose_Value m)); simpl.
  - rewrite decide_True; [done |]. split; [| done].
    by destruct (decide (scheduler p (Propose_Height m) (Propose_Round m)
                         = Propose_From m)).
  - rewrite decide_False; [done | by intros [_ ?]].
Qed.

(** ** Runs *)

Lemma run_None n evs :
  foldl (λ o ev, o ≫= handle (Pid:=Pid) (Value:=Value) n ev) None evs = None.
Proof. by induction evs. Qed.

Lemma run_cons n ev evs p :
  run n (ev :: evs) p = handle n ev p ≫= run n evs.
Proof.
  unfold run. cbn [foldl mbind option_bind].
  destruct (handle n ev p); [done | apply run_None].
Qed.

Lemma run_reachable n evs p0 p q :
  Forall wf_event evs → reachable p0 p → run n evs p = Some q →
  reachable p0 q.
Proof.
  intros Hwf. revert p. induction Hwf as [|ev evs Hev _ IH]; intros p Hp.
  { intros [= <-]. exact Hp. }
  rewrite run_cons. intros Hq. apply bind_Some in Hq as (p' & Hp' & Hq).
  apply (IH p'); [| exact Hq]. by eapply reachable_step.
Qed.

Lemma run_total n evs p : ∃ q, run (S (S (S (S (S n))))) evs p = Some q.
Proof.
  revert p. induction evs as [|ev evs IH]; intros p; [by eexists |].
  rewrite run_cons. destruct (handle_total n ev p) as (q & ->). apply IH.
Qed.

Lemma run_after evs p : run 5 evs p = Some (after evs p).
Proof. unfold after. by destruct (run_total 0 evs p) as (q & ->). Qed.

Lemma reachable_after evs p : Forall wf_event evs → reachable p (after evs p).
Proof.
  intros Hwf. eapply run_reachable;
    [exact Hwf | apply reachable_init | apply run_after].
Qed.

Lemma run_reachable_in_range n evs p0 p q :
  Forall wf_event evs → Forall keeps_rounds evs →
  reachable_in_range p0 p → run n evs p = Some q →
  reachable_in_range p0 q.
Proof.
  intros Hwf. revert p.
  induction Hwf as [|ev evs Hev _ IH]; intros p Hk Hp.
  { intros [= <-]. exact Hp. }
  apply Forall_cons in Hk as [Hk Hks].
  rewrite run_cons. intros Hq. apply bind_Some in Hq as (p' & Hp' & Hq).
  apply (IH p'); [done | | exact Hq]. by eapply reachable_in_range_step.
Qed.

Lemma reachable_in_range_after evs p :
  Forall wf_event evs → Forall keeps_rounds evs →
  reachable_in_range p (after evs p).
Proof.
  intros Hwf Hk. eapply run_reachable_in_range;
    [exact Hwf | exact Hk | apply reachable_in_range_init | apply run_after].
Qed.

(** ** Skipping to a future round when the process is not started again *)

Lemma frame_msgsInRound p q r : frame p q → msgsInRound q r = msgsInRound p r.
Proof.
  intros Hf. unfold msgsInRound, prevotesAt, precommitsAt.
  by rewrite (frame_ProposeLogs _ _ Hf), (frame_PrevoteLogs _ _ Hf),
    (frame_PrecommitLogs _ _ Hf).
Qed.

Lemma frame_below p q : frame p q → below_threshold p → below_threshold q.
Proof.
  intros Hf [HF Hb]. split.
  - by rewrite (frame_F _ _ Hf).
  - intros r Hr. rewrite (frame_msgsInRound _ _ _ Hf), (frame_F _ _ Hf).
    apply Hb. by rewrite <- (frame_CurrentRound _ _ Hf).
Qed.

Lemma StartRound_below n r p q :
  0 <= F p < 2 ^ 62 →
  (∀ r', r < r' → msgsInRound p r' <= F p) →
  StartRound n r p = Some q → below_threshold q.
Proof.
  intros HF Hb Hq. apply StartRound_frame in Hq.
  eapply frame_below; [exact Hq |]. by split.
Qed.

Lemma len_insert {A} (m : gmap Pid A) k x :
  m !! k = None → len (<[k := x]> m) = len m + 1.
Proof. intros Hk. unfold len. rewrite map_size_insert_None by done. lia. Qed.

(** An accepted message adds one to the count of its round and leaves the
    other rounds alone. *)
Lemma insertPropose_msgsInRound m p p1 r :
  insertPropose m p = (true, p1) →
  msgsInRound p1 r
  = msgsInRound p r + (if decide (r = Propose_Round m) then 1 else 0).
Proof.
  intros Hi. apply insertPropose_spec in Hi as (_ & Hl & _ & _ & ->).
  unfold msgsInRound, prevotesAt, precommitsAt.
  cbn [ProposeLogs PrevoteLogs PrecommitLogs set_ProposeLogs].
  rewrite lookup_insert. destruct (decide (r = Propose_Round m)) as [->|Hne].
  - rewrite decide_True by done. rewrite Hl. lia.
  - rewrite decide_False by done. lia.
Qed.

Lemma insertPrevote_msgsInRound m p p1 r :
  insertPrevote m p = (true, p1) →
  msgsInRound p1 r
  = msgsInRound p r + (if decide (r = Prevote_Round m) then 1 else 0).
Proof.
  intros Hi. apply insertPrevote_spec in Hi as (_ & Hl & ->).
  unfold msgsInRound, prevotesAt, precommitsAt in *.
  cbn [ProposeLogs PrevoteLogs PrecommitLogs set_PrevoteLogs].
  rewrite lookup_insert. destruct (decide (r = Prevote_Round m)) as [->|Hne].
  - rewrite decide_True by done. cbn [default from_option id].
    rewrite len_insert by done. lia.
  - rewrite decide_False by done. lia.
Qed.

Lemma insertPrecommit_msgsInRound m p p1 r :
  insertPrecommit m p = (true, p1) →
  msgsInRound p1 r
  = msgsInRound p r + (if decide (r = Precommit_Round m) then 1 else 0).
Proof.
  intros Hi. apply insertPrecommit_spec in Hi as (_ & Hl & ->).
  unfold msgsInRound, prevotesAt, precommitsAt in *.
  cbn [ProposeLogs PrevoteLogs PrecommitLogs set_PrecommitLogs].
  rewrite lookup_insert.
  destruct (decide (r = Precommit_Round m)) as [->|Hne].
  - rewrite decide_True by done. cbn [default from_option id].
    rewrite len_insert by done. lia.
  - rewrite decide_False by done. lia.
Qed.

(** After an accepted message of round [r], [trySkipToFutureRound r] restores
    the bound: the count of [r] was at most [F] before, so it is at most
    [F + 1] now, and a future round that reaches [F + 1] is started. *)
Lemma trySkip_below n r p p1 q :
  below_threshold p →
  CurrentRound p1 = CurrentRound p → F p1 = F p →
  (∀ r', msgsInRound p1 r'
         = msgsInRound p r' + (if decide (r' = r) then 1 else 0)) →
  trySkipToFutureRound n r p1 = Some q →
  below_threshold q
  ∧ (CurrentRound p < r → F p + 1 <= msgsInRound p1 r →
     StartRound n r p1 = Some q).
Proof.
  intros [HF Hb] Hr HFeq Hc. unfold trySkipToFutureRound.
  fold (msgsInRound p1 r). rewrite HFeq, int_wrap_small by lia.
  destruct (decide (r <= CurrentRound p1)) as [Hle|Hgt].
  { intros [= <-]. split; [| lia]. split; [lia |].
    intros r' Hr'. rewrite Hc, HFeq. rewrite decide_False by lia.
    specialize (Hb r'). lia. }
  assert (msgsInRound p r <= F p) as Hbr by (apply Hb; lia).
  pose proof (Hc r) as Hcr. rewrite decide_True in Hcr by done.
  case_decide as Hd.
  - intros Hq. split; [| done].
    eapply StartRound_below; [| | exact Hq]; [lia |].
    intros r' Hr'. rewrite Hc, HFeq. rewrite decide_False by lia.
    specialize (Hb r'). lia.
  - intros [= <-]. split; [| lia]. split; [lia |].
    intros r' Hr'. rewrite Hc, HFeq. specialize (Hb r').
    case_decide; [subst r' |]; lia.
Qed.

Lemma tryCommit_below n r p q :
  below_threshold p →
  tryCommitUponSufficientPrecommits n r p = Some q → below_threshold q.
Proof.
  intros Hb. unfold tryCommitUponSufficientPrecommits. intros Hq.
  run_inv; try done. destruct Hb as [HF _].
  eapply StartRound_below; [| | exact Hq]; [done |].
  intros r' _. unfold msgsInRound, prevotesAt, precommitsAt, len. simpl.
  rewrite !lookup_empty. simpl. rewrite !map_size_empty. lia.
Qed.

Lemma below_emit e p : below_threshold p → below_threshold (emit e p).
Proof. by intros []. Qed.

Ltac below_tac :=
  repeat first
    [ assumption
    | match goal with
      | |- below_threshold (emit _ _) => apply below_emit
      | |- below_threshold (tryTimeoutPrevoteUponSufficientPrevotes ?x) =>
          apply (frame_below _ _ (frame_tryTimeoutPrevote x))
      | |- below_threshold (tryTimeoutPrecommitUponSufficientPrecommits ?x) =>
          apply (frame_below _ _ (frame_tryTimeoutPrecommit x))
      | H : tryCommitUponSufficientPrecommits _ _ ?y = Some ?x
        |- below_threshold ?x =>
          apply (λ Hb, tryCommit_below _ _ _ _ Hb H)
      | H : ?f ?y = Some ?x, IH : runs_in frame ?f |- below_threshold ?x =>
          apply (frame_below _ _ (IH _ _ H))
      end ].

(** As long as the process is not taken back to an earlier round (by
    starting it again, or by the round counter wrapping around), no future
    round holds more than [F] messages between two events. *)
Lemma handle_below n ev p q :
  below_threshold p → no_restart ev p → handle n ev p = Some q →
  below_threshold q.
Proof.
  destruct (cycle_frame n) as (IH1 & IH2 & IH3 & IH4 & IH5 & IH6).
  intros Hb Hnr. pose proof Hb as [HF Hfut].
  destruct ev; cbn [handle no_restart] in *; intros Hq.
  - apply (StartRound_below _ _ _ _ HF) in Hq; [done |].
    intros r' Hr'. apply Hfut. lia.
  - apply (StartRound_below _ _ _ _ HF) in Hq; [done |].
    intros r' Hr'. apply Hfut. lia.
  - unfold Process_Propose in Hq.
    destruct (insertPropose _ _) as [[] p1] eqn:Hi; cbn [negb] in Hq.
    + pose proof (insertPropose_spec _ _ _ _ Hi) as (_ & _ & _ & _ & E).
      apply bind_Some in Hq as (x1 & H1 & Hq).
      apply (trySkip_below _ _ p) in H1 as [H1 _];
        [| done | by subst p1 | by subst p1
         | intros r'; apply (insertPropose_msgsInRound _ _ _ _ Hi)].
      run_inv. below_tac.
    + apply insertPropose_spec in Hi as [-> | (old & _ & _ & _ & ->)];
        run_inv; below_tac.
  - unfold Process_Prevote in Hq.
    destruct (insertPrevote _ _) as [[] p1] eqn:Hi; cbn [negb] in Hq.
    + pose proof (insertPrevote_spec _ _ _ _ Hi) as (_ & _ & E).
      apply bind_Some in Hq as (x1 & H1 & Hq).
      apply (trySkip_below _ _ p) in H1 as [H1 _];
        [| done | by subst p1 | by subst p1
         | intros r'; apply (insertPrevote_msgsInRound _ _ _ _ Hi)].
      run_inv. below_tac.
    + apply insertPrevote_spec in Hi as [-> | (old & _ & _ & _ & ->)];
        run_inv; below_tac.
  - unfold Process_Precommit in Hq.
    destruct (insertPrecommit _ _) as [[] p1] eqn:Hi; cbn [negb] in Hq.
    + pose proof (insertPrecommit_spec _ _ _ _ Hi) as (_ & _ & E).
      apply bind_Some in Hq as (x1 & H1 & Hq).
      apply (trySkip_below _ _ p) in H1 as [H1 _];
        [| done | by subst p1 | by subst p1
         | intros r'; apply (insertPrecommit_msgsInRound _ _ _ _ Hi)].
      run_inv. below_tac.
    + apply insertPrecommit_spec in Hi as [-> | (old & _ & _ & _ & ->)];
        run_inv; below_tac.
  - unfold OnTimeoutPropose in Hq. run_inv; below_tac.
  - unfold OnTimeoutPrevote in Hq. run_inv; below_tac.
  - unfold OnTimeoutPrecommit in Hq.
    case_decide as Hd; [| by simplify_eq]. destruct Hd as (_ & ->).
    rewrite int_wrap_succ in Hq by done.
    apply (StartRound_below _ _ _ _ HF) in Hq; [done |].
    intros r' Hr'. apply Hfut. lia.
Qed.

Lemma New_below whoami f sched prop (valid : Value → bool) :
  0 <= f < 2 ^ 62 →
  below_threshold (New (Pid:=Pid) whoami f sched prop valid).
Proof.
  intros Hf. split; [done |]. intros r _.
  unfold msgsInRound, prevotesAt, precommitsAt, len. simpl.
  rewrite !lookup_empty. simpl. rewrite !map_size_empty. simpl in *. lia.
Qed.

(** What L55 asks for holds as long as the process is not started again:
    when an accepted message brings the count of a future round to [F + 1]
    or more, it brings it to [F + 1] exactly, and [trySkipToFutureRound]
    starts that round. *)
Lemma skip_when_not_restarted n r p p1 :
  below_threshold p →
  CurrentRound p1 = CurrentRound p → F p1 = F p →
  msgsInRound p1 r = msgsInRound p r + 1 →
  CurrentRound p < r →
  F p + 1 <= msgsInRound p1 r →
  trySkipToFutureRound n r p1 = StartRound n r p1.
Proof.
  intros [HF Hb] Hr HFeq Hc Hlt Hge.
  apply skip_upon_exact_threshold; [lia |].
  fold (msgsInRound p1 r). rewrite HFeq, int_wrap_small by lia.
  specialize (Hb r Hlt). lia.
Qed.

(** * Further properties of the entry points *)

(** ** Messages of another height *)

(** X1.  A proposal, prevote or precommit whose height is not the current
    height of the process is ignored: the entry point returns the process as
    it was, whatever the depth bound.  (The component that drives the process
    has to keep the messages of later heights.) *)
Theorem other_height_ignored n ev p h :
  message_height ev = Some h → h ≠ CurrentHeight p → handle n ev p = Some p.
Proof.
  destruct ev; try done; cbn [message_height handle]; intros [= <-] Hh.
  - unfold Process_Propose, insertPropose. by rewrite decide_True.
  - unfold Process_Prevote, insertPrevote. by rewrite decide_True.
  - unfold Process_Precommit, insertPrecommit. by rewrite decide_True.
Qed.

(** ** Inserting and looking up *)

Lemma prevotesAt_insert p r votes r' :
  prevotesAt (set_PrevoteLogs (<[r := votes]> (PrevoteLogs p)) p) r'
  = if decide (r' = r) then votes else prevotesAt p r'.
Proof.
  unfold prevotesAt. cbn [PrevoteLogs set_PrevoteLogs].
  case_decide as Hr; [subst; by rewrite lookup_insert_eq |].
  by rewrite lookup_insert_ne.
Qed.

Lemma precommitsAt_insert p r votes r' :
  precommitsAt (set_PrecommitLogs (<[r := votes]> (PrecommitLogs p)) p) r'
  = if decide (r' = r) then votes else precommitsAt p r'.
Proof.
  unfold precommitsAt. cbn [PrecommitLogs set_PrecommitLogs].
  case_decide as Hr; [subst; by rewrite lookup_insert_eq |].
  by rewrite lookup_insert_ne.
Qed.

Lemma insertPrevote_fresh m p :
  Prevote_Height m = CurrentHeight p →
  prevotesAt p (Prevote_Round m) !! Prevote_From m = None →
  insertPrevote m p
  = (true,
     set_PrevoteLogs
       (<[Prevote_Round m :=
            <[Prevote_From m := m]> (prevotesAt p (Prevote_Round m))]>
          (PrevoteLogs p)) p).
Proof.
  intros Hh Hl.
  destruct (insertPrevote m p) as [ok p1] eqn:Hi.
  pose proof (insertPrevote_spec _ _ _ _ Hi) as Hs. destruct ok.
  - by destruct Hs as (_ & _ & ->).
  - exfalso. revert Hi. unfold insertPrevote, prevotesAt in *.
    rewrite decide_False by (by intros []).
    destruct (PrevoteLogs p !! Prevote_Round m) as [votes|] eqn:E;
      cbn [PrevoteLogs set_PrevoteLogs default from_option id] in *.
    + rewrite E. cbn [default from_option id]. by rewrite Hl.
    + rewrite lookup_insert_eq. cbn [default from_option id].
      by rewrite lookup_empty.
Qed.

Lemma insertPrecommit_fresh m p :
  Precommit_Height m = CurrentHeight p →
  precommitsAt p (Precommit_Round m) !! Precommit_From m = None →
  insertPrecommit m p
  = (true,
     set_PrecommitLogs
       (<[Precommit_Round m :=
            <[Precommit_From m := m]> (precommitsAt p (Precommit_Round m))]>
          (PrecommitLogs p)) p).
Proof.
  intros Hh Hl.
  destruct (insertPrecommit m p) as [ok p1] eqn:Hi.
  pose proof (insertPrecommit_spec _ _ _ _ Hi) as Hs. destruct ok.
  - by destruct Hs as (_ & _ & ->).
  - exfalso. revert Hi. unfold insertPrecommit, precommitsAt in *.
    rewrite decide_False by (by intros []).
    destruct (PrecommitLogs p !! Precommit_Round m) as [votes|] eqn:E;
      cbn [PrecommitLogs set_PrecommitLogs default from_option id] in *.
    + rewrite E. cbn [default from_option id]. by rewrite Hl.
    + rewrite lookup_insert_eq. cbn [default from_option id].
      by rewrite lookup_empty.
Qed.

Lemma insertPrevote_stores m p :
  Prevote_Height m = CurrentHeight p →
  prevotesAt p (Prevote_Round m) !! Prevote_From m = None →
  ∃ q, insertPrevote m p = (true, q)
       ∧ prevotesAt q (Prevote_Round m) !! Prevote_From m = Some m
       ∧ (∀ r from, (r, from) ≠ (Prevote_Round m, Prevote_From m) →
                    prevotesAt q r !! from = prevotesAt p r !! from)
       ∧ len (prevotesAt q (Prevote_Round m))
         = len (prevotesAt p (Prevote_Round m)) + 1
       ∧ calls q = calls p ∧ state q = state p
       ∧ ProposeLogs q = ProposeLogs p
       ∧ PrecommitLogs q = PrecommitLogs p
       ∧ OnceFlags q = OnceFlags p.
Proof.
  intros Hh Hl. eexists. split; [by apply insertPrevote_fresh |].
  rewrite !prevotesAt_insert. rewrite decide_True by done.
  split; [by rewrite lookup_insert_eq |]. split.
  - intros r from Hne. rewrite prevotesAt_insert.
    case_decide as Hr; [| done]. subst r.
    rewrite lookup_insert_ne; [done | congruence].
  - split; [by apply len_insert | done].
Qed.

Lemma insertPrecommit_stores m p :
  Precommit_Height m = CurrentHeight p →
  precommitsAt p (Precommit_Round m) !! Precommit_From m = None →
  ∃ q, insertPrecommit m p = (true, q)
       ∧ precommitsAt q (Precommit_Round m) !! Precommit_From m = Some m
       ∧ (∀ r from, (r, from) ≠ (Precommit_Round m, Precommit_From m) →
                    precommitsAt q r !! from = precommitsAt p r !! from)
       ∧ len (precommitsAt q (Precommit_Round m))
         = len (precommitsAt p (Precommit_Round m)) + 1
       ∧ calls q = calls p ∧ state q = state p
       ∧ ProposeLogs q = ProposeLogs p
       ∧ PrevoteLogs q = PrevoteLogs p
       ∧ OnceFlags q = OnceFlags p.
Proof.
  intros Hh Hl. eexists. split; [by apply insertPrecommit_fresh |].
  rewrite !precommitsAt_insert. rewrite decide_True by done.
  split; [by rewrite lookup_insert_eq |]. split.
  - intros r from Hne. rewrite precommitsAt_insert.
    case_decide as Hr; [| done]. subst r.
    rewrite lookup_insert_ne; [done | congruence].
  - split; [by apply len_insert | done].
Qed.

(** X2.  The first prevote (precommit) of a sender for a round of the
    current height is accepted and can be looked up under its round and
    sender afterwards; the log of the round grows by one, every other entry
    of that log reads as before, and nothing else changes: no call is made,
    and the state, the other logs and the once-flags are the same. *)
Theorem first_vote_stored p :
  (∀ m, Prevote_Height m = CurrentHeight p →
        prevotesAt p (Prevote_Round m) !! Prevote_From m = None →
        ∃ q, insertPrevote m p = (true, q)
             ∧ prevotesAt q (Prevote_Round m) !! Prevote_From m = Some m
             ∧ (∀ r from, (r, from) ≠ (Prevote_Round m, Prevote_From m) →
                          prevotesAt q r !! from = prevotesAt p r !! from)
             ∧ len (prevotesAt q (Prevote_Round m))
               = len (prevotesAt p (Prevote_Round m)) + 1
             ∧ calls q = calls p ∧ state q = state p
             ∧ ProposeLogs q = ProposeLogs p
             ∧ PrecommitLogs q = PrecommitLogs p
             ∧ OnceFlags q = OnceFlags p)
  ∧ (∀ m, Precommit_Height m = CurrentHeight p →
          precommitsAt p (Precommit_Round m) !! Precommit_From m = None →
          ∃ q, insertPrecommit m p = (true, q)
               ∧ precommitsAt q (Precommit_Round m) !! Precommit_From m
                 = Some m
               ∧ (∀ r from,
                    (r, from) ≠ (Precommit_Round m, Precommit_From m) →
                    precommitsAt q r !! from = precommitsAt p r !! from)
               ∧ len (precommitsAt q (Precommit_Round m))
                 = len (precommitsAt p (Precommit_Round m)) + 1
               ∧ calls q = calls p ∧ state q = state p
               ∧ ProposeLogs q = ProposeLogs p
               ∧ PrevoteLogs q = PrevoteLogs p
               ∧ OnceFlags q = OnceFlags p).
Proof.
  split; intros m Hh Hl;
    [by apply insertPrevote_stores | by apply insertPrecommit_stores].
Qed.

(** X3.  A proposal is accepted exactly when it is of the current height,
    no proposal is logged for its round, its sender is the proposer that the
    scheduler names for its height and round, and the validator accepts its
    value; an accepted proposal is found under its round afterwards, and a
    refused one leaves the proposal log as it was. *)
Theorem insertPropose_accepts m p :
  ((insertPropose m p).1 = true
   ↔ Propose_Height m = CurrentHeight p
     ∧ ProposeLogs p !! Propose_Round m = None
     ∧ scheduler p (Propose_Height m) (Propose_Round m) = Propose_From m
     ∧ validator p (Propose_Value m) = true)
  ∧ ((insertPropose m p).1 = true →
     ProposeLogs (insertPropose m p).2 !! Propose_Round m = Some m)
  ∧ ((insertPropose m p).1 = false →
     ProposeLogs (insertPropose m p).2 = ProposeLogs p).
Proof.
  destruct (insertPropose m p) as [ok p1] eqn:Hi.
  pose proof (insertPropose_spec _ _ _ _ Hi) as Hs. cbn [fst snd].
  destruct ok.
  - destruct Hs as (H1 & H2 & H3 & H4 & ->).
    split; [by split |]. split; [| done]. intros _.
    cbn [ProposeLogs set_ProposeLogs]. apply lookup_insert_eq.
  - split; [| split; [done |]].
    + split; [done |]. intros (H1 & H2 & H3 & H4).
      rewrite insertPropose_fresh in Hi by done.
      rewrite decide_True in Hi by done. by simplify_eq.
    + intros _. by destruct Hs as [-> | (old & _ & _ & _ & ->)].
Qed.

(** X4.  A prevote (precommit) of the current height from a sender whose
    prevote (precommit) for that round is already logged changes nothing when
    it equals the logged one; when it differs, the two are reported to the
    catcher, new one first, and that is all: the logged vote stays, and no
    condition is tried. *)
Theorem second_vote_reported n p :
  (∀ m old,
     Prevote_Height m = CurrentHeight p →
     prevotesAt p (Prevote_Round m) !! Prevote_From m = Some old →
     Process_Prevote n m p
     = Some (if decide (m = old) then p
             else emit (CatchDoublePrevote m old) p))
  ∧ (∀ m old,
       Precommit_Height m = CurrentHeight p →
       precommitsAt p (Precommit_Round m) !! Precommit_From m = Some old →
       Process_Precommit n m p
       = Some (if decide (m = old) then p
               else emit (CatchDoublePrecommit m old) p)).
Proof.
  split; intros m old Hh Hl.
  - unfold Process_Prevote.
    rewrite (insertPrevote_existing m p old Hh Hl). cbn [negb].
    by repeat case_decide.
  - unfold Process_Precommit.
    rewrite (insertPrecommit_existing m p old Hh Hl). cbn [negb].
    by repeat case_decide.
Qed.

(** * Further properties of the condition methods *)

(** ** The once-flags *)

Lemma checkOnceFlag_setOnceFlag_other r fl r' fl' p :
  r ≠ r' ∨ Z.land fl fl' = 0 →
  checkOnceFlag r' fl' (setOnceFlag r fl p) = checkOnceFlag r' fl' p.
Proof.
  intros Hne. unfold checkOnceFlag, setOnceFlag.
  cbn [OnceFlags set_OnceFlags].
  destruct (decide (r = r')) as [<- | Hr]; [| by rewrite lookup_insert_ne].
  destruct Hne as [? | Hfl]; [done |].
  rewrite lookup_insert_eq. cbn [default from_option id].
  by rewrite Z.land_lor_distr_l, Hfl, Z.lor_0_r.
Qed.

Lemma checkOnceFlag_setOnceFlag_mono r fl r' fl' p :
  checkOnceFlag r' fl' p = true →
  checkOnceFlag r' fl' (setOnceFlag r fl p) = true.
Proof.
  unfold checkOnceFlag, setOnceFlag. cbn [OnceFlags set_OnceFlags].
  destruct (decide (r = r')) as [<- | Hr]; [| by rewrite lookup_insert_ne].
  rewrite lookup_insert_eq. cbn [default from_option id].
  rewrite !bool_decide_eq_true. intros E.
  rewrite Z.land_lor_distr_l, E. apply Z.bits_inj'. intros k _.
  rewrite Z.lor_spec, Z.land_spec.
  by destruct (Z.testbit fl' k), (Z.testbit fl k).
Qed.

(** X5.  The three once-flags are independent bits, kept per round: setting
    one of them for a round makes its own check for that round succeed and
    leaves the check of every other flag, and of every flag for another
    round, as it was. *)
Theorem once_flags_independent r fl r' fl' p :
  fl ∈ once_flags → fl' ∈ once_flags →
  checkOnceFlag r' fl' (setOnceFlag r fl p)
  = if decide (r' = r ∧ fl' = fl) then true else checkOnceFlag r' fl' p.
Proof.
  intros Hfl Hfl'. case_decide as Hd.
  - destruct Hd as [-> ->]. apply checkOnceFlag_setOnceFlag.
  - apply checkOnceFlag_setOnceFlag_other.
    destruct (decide (r = r')) as [<- | Hr]; [right | by left].
    unfold once_flags in *.
    repeat (apply elem_of_cons in Hfl as [-> | Hfl]);
      repeat (apply elem_of_cons in Hfl' as [-> | Hfl']);
      try (by apply elem_of_nil in Hfl);
      try (by apply elem_of_nil in Hfl');
      try reflexivity; exfalso; by apply Hd.
Qed.

(** ** The timeout requests (L34, L47) *)

(** X6.  Trying to schedule the precommit timeout twice is the same as
    trying once: the timeout of the current height and round is requested
    when the flag of the round is not set and the round has exactly [2F + 1]
    precommits, and the flag that is set with the request makes the second
    try return at once.  Apart from this one call and the flag, the process
    is as before. *)
Theorem timeout_precommit_idempotent p :
  let q := tryTimeoutPrecommitUponSufficientPrecommits p in
  tryTimeoutPrecommitUponSufficientPrecommits q = q
  ∧ frame p q
  ∧ state q = state p
  ∧ (calls q = calls p
     ∨ calls q
       = calls p ++ [TimeoutPrecommit (CurrentHeight p) (CurrentRound p)]
       ∧ checkOnceFlag (CurrentRound p)
           OnceFlagTimeoutPrecommitUponSufficientPrecommits p = false
       ∧ checkOnceFlag (CurrentRound p)
           OnceFlagTimeoutPrecommitUponSufficientPrecommits q = true
       ∧ len (precommitsAt p (CurrentRound p)) = int_wrap (2 * F p + 1)).
Proof.
  intros q. split; [| split; [apply frame_tryTimeoutPrecommit |]].
  - unfold q, tryTimeoutPrecommitUponSufficientPrecommits.
    destruct (checkOnceFlag _ _ p) eqn:Hf; [by rewrite Hf |].
    case_decide as Hl.
    + match goal with |- context [checkOnceFlag ?r ?fl (setOnceFlag ?r' ?fl ?x)] =>
        change r with r'; rewrite (checkOnceFlag_setOnceFlag r' fl x) end.
      done.
    + rewrite Hf. by rewrite decide_False.
  - unfold q, tryTimeoutPrecommitUponSufficientPrecommits.
    destruct (checkOnceFlag _ _ p) eqn:Hf; [by auto |].
    case_decide as Hl; [| by auto]. split; [done |]. right.
    split; [done |]. split; [done |]. split; [| done].
    apply checkOnceFlag_setOnceFlag.
Qed.

(** X7.  Trying to schedule the prevote timeout twice is the same as trying
    once.  The first try in step Prevoting sets the flag of the round, and
    requests the timeout of the current height and round only if the round
    has exactly [2F + 1] prevotes at that moment; outside step Prevoting, or
    with the flag set, nothing changes. *)
Theorem timeout_prevote_idempotent p :
  let q := tryTimeoutPrevoteUponSufficientPrevotes p in
  tryTimeoutPrevoteUponSufficientPrevotes q = q
  ∧ frame p q
  ∧ state q = state p
  ∧ (CurrentStep p = Prevoting →
     checkOnceFlag (CurrentRound p)
       OnceFlagTimeoutPrevoteUponSufficientPrevotes q = true)
  ∧ (calls q = calls p
     ∨ calls q
       = calls p ++ [TimeoutPrevote (CurrentHeight p) (CurrentRound p)]
       ∧ CurrentStep p = Prevoting
       ∧ checkOnceFlag (CurrentRound p)
           OnceFlagTimeoutPrevoteUponSufficientPrevotes p = false
       ∧ len (prevotesAt p (CurrentRound p)) = int_wrap (2 * F p + 1)).
Proof.
  intros q. split; [| split; [apply frame_tryTimeoutPrevote |]].
  - destruct (checkOnceFlag (CurrentRound p)
                OnceFlagTimeoutPrevoteUponSufficientPrevotes p) eqn:Hf.
    { unfold q. rewrite (timeout_prevote_once p Hf).
      by apply timeout_prevote_once. }
    destruct (decide (CurrentStep p = Prevoting)) as [Hs | Hs].
    + apply timeout_prevote_once.
      unfold q, tryTimeoutPrevoteUponSufficientPrevotes.
      rewrite Hf. rewrite decide_False by (by intros ?).
      apply checkOnceFlag_setOnceFlag.
    + assert (tryTimeoutPrevoteUponSufficientPrevotes p = p) as E.
      { unfold tryTimeoutPrevoteUponSufficientPrevotes.
        rewrite Hf. by rewrite decide_True. }
      unfold q. by rewrite !E.
  - unfold q, tryTimeoutPrevoteUponSufficientPrevotes.
    destruct (checkOnceFlag _ _ p) eqn:Hf; [by auto |].
    case_decide as Hs; [by auto |].
    case_decide as Hl.
    + split; [done |]. split; [intros _; apply checkOnceFlag_setOnceFlag |].
      right. done.
    + split; [done |]. split; [intros _; apply checkOnceFlag_setOnceFlag |].
      by left.
Qed.

(** ** Precommitting upon a polka (L36) *)

Lemma bind_Some_eq {A B} (f : A → option B) x : Some x ≫= f = f x.
Proof. reflexivity. Qed.

Lemma tryPrecommitUponSufficientPrevotes_S n p :
  tryPrecommitUponSufficientPrevotes (S n) p
  = if checkOnceFlag (CurrentRound p)
         OnceFlagPrecommitUponSufficientPrevotes p then Some p else
    if decide (Step_rank (CurrentStep p) < Step_rank Prevoting)
    then Some p else
    match ProposeLogs p !! CurrentRound p with
    | None => Some p
    | Some propose =>
      if decide (countPrevotes (Propose_Value propose)
                   (prevotesAt p (CurrentRound p))
                 < int_wrap (2 * F p + 1))
      then Some p else
      '(p, retry) ←
        (if decide (CurrentStep p = Prevoting) then
           p ← stepToPrecommitting n (locked (Propose_Value propose) p);
           Some (p, true)
         else Some (p, false));
      if retry : bool then
        p ← tryPrevoteUponPropose n (validated (Propose_Value propose) p);
        tryPrevoteUponSufficientPrevotes n p
      else Some (validated (Propose_Value propose) p)
    end.
Proof. reflexivity. Qed.

Lemma checkOnceFlag_validated v p :
  checkOnceFlag (CurrentRound (validated v p))
    OnceFlagPrecommitUponSufficientPrevotes (validated v p) = true.
Proof. apply checkOnceFlag_setOnceFlag. Qed.

Lemma tryPrecommit_precommitting n p propose :
  checkOnceFlag (CurrentRound p) OnceFlagPrecommitUponSufficientPrevotes p
  = false →
  CurrentStep p = Precommitting →
  ProposeLogs p !! CurrentRound p = Some propose →
  int_wrap (2 * F p + 1)
  <= countPrevotes (Propose_Value propose) (prevotesAt p (CurrentRound p)) →
  tryPrecommitUponSufficientPrevotes (S n) p
  = Some (validated (Propose_Value propose) p).
Proof.
  intros Hf Hs Hl Hc. rewrite tryPrecommitUponSufficientPrevotes_S.
  rewrite Hf. rewrite decide_False by (rewrite Hs; simpl; lia).
  rewrite Hl. rewrite decide_False by lia.
  rewrite decide_False by congruence. done.
Qed.

Lemma tryPrecommit_prevoting n p propose :
  checkOnceFlag (CurrentRound p) OnceFlagPrecommitUponSufficientPrevotes p
  = false →
  CurrentStep p = Prevoting →
  ProposeLogs p !! CurrentRound p = Some propose →
  int_wrap (2 * F p + 1)
  <= countPrevotes (Propose_Value propose) (prevotesAt p (CurrentRound p)) →
  let v := Propose_Value propose in
  tryPrecommitUponSufficientPrevotes (S (S (S n))) p
  = Some (validated v (validated v
            (set_CurrentStep Precommitting (locked v p)))).
Proof.
  intros Hf Hs Hl Hc v.
  rewrite tryPrecommitUponSufficientPrevotes_S.
  rewrite Hf. rewrite decide_False by (rewrite Hs; simpl; lia).
  rewrite Hl. rewrite decide_False by lia.
  rewrite decide_True by done.
  rewrite stepToPrecommitting_S.
  rewrite (tryPrecommit_precommitting n _ propose); [| done ..].
  rewrite !bind_Some_eq. cbv beta iota.
  rewrite tryPrevoteUponPropose_not_proposing by done.
  rewrite bind_Some_eq.
  by rewrite tryPrevoteUponSufficientPrevotes_not_proposing.
Qed.

(** X8.  In step Prevoting, with the once-flag of the round not set, a
    proposal logged for the current round and at least [2F + 1] prevotes of
    the round for its value, the process locks on the value at the current
    round, broadcasts one precommit for it, records it as its valid value,
    and steps to Precommitting; the once-flag is set, so that trying the rule
    again changes nothing.  Logs, height and round are untouched. *)
Theorem precommit_upon_polka n p propose :
  checkOnceFlag (CurrentRound p) OnceFlagPrecommitUponSufficientPrevotes p
  = false →
  CurrentStep p = Prevoting →
  ProposeLogs p !! CurrentRound p = Some propose →
  int_wrap (2 * F p + 1)
  <= countPrevotes (Propose_Value propose) (prevotesAt p (CurrentRound p)) →
  ∃ q, tryPrecommitUponSufficientPrevotes (3 + n) p = Some q
       ∧ LockedValue q = Propose_Value propose
       ∧ LockedRound q = CurrentRound p
       ∧ ValidValue q = Propose_Value propose
       ∧ ValidRound q = CurrentRound p
       ∧ CurrentStep q = Precommitting
       ∧ calls q
         = calls p ++ [BroadcastPrecommit (CurrentHeight p) (CurrentRound p)
                         (Propose_Value propose)]
       ∧ frame p q
       ∧ tryPrecommitUponSufficientPrevotes (3 + n) q = Some q.
Proof.
  intros Hf Hs Hl Hc. eexists.
  split; [by apply tryPrecommit_prevoting |].
  repeat (split; [done |]). split.
  - unfold validated, locked. unfold_setters. frame_tac.
  - change (3 + n)%nat with (S (S (S n))).
    rewrite tryPrecommitUponSufficientPrevotes_S.
    by rewrite checkOnceFlag_validated.
Qed.

(** X9.  When the polka is seen in step Precommitting (the process has
    precommitted in this round already), only the valid value and the valid
    round are updated, and the once-flag is set: no precommit is broadcast
    and the lock is left as it is. *)
Theorem valid_upon_late_polka n p propose :
  checkOnceFlag (CurrentRound p) OnceFlagPrecommitUponSufficientPrevotes p
  = false →
  CurrentStep p = Precommitting →
  ProposeLogs p !! CurrentRound p = Some propose →
  int_wrap (2 * F p + 1)
  <= countPrevotes (Propose_Value propose) (prevotesAt p (CurrentRound p)) →
  ∃ q, tryPrecommitUponSufficientPrevotes (1 + n) p = Some q
       ∧ ValidValue q = Propose_Value propose
       ∧ ValidRound q = CurrentRound p
       ∧ LockedValue q = LockedValue p
       ∧ LockedRound q = LockedRound p
       ∧ CurrentStep q = Precommitting
       ∧ calls q = calls p
       ∧ checkOnceFlag (CurrentRound p)
           OnceFlagPrecommitUponSufficientPrevotes q = true.
Proof.
  intros Hf Hs Hl Hc. eexists.
  split; [by apply tryPrecommit_precommitting |].
  repeat (split; [done |]). apply checkOnceFlag_setOnceFlag.
Qed.

Lemma tryPrecommit_quiet n p :
  CurrentStep p = Precommitting →
  ∃ q, tryPrecommitUponSufficientPrevotes (S n) p = Some q
       ∧ CurrentStep q = Precommitting
       ∧ calls q = calls p
       ∧ LockedValue q = LockedValue p
       ∧ LockedRound q = LockedRound p
       ∧ frame p q.
Proof.
  intros Hs. rewrite tryPrecommitUponSufficientPrevotes_S.
  pose proof (frame_refl p) as Hr.
  destruct (checkOnceFlag _ _ _); [by eauto 10 |].
  case_decide; [by eauto 10 |].
  destruct (ProposeLogs p !! CurrentRound p) as [propose|]; [| by eauto 10].
  case_decide; [by eauto 10 |].
  rewrite decide_False by congruence. rewrite bind_Some_eq. cbv beta iota.
  eexists. split; [done |]. repeat (split; [done |]).
  unfold validated. unfold_setters. frame_tac.
Qed.

Lemma stepToPrevoting_past n p q :
  stepToPrevoting n p = Some q → past (set_CurrentStep Prevoting p) q.
Proof. apply (proj1 (proj2 (proj2 (cycle_past n)))). Qed.

(** ** Prevoting upon a proposal with a valid round (L28) *)

(** X10.  In step Proposing, with a proposal for the current round whose
    valid round is set and lies before the current round, and with at least
    [2F + 1] prevotes of that valid round for the proposed value, the process
    broadcasts one prevote, for the proposed value if its locked round is not
    after the valid round or it is locked on that value, and for nil
    otherwise; it leaves step Proposing, and broadcasts no other prevote. *)
Theorem prevote_upon_reproposal n p propose :
  CurrentStep p = Proposing →
  ProposeLogs p !! CurrentRound p = Some propose →
  Propose_ValidRound propose ≠ InvalidRound →
  Propose_ValidRound propose < CurrentRound p →
  int_wrap (2 * F p + 1)
  <= countPrevotes (Propose_Value propose)
       (prevotesAt p (Propose_ValidRound propose)) →
  let vote :=
    if decide (LockedRound p <= Propose_ValidRound propose
               ∨ LockedValue p = Propose_Value propose)
    then Propose_Value propose else NilValue in
  ∃ q l, tryPrevoteUponSufficientPrevotes (5 + n) p = Some q
         ∧ CurrentStep q ≠ Proposing
         ∧ calls q
           = calls p
             ++ BroadcastPrevote (CurrentHeight p) (CurrentRound p) vote :: l
         ∧ Forall past_call l
         ∧ frame p q.
Proof.
  intros Hs Hl Hvr Hlt Hc vote.
  set (voted :=
    emit (BroadcastPrevote (CurrentHeight p) (CurrentRound p) vote) p).
  destruct (stepToPrevoting_total n voted) as (q & Hq & _).
  pose proof (stepToPrevoting_frame _ _ _ Hq) as Hf.
  destruct (stepToPrevoting_past _ _ _ Hq) as (Hs' & l & E & Fl).
  exists q, l. split; [| split; [done |]; split; [| split; [done |]]].
  - change (5 + n)%nat with (S (S (S (S (S n))))).
    remember (S (S (S (S n)))) as k eqn:Hk in |- *. simpl. subst k.
    rewrite decide_False by (intros Hne; by apply Hne).
    rewrite Hl. rewrite decide_False by (intros [? | ?]; [done | lia]).
    rewrite decide_False by lia.
    rewrite <- Hq. f_equal. unfold voted, vote. by case_decide.
  - rewrite E. simpl. by rewrite <- app_assoc.
  - eapply frame_trans; [| exact Hf]. unfold voted. unfold_setters.
    frame_tac.
Qed.

(** ** Precommitting nil (L44) *)

(** X11.  In step Prevoting, the process precommits nil exactly when the
    current round has [2F + 1] nil prevotes, no more and no fewer: it then
    broadcasts one precommit for nil and steps to Precommitting, leaving its
    lock as it is; with any other number of nil prevotes the rule changes
    nothing. *)
Theorem precommit_nil_upon_nil_prevotes n p :
  CurrentStep p = Prevoting →
  (countPrevotes NilValue (prevotesAt p (CurrentRound p))
   = int_wrap (2 * F p + 1) →
   ∃ q, tryPrecommitNilUponSufficientPrevotes (3 + n) p = Some q
        ∧ CurrentStep q = Precommitting
        ∧ calls q
          = calls p ++ [BroadcastPrecommit (CurrentHeight p) (CurrentRound p)
                          NilValue]
        ∧ LockedValue q = LockedValue p
        ∧ LockedRound q = LockedRound p
        ∧ frame p q)
  ∧ (countPrevotes NilValue (prevotesAt p (CurrentRound p))
     ≠ int_wrap (2 * F p + 1) →
     tryPrecommitNilUponSufficientPrevotes (3 + n) p = Some p).
Proof.
  intros Hs. change (3 + n)%nat with (S (S (S n))).
  split; intros Hc; remember (S (S n)) as k eqn:Hk in |- *; simpl; subst k;
    rewrite decide_False by (intros Hne; by apply Hne).
  - rewrite decide_True by done. rewrite stepToPrecommitting_S.
    match goal with |- context [tryPrecommitUponSufficientPrevotes _ ?x] =>
      destruct (tryPrecommit_quiet n x) as (q & -> & H1 & H2 & H3 & H4 & H5)
    end; [done |].
    exists q. split; [done |]. repeat (split; [done |]).
    eapply frame_trans; [| exact H5]. unfold_setters. frame_tac.
  - by rewrite decide_False.
Qed.

(** ** The timeouts, when they are due (L57, L61, L65) *)

Lemma timeout_propose_prevotes_nil n p :
  CurrentStep p = Proposing →
  ∃ q l, OnTimeoutPropose (4 + n) (CurrentHeight p) (CurrentRound p) p
         = Some q
         ∧ CurrentStep q ≠ Proposing
         ∧ calls q
           = calls p
             ++ BroadcastPrevote (CurrentHeight p) (CurrentRound p) NilValue
                :: l
         ∧ Forall past_call l
         ∧ frame p q.
Proof.
  intros Hs.
  set (voted :=
    emit (BroadcastPrevote (CurrentHeight p) (CurrentRound p) NilValue) p).
  destruct (stepToPrevoting_total n voted) as (q & Hq & _).
  pose proof (stepToPrevoting_frame _ _ _ Hq) as Hf.
  destruct (stepToPrevoting_past _ _ _ Hq) as (Hs' & l & E & Fl).
  exists q, l. split; [| split; [done |]; split; [| split; [done |]]].
  - unfold OnTimeoutPropose. by rewrite decide_True.
  - rewrite E. simpl. by rewrite <- app_assoc.
  - eapply frame_trans; [| exact Hf]. unfold voted. unfold_setters.
    frame_tac.
Qed.

Lemma timeout_prevote_precommits_nil n p :
  CurrentStep p = Prevoting →
  ∃ q, OnTimeoutPrevote (2 + n) (CurrentHeight p) (CurrentRound p) p = Some q
       ∧ CurrentStep q = Precommitting
       ∧ calls q
         = calls p ++ [BroadcastPrecommit (CurrentHeight p) (CurrentRound p)
                         NilValue]
       ∧ LockedValue q = LockedValue p
       ∧ LockedRound q = LockedRound p
       ∧ frame p q.
Proof.
  intros Hs. unfold OnTimeoutPrevote. rewrite decide_True by done.
  change (2 + n)%nat with (S (S n)). rewrite stepToPrecommitting_S.
  match goal with |- context [tryPrecommitUponSufficientPrevotes _ ?x] =>
    destruct (tryPrecommit_quiet n x) as (q & -> & H1 & H2 & H3 & H4 & H5)
  end; [done |].
  exists q. split; [done |]. repeat (split; [done |]).
  eapply frame_trans; [| exact H5]. unfold_setters. frame_tac.
Qed.

Lemma timeout_precommit_starts_next_round n p :
  ∃ q l, OnTimeoutPrecommit (5 + n) (CurrentHeight p) (CurrentRound p) p
         = Some q
         ∧ CurrentRound q = int_wrap (CurrentRound p + 1)
         ∧ (incrementable (CurrentRound p) →
            CurrentRound q = CurrentRound p + 1)
         ∧ CurrentHeight q = CurrentHeight p
         ∧ calls q
           = calls p
             ++ StartRound_call (int_wrap (CurrentRound p + 1)) p :: l
         ∧ Forall retry_call l
         ∧ ProposeLogs q = ProposeLogs p
         ∧ PrevoteLogs q = PrevoteLogs p
         ∧ PrecommitLogs q = PrecommitLogs p.
Proof.
  destruct (StartRound_total n (int_wrap (CurrentRound p + 1)) p) as (q & Hq).
  pose proof (StartRound_frame _ _ _ _ Hq) as Hf.
  destruct (frame_calls _ _ Hf) as (l & E & Fl).
  exists q, l. split.
  { unfold OnTimeoutPrecommit. by rewrite decide_True. }
  split; [by rewrite (frame_CurrentRound _ _ Hf) |].
  split.
  { intros Hr. rewrite (frame_CurrentRound _ _ Hf). simpl.
    by apply int_wrap_succ. }
  split; [by rewrite (frame_CurrentHeight _ _ Hf) |].
  split; [rewrite E; simpl; by rewrite <- app_assoc |].
  split; [done |].
  by rewrite (frame_ProposeLogs _ _ Hf), (frame_PrevoteLogs _ _ Hf),
    (frame_PrecommitLogs _ _ Hf).
Qed.

(** ** Committing (L49) *)

(** X13.  When the proposal logged for a round has exactly [2F + 1]
    precommits of that round for its value, the commit rule hands the value
    to the committer with the current height, moves to the next height (the
    [int64] increment of the current one: [h + 1], and [-2^63] after the
    last height, [2^63 - 1]), empties the three message logs and the
    once-flags, resets the lock and the valid value, and enters round 0 in
    step Proposing, where it makes the first call of [StartRound] (proposal
    or propose timeout) and nothing else. *)
Theorem commit_starts_next_height n r p propose :
  ProposeLogs p !! r = Some propose →
  countPrecommits (Propose_Value propose) (precommitsAt p r)
  = int_wrap (2 * F p + 1) →
  let next := int_wrap (CurrentHeight p + 1) in
  ∃ q, tryCommitUponSufficientPrecommits (1 + n) r p = Some q
       ∧ CurrentHeight q = next
       ∧ (incrementable (CurrentHeight p) → next = CurrentHeight p + 1)
       ∧ next ≠ CurrentHeight p
       ∧ CurrentRound q = 0
       ∧ CurrentStep q = Proposing
       ∧ ProposeLogs q = ∅ ∧ PrevoteLogs q = ∅ ∧ PrecommitLogs q = ∅
       ∧ OnceFlags q = ∅
       ∧ LockedValue q = NilValue ∧ LockedRound q = InvalidRound
       ∧ ValidValue q = NilValue ∧ ValidRound q = InvalidRound
       ∧ calls q
         = calls p
           ++ [Commit (CurrentHeight p) (Propose_Value propose);
               if decide (scheduler p next 0 = Whoami p)
               then BroadcastPropose next 0 (proposer p next 0) InvalidRound
               else TimeoutPropose next 0].
Proof.
  intros Hl Hc next.
  destruct (commit_upon_exact_threshold n r p propose Hl Hc) as [Hq _].
  eexists. split; [exact Hq |]. split; [done |].
  split; [apply int_wrap_succ |]. split; [apply int_wrap_succ_ne |].
  repeat (split; [done |]). unfold next.
  cbn [calls emit set_calls set_CurrentStep set_CurrentRound set_state Reset
    set_LockedValue set_LockedRound set_ValidValue set_ValidRound
    set_OnceFlags set_PrecommitLogs set_PrevoteLogs set_ProposeLogs
    set_CurrentHeight].
  rewrite <- app_assoc. do 2 f_equal. unfold StartRound_call.
  cbn [Whoami scheduler CurrentHeight ValidValue ValidRound proposer state
    emit set_calls set_CurrentStep set_CurrentRound set_state Reset
    set_LockedValue set_LockedRound set_ValidValue set_ValidRound
    set_OnceFlags set_PrecommitLogs set_PrevoteLogs set_ProposeLogs
    set_CurrentHeight].
  repeat case_decide; congruence.
Qed.

(** ** Termination *)

(** X14.  Every entry point returns: the condition methods call one another
    to a depth of at most five, so that with a depth bound of five or more
    each event yields a next state, and the same one whatever the bound. *)
Theorem handlers_return ev p :
  ∃ q, ∀ n, handle (5 + n) ev p = Some q.
Proof.
  destruct (handle_total 0 ev p) as (q & Hq). exists q. intros n.
  replace (5 + n)%nat with (n + 5)%nat by lia.
  by rewrite handle_enough.
Qed.

(** * Properties of runs *)

(** ** Committing, event by event *)

(** What an entry point does: the insertion that opens the delivery of a
    message, which at most adds a report to the catcher, and then the
    conditions, which report nothing and commit at most once. *)
Lemma handle_decides n ev p q :
  handle n ev p = Some q →
  ∃ p1, evolves p1 q ∧ decides p1 q
        ∧ match ev with
          | EvPropose m => ∃ ok, insertPropose m p = (ok, p1)
          | EvPrevote m => ∃ ok, insertPrevote m p = (ok, p1)
          | EvPrecommit m => ∃ ok, insertPrecommit m p = (ok, p1)
          | _ => p1 = p
          end.
Proof.
  destruct ev; cbn [handle]; intros Hq.
  - exists p. split; [by eapply StartRound_evolves |].
    split; [| done]. by eapply quiet_decides, StartRound_quiet.
  - exists p. split; [by eapply StartRound_evolves |].
    split; [| done]. by eapply quiet_decides, StartRound_quiet.
  - pose proof (Process_Propose_inv _ _ _ _ Hq) as (ok & p1 & Hi & He).
    apply Process_Propose_decides in Hq as (ok' & p1' & Hi' & Hd).
    rewrite Hi in Hi'. simplify_eq. exists p1'. destruct ok'.
    + by eauto.
    + subst q. split; [apply evolves_refl |].
      split; [apply quiet_decides, quiet_refl | by eauto].
  - pose proof (Process_Prevote_inv _ _ _ _ Hq) as (ok & p1 & Hi & He).
    apply Process_Prevote_decides in Hq as (ok' & p1' & Hi' & Hd).
    rewrite Hi in Hi'. simplify_eq. exists p1'. destruct ok'.
    + by eauto.
    + subst q. split; [apply evolves_refl |].
      split; [apply quiet_decides, quiet_refl | by eauto].
  - pose proof (Process_Precommit_inv _ _ _ _ Hq) as (ok & p1 & Hi & He).
    apply Process_Precommit_decides in Hq as (ok' & p1' & Hi' & Hd).
    rewrite Hi in Hi'. simplify_eq. exists p1'. destruct ok'.
    + by eauto.
    + subst q. split; [apply evolves_refl |].
      split; [apply quiet_decides, quiet_refl | by eauto].
  - exists p. split; [by eapply OnTimeoutPropose_evolves |].
    split; [| done]. by eapply quiet_decides, OnTimeoutPropose_quiet.
  - exists p. split; [by eapply OnTimeoutPrevote_evolves |].
    split; [| done]. by eapply quiet_decides, OnTimeoutPrevote_quiet.
  - exists p. split; [by eapply OnTimeoutPrecommit_evolves |].
    split; [| done]. by eapply quiet_decides, OnTimeoutPrecommit_quiet.
Qed.

(** The insertions leave height and calls alone, a report to the catcher
    apart. *)
Lemma handle_inserted ev p p1 :
  match ev with
  | EvPropose m => ∃ ok, insertPropose m p = (ok, p1)
  | EvPrevote m => ∃ ok, insertPrevote m p = (ok, p1)
  | EvPrecommit m => ∃ ok, insertPrecommit m p = (ok, p1)
  | _ => p1 = p
  end →
  p1 = inserted ev p
  ∧ CurrentHeight p1 = CurrentHeight p ∧ F p1 = F p
  ∧ scheduler p1 = scheduler p ∧ validator p1 = validator p
  ∧ (calls p1 = calls p ∨ ∃ e, catch_call e ∧ calls p1 = calls p ++ [e]).
Proof.
  destruct ev; try (by intros ->; auto 10); cbn [inserted].
  - intros (ok & Hi). rewrite Hi. split; [done |].
    apply insertPropose_spec in Hi. destruct ok.
    + destruct Hi as (_ & _ & _ & _ & ->). auto 10.
    + destruct Hi as [-> | (old & _ & _ & _ & ->)]; [by auto 10 |].
      repeat split; try done. right. eexists. by split; [| reflexivity].
  - intros (ok & Hi). rewrite Hi. split; [done |].
    apply insertPrevote_spec in Hi. destruct ok.
    + destruct Hi as (_ & _ & ->). auto 10.
    + destruct Hi as [-> | (old & _ & _ & _ & ->)]; [by auto 10 |].
      repeat split; try done. right. eexists. by split; [| reflexivity].
  - intros (ok & Hi). rewrite Hi. split; [done |].
    apply insertPrecommit_spec in Hi. destruct ok.
    + destruct Hi as (_ & _ & ->). auto 10.
    + destruct Hi as [-> | (old & _ & _ & _ & ->)]; [by auto 10 |].
      repeat split; try done. right. eexists. by split; [| reflexivity].
Qed.

Lemma commits_catch e : catch_call e → commits [e] = [].
Proof. by destruct e. Qed.

Lemma handle_commits n ev p q :
  handle n ev p = Some q →
  ∃ p1 l, evolves p1 q
          ∧ match ev with
            | EvPropose m => ∃ ok, insertPropose m p = (ok, p1)
            | EvPrevote m => ∃ ok, insertPrevote m p = (ok, p1)
            | EvPrecommit m => ∃ ok, insertPrecommit m p = (ok, p1)
            | _ => p1 = p
            end
          ∧ calls q = calls p ++ l
          ∧ (CurrentHeight q = CurrentHeight p ∧ commits l = []
             ∧ ProposeLogs q = ProposeLogs p1
             ∧ PrevoteLogs q = PrevoteLogs p1
             ∧ PrecommitLogs q = PrecommitLogs p1
             ∨ ∃ r m, ProposeLogs p1 !! r = Some m
                      ∧ countPrecommits (Propose_Value m) (precommitsAt p1 r)
                        = int_wrap (2 * F p + 1)
                      ∧ CurrentHeight q = int_wrap (CurrentHeight p + 1)
                      ∧ commits l = [(CurrentHeight p, Propose_Value m)]
                      ∧ ProposeLogs q = ∅ ∧ PrevoteLogs q = ∅
                      ∧ PrecommitLogs q = ∅).
Proof.
  intros Hq.
  destruct (handle_decides _ _ _ _ Hq) as (p1 & He & (l & E & _ & D) & Hi).
  pose proof (handle_inserted ev p _ Hi) as (_ & Hh & HF & _ & _ & Hc).
  assert (∃ l0, calls p1 = calls p ++ l0 ∧ commits l0 = []) as (l0 & E0 & C0).
  { destruct Hc as [-> | (e & Hc & ->)]; [exists []; by rewrite app_nil_r |].
    exists [e]. split; [done | by apply commits_catch]. }
  exists p1, (l0 ++ l). split; [done |]. split; [done |].
  split; [by rewrite E, E0, app_assoc |].
  rewrite commits_app, C0, app_nil_l, <- Hh, <- HF.
  destruct D as [(? & ? & ? & ? & ?) | (r & m & ? & ? & ? & ? & ? & ? & ?)];
    [by left | right; exists r, m; by repeat split].
Qed.

(** X15.  Every entry point returns, and it commits at most once: either
    the height stays and nothing is handed to the committer, or exactly one
    value is, with the height the process was at, and the process is at
    another height afterwards, the next one (the [int64] increment of the
    height it was at, which wraps around after [2^63 - 1]).  The committed
    value is that of a proposal that the log holds (after the insertion of
    the message delivered) with exactly [2F + 1] precommits of its round for
    it. *)
Theorem one_commit_per_event n ev p :
  ∃ q l, handle (5 + n) ev p = Some q
         ∧ calls q = calls p ++ l
         ∧ (CurrentHeight q = CurrentHeight p ∧ commits l = []
            ∨ ∃ r propose,
                ProposeLogs (inserted ev p) !! r = Some propose
                ∧ countPrecommits (Propose_Value propose)
                    (precommitsAt (inserted ev p) r)
                  = int_wrap (2 * F p + 1)
                ∧ CurrentHeight q = int_wrap (CurrentHeight p + 1)
                ∧ CurrentHeight q ≠ CurrentHeight p
                ∧ commits l = [(CurrentHeight p, Propose_Value propose)]).
Proof.
  destruct (handle_total n ev p) as (q & Hq).
  destruct (handle_commits _ _ _ _ Hq) as (p1 & l & _ & Hi & E & D).
  apply handle_inserted in Hi as (-> & _).
  exists q, l. split; [done |]. split; [done |].
  destruct D as [(? & ? & _) | (r & m & ? & ? & Hh & ? & _)]; [by left |].
  right. exists r, m. repeat split; try done.
  rewrite Hh. apply int_wrap_succ_ne.
Qed.

(** ** What the logs hold *)

Lemma insertPropose_filed m p ok p1 :
  filed p → insertPropose m p = (ok, p1) → filed p1.
Proof.
  intros [H1 H2 H3] Hi. apply insertPropose_spec in Hi. destruct ok.
  - destruct Hi as (Hh & Hn & Hs & Hv & ->). split; [| done | done].
    cbn [ProposeLogs set_ProposeLogs]. intros r m'.
    rewrite lookup_insert. case_decide as Hr; [| by apply H1].
    intros [= <-]. subst r. repeat split; try done.
    cbn [scheduler CurrentHeight state set_ProposeLogs]. by rewrite <- Hh, Hs.
  - by destruct Hi as [-> | (old & _ & _ & _ & ->)].
Qed.

Lemma insertPrevote_filed m p ok p1 :
  filed p → insertPrevote m p = (ok, p1) → filed p1.
Proof.
  intros [H1 H2 H3] Hi. apply insertPrevote_spec in Hi. destruct ok.
  - destruct Hi as (Hh & Hn & ->). split; [done | | done].
    intros r from m'. rewrite prevotesAt_insert.
    case_decide as Hr; [| by apply H2]. subst r.
    rewrite lookup_insert. case_decide as Hf; [| by apply H2].
    by intros [= <-].
  - by destruct Hi as [-> | (old & _ & _ & _ & ->)].
Qed.

Lemma insertPrecommit_filed m p ok p1 :
  filed p → insertPrecommit m p = (ok, p1) → filed p1.
Proof.
  intros [H1 H2 H3] Hi. apply insertPrecommit_spec in Hi. destruct ok.
  - destruct Hi as (Hh & Hn & ->). split; [done | done |].
    intros r from m'. rewrite precommitsAt_insert.
    case_decide as Hr; [| by apply H3]. subst r.
    rewrite lookup_insert. case_decide as Hf; [| by apply H3].
    by intros [= <-].
  - by destruct Hi as [-> | (old & _ & _ & _ & ->)].
Qed.

Lemma handle_inserted_filed ev p p1 :
  filed p →
  match ev with
  | EvPropose m => ∃ ok, insertPropose m p = (ok, p1)
  | EvPrevote m => ∃ ok, insertPrevote m p = (ok, p1)
  | EvPrecommit m => ∃ ok, insertPrecommit m p = (ok, p1)
  | _ => p1 = p
  end →
  filed p1.
Proof.
  intros Hf. destruct ev; try (by intros ->).
  - intros (ok & Hi). by eapply insertPropose_filed.
  - intros (ok & Hi). by eapply insertPrevote_filed.
  - intros (ok & Hi). by eapply insertPrecommit_filed.
Qed.

Lemma handle_filed n ev p q : filed p → handle n ev p = Some q → filed q.
Proof.
  intros Hf Hq.
  destruct (handle_commits _ _ _ _ Hq) as (p1 & l & He & Hi & E & D).
  pose proof (handle_inserted ev p _ Hi) as (_ & Hh & _).
  apply (handle_inserted_filed ev p p1 Hf) in Hi as [H1 H2 H3].
  destruct He as [Hs _ Hv _ _ _].
  destruct D as [(Hq1 & _ & L1 & L2 & L3)
                | (r & m & _ & _ & _ & _ & L1 & L2 & L3)].
  - split; unfold prevotesAt, precommitsAt in *;
      rewrite ?L1, ?L2, ?L3, ?Hs, ?Hv, ?Hq1, <- ?Hh; done.
  - split; unfold prevotesAt, precommitsAt; rewrite ?L1, ?L2, ?L3;
      intros *; rewrite lookup_empty; cbn [default from_option id];
      by rewrite ?lookup_empty.
Qed.

Lemma New_filed whoami f sched prop (valid : Value → bool) :
  filed (New (Pid:=Pid) whoami f sched prop valid).
Proof.
  split; unfold prevotesAt, precommitsAt; cbn [New ProposeLogs PrevoteLogs
    PrecommitLogs]; intros *; rewrite lookup_empty;
    cbn [default from_option id]; by rewrite ?lookup_empty.
Qed.

Lemma reachable_filed whoami f sched prop (valid : Value → bool) p :
  reachable (New (Pid:=Pid) whoami f sched prop valid) p → filed p.
Proof.
  induction 1 as [|p ev n q _ IH _ Hq]; [apply New_filed |].
  by eapply handle_filed.
Qed.

Lemma reachable_collaborators whoami f sched prop (valid : Value → bool) p :
  reachable (New (Pid:=Pid) whoami f sched prop valid) p →
  scheduler p = sched ∧ proposer p = prop ∧ validator p = valid
  ∧ F p = f ∧ Whoami p = whoami.
Proof.
  induction 1 as [|p ev n q _ IH _ Hq]; [done |].
  destruct (handle_advances _ _ _ _ Hq) as [? ? ? ? ? _].
  destruct IH as (? & ? & ? & ? & ?). repeat split; congruence.
Qed.

(** X16.  In every state that events bring a new process to, the logs hold
    messages of the current height only, each filed under its own round, and
    votes under their own sender; every logged proposal comes from the
    proposer that the scheduler names for its round and carries a value that
    the validator accepted. *)
Theorem logs_filed whoami f sched prop (valid : Value → bool) p :
  reachable (New (Pid:=Pid) whoami f sched prop valid) p →
  (∀ r m, ProposeLogs p !! r = Some m →
          Propose_Height m = CurrentHeight p ∧ Propose_Round m = r
          ∧ Propose_From m = sched (CurrentHeight p) r
          ∧ valid (Propose_Value m) = true)
  ∧ (∀ r from m, prevotesAt p r !! from = Some m →
                 Prevote_Height m = CurrentHeight p ∧ Prevote_Round m = r
                 ∧ Prevote_From m = from)
  ∧ (∀ r from m, precommitsAt p r !! from = Some m →
                 Precommit_Height m = CurrentHeight p
                 ∧ Precommit_Round m = r ∧ Precommit_From m = from).
Proof.
  intros Hr. destruct (reachable_filed _ _ _ _ _ _ Hr) as [H1 H2 H3].
  destruct (reachable_collaborators _ _ _ _ _ _ Hr) as (<- & _ & <- & _).
  done.
Qed.

(** ** What is reported to the catcher *)

Lemma not_catch_justified p e : ¬ catch_call e → justified p e.
Proof. destruct e; simpl; tauto. Qed.

Lemma justified_eq p q e :
  scheduler q = scheduler p → justified p e → justified q e.
Proof. intros Hs. destruct e; simpl; by rewrite ?Hs. Qed.

Lemma handle_inserted_justified ev p p1 :
  filed p →
  match ev with
  | EvPropose m => ∃ ok, insertPropose m p = (ok, p1)
  | EvPrevote m => ∃ ok, insertPrevote m p = (ok, p1)
  | EvPrecommit m => ∃ ok, insertPrecommit m p = (ok, p1)
  | _ => p1 = p
  end →
  ∃ l, calls p1 = calls p ++ l ∧ Forall (justified p) l.
Proof.
  intros [H1 H2 H3]. destruct ev;
    try (by intros ->; exists []; rewrite app_nil_r).
  - intros (ok & Hi). apply insertPropose_spec in Hi. destruct ok.
    + destruct Hi as (_ & _ & _ & _ & ->). exists []. by rewrite app_nil_r.
    + destruct Hi as [-> | (old & Hh & Hl & Hne & ->)];
        [exists []; by rewrite app_nil_r |].
      eexists [_]. split; [done |]. apply Forall_singleton.
      destruct (H1 _ _ Hl) as (Ho & Hr & Hf & _). simpl.
      repeat split; [done | congruence | congruence |].
      by rewrite Ho, Hr.
  - intros (ok & Hi). apply insertPrevote_spec in Hi. destruct ok.
    + destruct Hi as (_ & _ & ->). exists []. by rewrite app_nil_r.
    + destruct Hi as [-> | (old & Hh & Hl & Hne & ->)];
        [exists []; by rewrite app_nil_r |].
      eexists [_]. split; [done |]. apply Forall_singleton.
      destruct (H2 _ _ _ Hl) as (Ho & Hr & Hf). simpl.
      repeat split; [done | congruence ..].
  - intros (ok & Hi). apply insertPrecommit_spec in Hi. destruct ok.
    + destruct Hi as (_ & _ & ->). exists []. by rewrite app_nil_r.
    + destruct Hi as [-> | (old & Hh & Hl & Hne & ->)];
        [exists []; by rewrite app_nil_r |].
      eexists [_]. split; [done |]. apply Forall_singleton.
      destruct (H3 _ _ _ Hl) as (Ho & Hr & Hf). simpl.
      repeat split; [done | congruence ..].
Qed.

Lemma handle_justified n ev p q :
  filed p → Forall (justified p) (calls p) → handle n ev p = Some q →
  Forall (justified q) (calls q).
Proof.
  intros Hf Hj Hq.
  destruct (handle_decides _ _ _ _ Hq) as (p1 & He & (l & E & Fl & _) & Hi).
  destruct (handle_inserted_justified ev p p1 Hf Hi) as (l0 & E0 & F0).
  destruct (handle_advances _ _ _ _ Hq) as [Hs _ _ _ _ _].
  rewrite E, E0. rewrite !Forall_app. repeat split.
  - eapply Forall_impl; [exact Hj |]. intros e. by apply justified_eq.
  - eapply Forall_impl; [exact F0 |]. intros e. by apply justified_eq.
  - eapply Forall_impl; [exact Fl |]. intros e. apply not_catch_justified.
Qed.

(** X17.  Whatever events a new process is given, every report it makes to
    the catcher is about two different messages of the same height and
    round; for prevotes and precommits the two are from the same sender, and
    for proposals the one that was logged is from the proposer scheduled for
    that height and round. *)
Theorem reports_justified whoami f sched prop (valid : Value → bool) p :
  reachable (New (Pid:=Pid) whoami f sched prop valid) p →
  (∀ new old, CatchDoublePrevote new old ∈ calls p →
     new ≠ old ∧ Prevote_Height new = Prevote_Height old
     ∧ Prevote_Round new = Prevote_Round old
     ∧ Prevote_From new = Prevote_From old)
  ∧ (∀ new old, CatchDoublePrecommit new old ∈ calls p →
       new ≠ old ∧ Precommit_Height new = Precommit_Height old
       ∧ Precommit_Round new = Precommit_Round old
       ∧ Precommit_From new = Precommit_From old)
  ∧ (∀ new old, CatchDoublePropose new old ∈ calls p →
       new ≠ old ∧ Propose_Height new = Propose_Height old
       ∧ Propose_Round new = Propose_Round old
       ∧ Propose_From old = sched (Propose_Height old) (Propose_Round old)).
Proof.
  intros Hr.
  assert (Forall (justified p) (calls p)) as Hj.
  { induction Hr as [|p ev n q Hr IH _ Hq]; [by constructor |].
    eapply handle_justified; [| exact IH | exact Hq].
    by eapply reachable_filed. }
  destruct (reachable_collaborators _ _ _ _ _ _ Hr) as (<- & _).
  rewrite Forall_forall in Hj.
  split; [| split]; intros new old Hin; apply (Hj _ Hin).
Qed.

(** ** What is committed *)

Lemma int_wrap_add_l a b : int_wrap (int_wrap a + b) = int_wrap (a + b).
Proof.
  unfold int_wrap. f_equal.
  replace ((a + 2 ^ 63) `mod` 2 ^ 64 - 2 ^ 63 + b + 2 ^ 63)
    with ((a + 2 ^ 63) `mod` 2 ^ 64 + b) by lia.
  rewrite Zplus_mod_idemp_l. f_equal. lia.
Qed.

Lemma int_wrap_seqZ n :
  0 <= n < 2 ^ 63 → int_wrap <$> seqZ 1 n = seqZ 1 n.
Proof.
  intros Hn. rewrite <- (list_fmap_id (seqZ 1 n)) at 2.
  apply list_fmap_ext. intros i z Hz.
  apply lookup_seqZ in Hz as [-> Hi].
  unfold id. apply int_wrap_small. lia.
Qed.

(** The number of values handed to the committer so far. *)
Lemma handle_heights n ev p q :
  handle n ev p = Some q →
  let k p := Z.of_nat (length (commits (calls p))) in
  (commits (calls p)).*1 = int_wrap <$> seqZ 1 (k p) →
  CurrentHeight p = int_wrap (k p + 1) →
  (commits (calls q)).*1 = int_wrap <$> seqZ 1 (k q)
  ∧ CurrentHeight q = int_wrap (k q + 1).
Proof.
  intros Hq k Hc Hh. unfold k in *.
  destruct (handle_commits _ _ _ _ Hq) as (p1 & l & _ & _ & E & D).
  rewrite E, commits_app, fmap_app, length_app, Hc.
  destruct D as [(-> & -> & _) | (r & m & _ & _ & -> & -> & _)].
  - simpl. by rewrite app_nil_r, Nat.add_0_r.
  - simpl.
    replace (Z.of_nat (length (commits (calls p)) + 1))
      with (Z.of_nat (length (commits (calls p))) + 1) by lia.
    rewrite seqZ_app by lia. rewrite fmap_app. split.
    + f_equal. rewrite seqZ_cons by lia. rewrite seqZ_nil by lia.
      simpl. rewrite Hh. do 2 f_equal. lia.
    + by rewrite Hh, int_wrap_add_l.
Qed.

(** X18.  Heights are committed one after the other: in every state that
    events bring a new process to, the values handed to the committer so
    far, [n] of them, are for the heights 1, 2, ..., [n], one value for each
    and in this order, and the current height is [n + 1]; all of this as
    [int64] counts, that is, wrapping around after the height [2^63 - 1].
    As long as fewer than [2^63 - 1] values have been committed, the heights
    are those from 1 to the height before the current one. *)
Theorem commits_consecutive whoami f sched prop (valid : Value → bool) p :
  reachable (New (Pid:=Pid) whoami f sched prop valid) p →
  let n := Z.of_nat (length (commits (calls p))) in
  (commits (calls p)).*1 = int_wrap <$> seqZ 1 n
  ∧ CurrentHeight p = int_wrap (n + 1)
  ∧ (n < 2 ^ 63 - 1 →
     (commits (calls p)).*1 = seqZ 1 (CurrentHeight p - 1)
     ∧ CurrentHeight p = n + 1).
Proof.
  intros Hr n.
  assert ((commits (calls p)).*1 = int_wrap <$> seqZ 1 n
          ∧ CurrentHeight p = int_wrap (n + 1)) as [H1 H2].
  { unfold n. clear n.
    induction Hr as [|p ev n q _ [IH1 IH2] _ Hq]; [done |].
    by eapply handle_heights. }
  split; [done |]. split; [done |]. intros Hn.
  rewrite H2, int_wrap_small by lia.
  replace (n + 1 - 1) with n by lia.
  split; [| done]. rewrite H1. apply int_wrap_seqZ. lia.
Qed.

(** X19.  Every value that a process has handed to the committer was
    accepted by its validator. *)
Theorem committed_values_valid whoami f sched prop (valid : Value → bool) p :
  reachable (New (Pid:=Pid) whoami f sched prop valid) p →
  ∀ h v, (h, v) ∈ commits (calls p) → valid v = true.
Proof.
  intros Hr.
  enough (Forall (λ c, validator p c.2 = true) (commits (calls p))) as Hc.
  { destruct (reachable_collaborators _ _ _ _ _ _ Hr) as (_ & _ & <- & _).
    rewrite Forall_forall in Hc. intros h v Hin. exact (Hc _ Hin). }
  induction Hr as [|p ev n q Hr IH _ Hq]; [by constructor |].
  destruct (handle_commits _ _ _ _ Hq) as (p1 & l & He & Hi & E & D).
  destruct (handle_advances _ _ _ _ Hq) as [_ _ Hv _ _ _].
  apply reachable_filed in Hr.
  apply (handle_inserted_filed ev p p1 Hr) in Hi as [H1 _ _].
  rewrite E, commits_app, Forall_app. rewrite Hv. split; [done |].
  destruct D as [(_ & -> & _) | (r & m & Hl & _ & _ & -> & _)];
    [by constructor |].
  apply Forall_singleton. simpl.
  destruct (H1 _ _ Hl) as (_ & _ & _ & Hm).
  destruct He as [_ _ Hv' _ _ _]. congruence.
Qed.

(** ** Each call at most once for a height and round *)

Lemma slots_app k l1 l2 : slots k (l1 ++ l2) = slots k l1 ++ slots k l2.
Proof. apply omap_app. Qed.

Lemma before_irrefl a : ¬ before a a.
Proof. unfold before. lia. Qed.

Lemma before_trans a b c : before a b → before b c → before a c.
Proof. unfold before. lia. Qed.

Lemma acts_refl p : acts p p.
Proof. split; [done | done |]. exists []. rewrite app_nil_r. by auto. Qed.

Lemma acts_trans p q r : acts p q → acts q r → acts p r.
Proof.
  intros [P1 M1 (l1 & E1 & S1)] [P2 M2 (l2 & E2 & S2)].
  split; [congruence | by auto |].
  exists (l1 ++ l2). split; [by rewrite E2, E1, app_assoc |].
  intros k. rewrite slots_app.
  destruct (S1 k) as [-> | (-> & N1 & D1)],
    (S2 k) as [-> | (-> & N2 & D2)]; simpl.
  - by left.
  - right. rewrite P1. split; [done |]. split; [| done].
    intros Hm. by apply N2, M1.
  - right. split; [done |]. split; [done |]. by apply M2.
  - by destruct N2.
Qed.

(** A step within the round that makes no call, and keeps the step and the
    once-flags that are set. *)
Lemma acts_quietly p q :
  position q = position p → CurrentStep q = CurrentStep p →
  (∀ r fl, checkOnceFlag r fl p = true → checkOnceFlag r fl q = true) →
  calls q = calls p →
  acts p q.
Proof.
  intros Hp Hs Hf Hc. assert (CurrentRound q = CurrentRound p) as Hr
    by (by injection Hp).
  split; [done | |].
  - intros []; simpl; rewrite ?Hs, ?Hr; auto.
  - exists []. rewrite app_nil_r. by auto.
Qed.

Lemma acts_validated v p : acts p (validated v p).
Proof.
  apply acts_quietly; try done.
  intros r fl Hc. unfold validated. apply checkOnceFlag_setOnceFlag_mono.
  exact Hc.
Qed.

Lemma acts_prevote v p :
  CurrentStep p = Proposing →
  acts p (set_CurrentStep Prevoting
            (emit (BroadcastPrevote (CurrentHeight p) (CurrentRound p) v) p)).
Proof.
  intros Hs. split; [done | |].
  - intros []; simpl; try done. congruence.
  - eexists [_]. split; [done |]. intros []; try (by left).
    right. split; [done |]. simpl. split; [| done]. by intros [].
Qed.

Lemma acts_precommit v p p' :
  CurrentStep p = Prevoting →
  position p' = position p → OnceFlags p' = OnceFlags p →
  calls p' = calls p →
  acts p (set_CurrentStep Precommitting
            (emit (BroadcastPrecommit (CurrentHeight p) (CurrentRound p) v)
               p')).
Proof.
  intros Hs Hp Hf Hc. assert (CurrentRound p' = CurrentRound p) as Hr
    by (by injection Hp).
  split; [done | |].
  - intros []; simpl; try done; unfold checkOnceFlag;
      cbn [OnceFlags set_CurrentStep set_state emit set_calls];
      by rewrite Hf, Hr.
  - eexists [_]. split; [simpl; by rewrite Hc |]. intros []; try (by left).
    right. split; [done |]. simpl. split; [congruence | done].
Qed.

Lemma acts_tryTimeoutPrevote p :
  acts p (tryTimeoutPrevoteUponSufficientPrevotes p).
Proof.
  unfold tryTimeoutPrevoteUponSufficientPrevotes.
  destruct (checkOnceFlag _ _ p) eqn:Hf; [apply acts_refl |].
  case_decide as Hs; [apply acts_refl |].
  case_decide as Hl.
  - split; [done | |].
    + intros []; simpl; try done; intros Hc;
        apply checkOnceFlag_setOnceFlag_mono; exact Hc.
    + eexists [_]. split; [done |]. intros []; try (by left).
      right. split; [done |]. simpl. split; [congruence |].
      apply checkOnceFlag_setOnceFlag.
  - apply acts_quietly; try done.
    intros r fl. apply checkOnceFlag_setOnceFlag_mono.
Qed.

Lemma acts_tryTimeoutPrecommit p :
  acts p (tryTimeoutPrecommitUponSufficientPrecommits p).
Proof.
  unfold tryTimeoutPrecommitUponSufficientPrecommits.
  destruct (checkOnceFlag _ _ p) eqn:Hf; [apply acts_refl |].
  case_decide as Hl; [| apply acts_refl].
  split; [done | |].
  - intros []; simpl; try done; intros Hc;
      apply checkOnceFlag_setOnceFlag_mono; exact Hc.
  - eexists [_]. split; [done |]. intros []; try (by left).
    right. split; [done |]. simpl. split; [congruence |].
    apply checkOnceFlag_setOnceFlag.
Qed.

Lemma not_not_proposing p : ¬ CurrentStep p ≠ Proposing → CurrentStep p = Proposing.
Proof. by destruct (CurrentStep p); intros H; try done; destruct H. Qed.

Lemma not_not_prevoting p : ¬ CurrentStep p ≠ Prevoting → CurrentStep p = Prevoting.
Proof. by destruct (CurrentStep p); intros H; try done; destruct H. Qed.

Lemma cycle_acts n :
  (∀ p q, tryPrevoteUponPropose n p = Some q → acts p q)
  ∧ (∀ p q, tryPrevoteUponSufficientPrevotes n p = Some q → acts p q)
  ∧ (∀ p q, tryPrecommitUponSufficientPrevotes n p = Some q → acts p q)
  ∧ (∀ p q, tryPrecommitNilUponSufficientPrevotes n p = Some q → acts p q)
  ∧ (∀ p q, stepToPrevoting n p = Some q →
            acts (set_CurrentStep Prevoting p) q)
  ∧ (∀ p q, stepToPrecommitting n p = Some q →
            acts (set_CurrentStep Precommitting p) q).
Proof.
  induction n as [|n (IH1 & IH2 & IH3 & IH4 & IH5 & IH6)].
  { repeat apply conj; intros p q Hq; discriminate Hq. }
  repeat apply conj; intros p q Hq.
  - simpl in Hq. run_inv; try apply acts_refl;
      (eapply acts_trans; [apply acts_prevote | by apply IH5]);
      by apply not_not_proposing.
  - simpl in Hq. run_inv; try apply acts_refl;
      (eapply acts_trans; [apply acts_prevote | by apply IH5]);
      by apply not_not_proposing.
  - rewrite tryPrecommitUponSufficientPrevotes_S in Hq.
    destruct (checkOnceFlag _ _ p); [simplify_eq; apply acts_refl |].
    case_decide; [simplify_eq; apply acts_refl |].
    destruct (ProposeLogs p !! CurrentRound p) as [propose|];
      [| simplify_eq; apply acts_refl].
    case_decide; [simplify_eq; apply acts_refl |].
    case_decide as Hs.
    + apply bind_Some in Hq as ([x b] & Hx & Hq).
      apply bind_Some in Hx as (x' & Hx & [= <- <-]).
      apply bind_Some in Hq as (x1 & H1 & Hq).
      eapply acts_trans;
        [by apply (acts_precommit (Propose_Value propose) p
                     (set_LockedRound (CurrentRound p)
                        (set_LockedValue (Propose_Value propose) p))) |].
      eapply acts_trans; [by apply IH6, Hx |].
      eapply acts_trans; [apply acts_validated |].
      eapply acts_trans; [by apply IH1 | by apply IH2].
    + rewrite bind_Some_eq in Hq. simplify_eq. apply acts_validated.
  - simpl in Hq. run_inv; try apply acts_refl.
    eapply acts_trans; [| by apply IH6].
    apply acts_precommit; try done. by apply not_not_prevoting.
  - rewrite stepToPrevoting_S in Hq. run_inv.
    eapply acts_trans; [by apply IH3 |].
    eapply acts_trans; [by apply IH4 |]. apply acts_tryTimeoutPrevote.
  - rewrite stepToPrecommitting_S in Hq. by apply IH3.
Qed.

Lemma StartRound_eq n r p :
  StartRound n r p
  = (p ← tryPrecommitUponSufficientPrevotes n
           (emit (StartRound_call r p)
              (set_CurrentStep Proposing (set_CurrentRound r p)));
     p ← tryPrecommitNilUponSufficientPrevotes n p;
     p ← tryPrevoteUponPropose n p;
     p ← tryPrevoteUponSufficientPrevotes n p;
     Some (tryTimeoutPrevoteUponSufficientPrevotes
             (tryTimeoutPrecommitUponSufficientPrecommits p))).
Proof.
  unfold StartRound, StartRound_call.
  cbn [CurrentHeight CurrentRound state set_CurrentStep set_CurrentRound
       set_state Whoami scheduler proposer ValidValue ValidRound].
  by destruct (decide (Whoami p ≠ scheduler p (CurrentHeight p) r)).
Qed.

Lemma StartRound_acts n r p q :
  StartRound n r p = Some q →
  acts (emit (StartRound_call r p)
          (set_CurrentStep Proposing (set_CurrentRound r p))) q.
Proof.
  destruct (cycle_acts n) as (IH1 & IH2 & IH3 & IH4 & IH5 & IH6).
  rewrite StartRound_eq. intros Hq. run_inv.
  eapply acts_trans; [by apply IH3 |].
  eapply acts_trans; [by apply IH4 |].
  eapply acts_trans; [by apply IH1 |].
  eapply acts_trans; [by apply IH2 |].
  eapply acts_trans; [apply acts_tryTimeoutPrecommit |].
  apply acts_tryTimeoutPrevote.
Qed.

Lemma once_acts p q : once p → acts p q → once q.
Proof.
  intros [S N] [P M (l & E & Sl)]. split.
  - intros k s. rewrite E, slots_app, elem_of_app, P. intros [Hin | Hin].
    + destruct (S k s Hin) as [? | [-> ?]]; [by left | right; by auto].
    + destruct (Sl k) as [El | (El & _ & ?)]; rewrite El in Hin;
        [by apply elem_of_nil in Hin |].
      apply list_elem_of_singleton in Hin as ->. by right.
  - intros k. rewrite E, slots_app. apply NoDup_app.
    split; [apply N |]. split.
    + intros s Hin Hin'.
      destruct (Sl k) as [El | (El & Hn & _)]; rewrite El in Hin';
        [by apply elem_of_nil in Hin' |].
      apply list_elem_of_singleton in Hin' as ->.
      destruct (S k _ Hin) as [Hb | [_ Hm]]; [by apply before_irrefl in Hb |].
      by apply Hn.
    + destruct (Sl k) as [-> | (-> & _)];
        [apply NoDup_nil_2 | apply NoDup_singleton].
Qed.

Lemma slots_StartRound_call k r p :
  slots k [StartRound_call r p] = []
  ∨ slots k [StartRound_call r p] = [(CurrentHeight p, r)]
    ∧ (k = KindPropose ∨ k = KindTimeoutPropose).
Proof.
  unfold StartRound_call. case_decide; destruct k; simpl; auto.
Qed.

(** Entering a round that is later than every call made so far. *)
Lemma once_enter n r p q :
  (∀ k s, s ∈ slots k (calls p) → before s (CurrentHeight p, r)) →
  (∀ k, NoDup (slots k (calls p))) →
  StartRound n r p = Some q → once q.
Proof.
  intros S N Hq. apply StartRound_acts in Hq.
  eapply once_acts; [| exact Hq]. split.
  - intros k s. cbn [calls emit set_calls set_CurrentStep set_CurrentRound
      set_state]. rewrite slots_app, elem_of_app. intros [Hin | Hin].
    + left. exact (S k s Hin).
    + destruct (slots_StartRound_call k r p) as [E | (E & Hk)];
        rewrite E in Hin; [by apply elem_of_nil in Hin |].
      apply list_elem_of_singleton in Hin as ->. right. split; [done |].
      by destruct Hk as [-> | ->].
  - intros k. cbn [calls emit set_calls set_CurrentStep set_CurrentRound
      set_state]. rewrite slots_app. apply NoDup_app.
    split; [apply N |]. split.
    + intros s Hin Hin'.
      destruct (slots_StartRound_call k r p) as [E | (E & Hk)];
        rewrite E in Hin'; [by apply elem_of_nil in Hin' |].
      apply list_elem_of_singleton in Hin' as ->.
      by apply (S k), before_irrefl in Hin.
    + destruct (slots_StartRound_call k r p) as [-> | (-> & _)];
        [apply NoDup_nil_2 | apply NoDup_singleton].
Qed.

Lemma once_trySkip n r p q :
  once p → trySkipToFutureRound n r p = Some q → once q.
Proof.
  intros [S N]. unfold trySkipToFutureRound. intros Hq.
  case_decide as Hr; [by simplify_eq |].
  case_decide; [| by simplify_eq].
  eapply once_enter; [| exact N | exact Hq].
  intros k s Hin. destruct (S k s Hin) as [Hb | [-> _]].
  - eapply before_trans; [exact Hb |]. right. simpl. lia.
  - right. simpl. lia.
Qed.

Lemma slots_catch k e : catch_call e → slots k [e] = [].
Proof. by destruct k, e. Qed.

Lemma slots_catches k l : Forall catch_call l → slots k l = [].
Proof.
  induction 1 as [|e l He _ IH]; [done |].
  change (e :: l) with ([e] ++ l). by rewrite slots_app, slots_catch, IH.
Qed.

Lemma slots_commit k h (v : Value) :
  slots (Pid:=Pid) k [Commit h v] = [].
Proof. by destruct k. Qed.

Lemma once_tryCommit n r p q :
  once p → incrementable (CurrentHeight p) →
  tryCommitUponSufficientPrecommits n r p = Some q → once q.
Proof.
  intros [S N] Hh. unfold tryCommitUponSufficientPrecommits. intros Hq.
  destruct (ProposeLogs p !! r) as [propose|]; [| by simplify_eq].
  case_decide; [| by simplify_eq].
  rewrite (int_wrap_succ (CurrentHeight _)) in Hq by done.
  eapply once_enter; [| | exact Hq];
    cbn [calls emit set_calls Reset set_LockedValue set_LockedRound
      set_ValidValue set_ValidRound set_OnceFlags set_PrecommitLogs
      set_PrevoteLogs set_ProposeLogs set_CurrentHeight set_state
      CurrentHeight state].
  - intros k s. rewrite slots_app, slots_commit, app_nil_r. intros Hin.
    left. simpl. destruct (S k s Hin) as [[Hb | [Hb _]] | [-> _]]; simpl in *;
      lia.
  - intros k. rewrite slots_app, slots_commit, app_nil_r. apply N.
Qed.

(** A step that keeps height, round, step and once-flags, and at most adds
    a report to the catcher. *)
Lemma once_same p q l :
  once p → position q = position p → CurrentStep q = CurrentStep p →
  OnceFlags q = OnceFlags p → calls q = calls p ++ l → Forall catch_call l →
  once q.
Proof.
  intros [S N] Hp Hs Hf Hc Fl.
  assert (CurrentRound q = CurrentRound p) as Hr by (by injection Hp).
  assert (∀ k, slots k (calls q) = slots k (calls p)) as E.
  { intros k. rewrite Hc, slots_app.
    by rewrite (slots_catches k l Fl), app_nil_r. }
  split.
  - intros k s. rewrite E, Hp. intros Hin.
    destruct (S k s Hin) as [? | [? Hm]]; [by left | right].
    split; [done |]. destruct k; simpl in *; unfold checkOnceFlag in *;
      by rewrite ?Hs, ?Hf, ?Hr.
  - intros k. rewrite E. apply N.
Qed.

Lemma once_inserted ev p p1 :
  once p →
  match ev with
  | EvPropose m => ∃ ok, insertPropose m p = (ok, p1)
  | EvPrevote m => ∃ ok, insertPrevote m p = (ok, p1)
  | EvPrecommit m => ∃ ok, insertPrecommit m p = (ok, p1)
  | _ => p1 = p
  end →
  once p1.
Proof.
  intros Ho. destruct ev; try (by intros ->).
  - intros (ok & Hi). apply insertPropose_spec in Hi. destruct ok.
    + destruct Hi as (_ & _ & _ & _ & ->).
      apply (once_same p _ []); try done. by rewrite app_nil_r.
    + destruct Hi as [-> | (old & _ & _ & _ & ->)]; [done |].
      eapply (once_same p _ [_]); try done. by apply Forall_singleton.
  - intros (ok & Hi). apply insertPrevote_spec in Hi. destruct ok.
    + destruct Hi as (_ & _ & ->).
      apply (once_same p _ []); try done. by rewrite app_nil_r.
    + destruct Hi as [-> | (old & _ & _ & _ & ->)]; [done |].
      eapply (once_same p _ [_]); try done. by apply Forall_singleton.
  - intros (ok & Hi). apply insertPrecommit_spec in Hi. destruct ok.
    + destruct Hi as (_ & _ & ->).
      apply (once_same p _ []); try done. by rewrite app_nil_r.
    + destruct Hi as [-> | (old & _ & _ & _ & ->)]; [done |].
      eapply (once_same p _ [_]); try done. by apply Forall_singleton.
Qed.

(** The conditions tried before the commit rule leave the height alone. *)
Lemma trySkip_inserted_height n ev r p p1 x :
  match ev with
  | EvPropose m => ∃ ok, insertPropose m p = (ok, p1)
  | EvPrevote m => ∃ ok, insertPrevote m p = (ok, p1)
  | EvPrecommit m => ∃ ok, insertPrecommit m p = (ok, p1)
  | _ => p1 = p
  end →
  trySkipToFutureRound n r p1 = Some x →
  CurrentHeight x = CurrentHeight p.
Proof.
  intros Hi Hx. apply handle_inserted in Hi as (_ & <- & _).
  by apply trySkip_quiet, quiet_CurrentHeight in Hx.
Qed.

Lemma handle_once n ev p q :
  is_input ev →
  incrementable (CurrentHeight p) → incrementable (CurrentRound p) →
  once p → handle n ev p = Some q → once q.
Proof.
  destruct (cycle_acts n) as (IH1 & IH2 & IH3 & IH4 & IH5 & IH6).
  destruct ev; cbn [handle is_input]; intros Hin Hh Hr Ho Hq; try done.
  - unfold Process_Propose in Hq.
    destruct (insertPropose propose p) as [ok p1] eqn:Hi.
    assert (once p1) as Ho1
      by (apply (once_inserted (EvPropose propose) p); [done | by eexists]).
    destruct ok; cbn [negb] in Hq; run_inv; [| done].
    eapply once_acts; [| by apply IH2].
    eapply once_acts; [| by apply IH1].
    eapply once_acts; [| by apply IH3].
    eapply once_tryCommit; [| | eassumption]; [by eapply once_trySkip |].
    erewrite (trySkip_inserted_height _ (EvPropose propose));
      [exact Hh | by eexists | eassumption].
  - unfold Process_Prevote in Hq.
    destruct (insertPrevote prevote p) as [ok p1] eqn:Hi.
    assert (once p1) as Ho1
      by (apply (once_inserted (EvPrevote prevote) p); [done | by eexists]).
    destruct ok; cbn [negb] in Hq; run_inv; [| done].
    eapply once_acts; [| apply acts_tryTimeoutPrevote].
    eapply once_acts; [| by apply IH2].
    eapply once_acts; [| by apply IH4].
    eapply once_acts; [| by apply IH3].
    by eapply once_trySkip.
  - unfold Process_Precommit in Hq.
    destruct (insertPrecommit precommit p) as [ok p1] eqn:Hi.
    assert (once p1) as Ho1
      by (apply (once_inserted (EvPrecommit precommit) p);
          [done | by eexists]).
    destruct ok; cbn [negb] in Hq; run_inv; [| done].
    eapply once_acts; [| apply acts_tryTimeoutPrecommit].
    eapply once_tryCommit; [| | eassumption]; [by eapply once_trySkip |].
    erewrite (trySkip_inserted_height _ (EvPrecommit precommit));
      [exact Hh | by eexists | eassumption].
  - unfold OnTimeoutPropose in Hq. case_decide as Hd; [| by simplify_eq].
    destruct Hd as (_ & _ & Hs).
    eapply once_acts; [exact Ho |].
    eapply acts_trans; [by apply acts_prevote | by apply IH5].
  - unfold OnTimeoutPrevote in Hq. case_decide as Hd; [| by simplify_eq].
    destruct Hd as (_ & _ & Hs).
    eapply once_acts; [exact Ho |].
    eapply acts_trans; [| by apply IH6]. by apply acts_precommit.
  - unfold OnTimeoutPrecommit in Hq. case_decide as Hd; [| by simplify_eq].
    destruct Hd as (_ & ->). destruct Ho as [S N].
    rewrite int_wrap_succ in Hq by done.
    eapply once_enter; [| exact N | exact Hq].
    intros k s Hin'. destruct (S k s Hin') as [Hb | [-> _]].
    + eapply before_trans; [exact Hb |]. right. simpl. lia.
    + right. simpl. lia.
Qed.

Lemma running_once whoami f sched prop (valid : Value → bool) p :
  running (New (Pid:=Pid) whoami f sched prop valid) p → once p.
Proof.
  induction 1 as [n q Hq | p ev n q _ IH Hin Hh Hr Hq].
  - eapply once_enter; [| | exact Hq].
    + intros k s Hin. by apply elem_of_nil in Hin.
    + intros k. apply NoDup_nil_2.
  - by eapply handle_once.
Qed.

(** A process that is started and then given inputs is running, as long as
    its counters have room. *)
Lemma after_cons ev evs p : after (ev :: evs) p = after evs (after [ev] p).
Proof.
  pose proof (run_after (ev :: evs) p) as H. rewrite run_cons in H.
  apply bind_Some in H as (p' & Hp' & H).
  pose proof (run_after [ev] p) as H1. rewrite run_cons, Hp' in H1.
  cbn [mbind option_bind run foldl] in H1. injection H1 as <-.
  pose proof (run_after evs p') as H2. congruence.
Qed.

Lemma handle_after ev p : handle 5 ev p = Some (after [ev] p).
Proof.
  pose proof (run_after [ev] p) as H. rewrite run_cons in H.
  apply bind_Some in H as (p' & Hp' & H).
  cbn [run foldl] in H. congruence.
Qed.

Lemma running_run evs p0 p :
  Forall is_input evs → with_room evs p → running p0 p →
  running p0 (after evs p).
Proof.
  intros Hin. revert p.
  induction Hin as [|ev evs Hev _ IH]; intros p Hb Hp; [done |].
  rewrite after_cons. destruct Hb as (Hh & Hr & Hb).
  apply IH; [done |]. eapply running_step; [done ..| apply handle_after].
Qed.

Lemma running_after evs p :
  Forall is_input evs → with_room evs (after [EvStart] p) →
  running p (after (EvStart :: evs) p).
Proof.
  intros Hin Hb. rewrite after_cons. apply running_run; [done | done |].
  eapply running_start. apply (handle_after EvStart).
Qed.

(** X20.  A process that is started once and then given messages and
    timeouts makes each kind of call at most once for any height and round,
    for as long as its height and round counters do not wrap around (see
    [running]): it never broadcasts two proposals, two prevotes or two
    precommits for the same height and round, and never requests the same
    timeout twice. *)
Theorem calls_once whoami f sched prop (valid : Value → bool) p :
  running (New (Pid:=Pid) whoami f sched prop valid) p →
  ∀ k, NoDup (slots k (calls p)).
Proof. intros Hr. by apply once_NoDup, (running_once _ _ _ _ _ _ Hr). Qed.

(** * Steps and votes *)

Lemma stepwise_refl p : stepwise p p.
Proof.
  split; [done | lia |]. exists []. rewrite app_nil_r.
  by destruct (CurrentStep p).
Qed.

Lemma stepwise_trans p q r : stepwise p q → stepwise q r → stepwise p r.
Proof.
  intros [P1 R1 (l1 & E1 & V1 & C1)] [P2 R2 (l2 & E2 & V2 & C2)].
  split; [congruence | lia |].
  exists (l1 ++ l2). split; [by rewrite E2, E1, app_assoc |].
  rewrite !slots_app, V1, V2, C1, C2, P1.
  destruct (CurrentStep p), (CurrentStep q), (CurrentStep r); simpl in *;
    first [done | exfalso; lia].
Qed.

(** A step within the round that keeps the step and broadcasts no vote. *)
Lemma stepwise_same p q l :
  position q = position p → CurrentStep q = CurrentStep p →
  calls q = calls p ++ l →
  slots KindPrevote l = [] → slots KindPrecommit l = [] →
  stepwise p q.
Proof.
  intros P S E V C. split; [done | rewrite S; lia |].
  exists l. rewrite S, V, C. split; [done |]. by destruct (CurrentStep p).
Qed.

Lemma stepwise_quietly p q :
  position q = position p → CurrentStep q = CurrentStep p →
  calls q = calls p → stepwise p q.
Proof.
  intros P S E. apply (stepwise_same p q []); try done.
  by rewrite app_nil_r.
Qed.

Lemma stepwise_validated v p : stepwise p (validated v p).
Proof. by apply stepwise_quietly. Qed.

Lemma stepwise_prevote v p :
  CurrentStep p = Proposing →
  stepwise p
    (set_CurrentStep Prevoting
       (emit (BroadcastPrevote (CurrentHeight p) (CurrentRound p) v) p)).
Proof.
  intros Hs. split; [done | simpl; rewrite Hs; simpl; lia |].
  eexists [_]. split; [done |]. simpl. by rewrite Hs.
Qed.

Lemma stepwise_precommit v p p' :
  CurrentStep p = Prevoting →
  position p' = position p → calls p' = calls p →
  stepwise p
    (set_CurrentStep Precommitting
       (emit (BroadcastPrecommit (CurrentHeight p) (CurrentRound p) v) p')).
Proof.
  intros Hs Hp Hc. split; [done | simpl; rewrite Hs; simpl; lia |].
  eexists [_]. split; [simpl; by rewrite Hc |]. simpl. by rewrite Hs.
Qed.

Lemma stepwise_tryTimeoutPrevote p :
  stepwise p (tryTimeoutPrevoteUponSufficientPrevotes p).
Proof.
  unfold tryTimeoutPrevoteUponSufficientPrevotes.
  destruct (checkOnceFlag _ _ p); [apply stepwise_refl |].
  case_decide; [apply stepwise_refl |].
  case_decide; [| by apply stepwise_quietly].
  by eapply (stepwise_same p _ [_]).
Qed.


Lemma cycle_stepwise n :
  (∀ p q, tryPrevoteUponPropose n p = Some q → stepwise p q)
  ∧ (∀ p q, tryPrevoteUponSufficientPrevotes n p = Some q → stepwise p q)
  ∧ (∀ p q, tryPrecommitUponSufficientPrevotes n p = Some q → stepwise p q)
  ∧ (∀ p q, tryPrecommitNilUponSufficientPrevotes n p = Some q →
            stepwise p q)
  ∧ (∀ p q, stepToPrevoting n p = Some q →
            stepwise (set_CurrentStep Prevoting p) q)
  ∧ (∀ p q, stepToPrecommitting n p = Some q →
            stepwise (set_CurrentStep Precommitting p) q).
Proof.
  induction n as [|n (IH1 & IH2 & IH3 & IH4 & IH5 & IH6)].
  { repeat apply conj; intros p q Hq; discriminate Hq. }
  repeat apply conj; intros p q Hq.
  - simpl in Hq. run_inv; try apply stepwise_refl;
      (eapply stepwise_trans; [apply stepwise_prevote | by apply IH5]);
      by apply not_not_proposing.
  - simpl in Hq. run_inv; try apply stepwise_refl;
      (eapply stepwise_trans; [apply stepwise_prevote | by apply IH5]);
      by apply not_not_proposing.
  - rewrite tryPrecommitUponSufficientPrevotes_S in Hq.
    destruct (checkOnceFlag _ _ p); [simplify_eq; apply stepwise_refl |].
    case_decide; [simplify_eq; apply stepwise_refl |].
    destruct (ProposeLogs p !! CurrentRound p) as [propose|];
      [| simplify_eq; apply stepwise_refl].
    case_decide; [simplify_eq; apply stepwise_refl |].
    case_decide as Hs.
    + apply bind_Some in Hq as ([x b] & Hx & Hq).
      apply bind_Some in Hx as (x' & Hx & [= <- <-]).
      apply bind_Some in Hq as (x1 & H1 & Hq).
      eapply stepwise_trans;
        [by apply (stepwise_precommit (Propose_Value propose) p
                     (set_LockedRound (CurrentRound p)
                        (set_LockedValue (Propose_Value propose) p))) |].
      eapply stepwise_trans; [by apply IH6, Hx |].
      eapply stepwise_trans; [apply stepwise_validated |].
      eapply stepwise_trans; [by apply IH1 | by apply IH2].
    + rewrite bind_Some_eq in Hq. simplify_eq. apply stepwise_validated.
  - simpl in Hq. run_inv; try apply stepwise_refl.
    eapply stepwise_trans; [| by apply IH6].
    apply stepwise_precommit; try done. by apply not_not_prevoting.
  - rewrite stepToPrevoting_S in Hq. run_inv.
    eapply stepwise_trans; [by apply IH3 |].
    eapply stepwise_trans; [by apply IH4 |].
    apply stepwise_tryTimeoutPrevote.
  - rewrite stepToPrecommitting_S in Hq. by apply IH3.
Qed.


(** ** Starting a round *)


(** ** Prevoting upon a proposal *)


(** ** Timeouts that are due *)

(** X12.  The timeouts, when they are due.  The propose timeout of the
    current height and round, in step Proposing, makes the process broadcast
    a prevote for nil and step to Prevoting, the conditions retried after
    that broadcasting no further prevote: it is in step Prevoting afterwards,
    unless they have broadcast its precommit for the round, which takes it on
    to step Precommitting.  The prevote timeout, in step
    Prevoting, makes it broadcast one precommit for nil and step to
    Precommitting, its lock staying as it is.  The precommit timeout starts
    the next round, whatever the step: the process enters the round that the
    [int64] increment of [r] gives ([r + 1], and [-2^63] after the last
    round, [2^63 - 1]) at the same height, its first call there being its
    proposal (when it is the scheduled proposer of that round) or the propose
    timeout request.  In all three cases the logs and the height stay as
    they are. *)
Theorem due_timeouts n p :
  let h := CurrentHeight p in
  let r := CurrentRound p in
  (CurrentStep p = Proposing →
   ∃ q l, OnTimeoutPropose (4 + n) h r p = Some q
          ∧ CurrentStep q ≠ Proposing
          ∧ calls q = calls p ++ BroadcastPrevote h r NilValue :: l
          ∧ Forall past_call l
          ∧ frame p q
          ∧ (CurrentStep q = Prevoting ∧ slots KindPrecommit l = []
             ∨ CurrentStep q = Precommitting
               ∧ slots KindPrecommit l = [(h, r)]))
  ∧ (CurrentStep p = Prevoting →
     ∃ q, OnTimeoutPrevote (2 + n) h r p = Some q
          ∧ CurrentStep q = Precommitting
          ∧ calls q = calls p ++ [BroadcastPrecommit h r NilValue]
          ∧ LockedValue q = LockedValue p
          ∧ LockedRound q = LockedRound p
          ∧ frame p q)
  ∧ (∃ q l, OnTimeoutPrecommit (5 + n) h r p = Some q
            ∧ CurrentRound q = int_wrap (r + 1)
            ∧ (incrementable r → CurrentRound q = r + 1)
            ∧ CurrentHeight q = h
            ∧ calls q = calls p ++ StartRound_call (int_wrap (r + 1)) p :: l
            ∧ Forall retry_call l
            ∧ ProposeLogs q = ProposeLogs p
            ∧ PrevoteLogs q = PrevoteLogs p
            ∧ PrecommitLogs q = PrecommitLogs p).
Proof.
  intros h r. split; [| split].
  - intros Hs.
    destruct (timeout_propose_prevotes_nil n p Hs)
      as (q & l & Hq & H1 & E & Fl & Hf).
    exists q, l. do 5 (split; [done |]).
    unfold OnTimeoutPropose in Hq. rewrite decide_True in Hq by done.
    destruct (cycle_stepwise (4 + n)) as (_ & _ & _ & _ & S5 & _).
    destruct (S5 _ _ Hq) as [_ R (l' & E' & _ & C)].
    cbn [calls emit set_calls set_CurrentStep set_state] in E'.
    rewrite E, <- app_assoc in E'. apply app_inv_head in E'.
    injection E' as <-. rewrite C.
    cbn [CurrentStep emit set_calls set_CurrentStep set_state state
      position CurrentHeight CurrentRound] in *.
    destruct (CurrentStep q); simpl in *; first [by auto | exfalso; lia].
  - apply timeout_prevote_precommits_nil.
  - apply timeout_precommit_starts_next_round.
Qed.

(** ** The lock, the valid value and the round *)

Lemma relocks_refl p : relocks p p.
Proof. split; [done |]. left. by auto. Qed.

Lemma relocks_trans p q r : relocks p q → relocks q r → relocks p r.
Proof. unfold relocks. intros [R1 H1] [R2 H2]. rewrite R1 in *. lia. Qed.

Lemma relocks_same p q :
  CurrentRound q = CurrentRound p → LockedRound q = LockedRound p →
  ValidRound q = ValidRound p → relocks p q.
Proof. unfold relocks. lia. Qed.

Lemma relocks_tryTimeoutPrevote p :
  relocks p (tryTimeoutPrevoteUponSufficientPrevotes p).
Proof.
  unfold tryTimeoutPrevoteUponSufficientPrevotes.
  destruct (checkOnceFlag _ _ p); [apply relocks_refl |].
  repeat case_decide; by apply relocks_same.
Qed.

Lemma relocks_tryTimeoutPrecommit p :
  relocks p (tryTimeoutPrecommitUponSufficientPrecommits p).
Proof.
  unfold tryTimeoutPrecommitUponSufficientPrecommits.
  destruct (checkOnceFlag _ _ p); [apply relocks_refl |].
  repeat case_decide; by apply relocks_same.
Qed.

Lemma cycle_relocks n :
  cycle_runs_in (Pid:=Pid) (Value:=Value) relocks n.
Proof.
  induction n as [|n (IH1 & IH2 & IH3 & IH4 & IH5 & IH6)].
  { repeat apply conj; intros p q Hq; discriminate Hq. }
  repeat apply conj; intros p q Hq.
  - simpl in Hq. run_inv; try apply relocks_refl;
      (eapply relocks_trans; [| by apply IH5]); by apply relocks_same.
  - simpl in Hq. run_inv; try apply relocks_refl;
      (eapply relocks_trans; [| by apply IH5]); by apply relocks_same.
  - rewrite tryPrecommitUponSufficientPrevotes_S in Hq.
    destruct (checkOnceFlag _ _ p); [simplify_eq; apply relocks_refl |].
    case_decide; [simplify_eq; apply relocks_refl |].
    destruct (ProposeLogs p !! CurrentRound p) as [propose|];
      [| simplify_eq; apply relocks_refl].
    case_decide; [simplify_eq; apply relocks_refl |].
    case_decide as Hs.
    + apply bind_Some in Hq as ([x b] & Hx & Hq).
      apply bind_Some in Hx as (x' & Hx & [= <- <-]).
      apply bind_Some in Hq as (x1 & H1 & Hq).
      apply IH6 in Hx. apply IH1 in H1. apply IH2 in Hq.
      eapply relocks_trans; [| exact Hq].
      eapply relocks_trans; [| exact H1].
      destruct Hx as [Rx Hx]. unfold relocks. simpl in *. lia.
    + rewrite bind_Some_eq in Hq. simplify_eq. unfold relocks. simpl. lia.
  - simpl in Hq. run_inv; try apply relocks_refl.
    eapply relocks_trans; [| by apply IH6]. by apply relocks_same.
  - rewrite stepToPrevoting_S in Hq. run_inv.
    eapply relocks_trans; [| apply relocks_tryTimeoutPrevote].
    eapply relocks_trans; [| by apply IH4].
    eapply relocks_trans; [| by apply IH3]. by apply relocks_same.
  - rewrite stepToPrecommitting_S in Hq.
    eapply relocks_trans; [| by apply IH3]. by apply relocks_same.
Qed.

Lemma ordered_relocks p q : ordered p → relocks p q → ordered q.
Proof. unfold ordered, relocks. lia. Qed.

Lemma StartRound_relocks n r p q :
  StartRound n r p = Some q → relocks (set_CurrentRound r p) q.
Proof.
  destruct (cycle_relocks n) as (IH1 & IH2 & IH3 & IH4 & IH5 & IH6).
  rewrite StartRound_eq. intros Hq. run_inv.
  eapply relocks_trans; [| apply relocks_tryTimeoutPrevote].
  eapply relocks_trans; [| apply relocks_tryTimeoutPrecommit].
  eapply relocks_trans; [| by apply IH2].
  eapply relocks_trans; [| by apply IH1].
  eapply relocks_trans; [| by apply IH4].
  eapply relocks_trans; [| by apply IH3]. by apply relocks_same.
Qed.

Lemma ordered_StartRound n r p q :
  InvalidRound <= LockedRound p <= ValidRound p → ValidRound p <= r →
  StartRound n r p = Some q → ordered q.
Proof.
  intros H1 H2 Hq. apply StartRound_relocks in Hq.
  eapply ordered_relocks; [| exact Hq]. by split.
Qed.

Lemma ordered_trySkip n r p q :
  ordered p → trySkipToFutureRound n r p = Some q → ordered q.
Proof.
  intros Ho. unfold trySkipToFutureRound. intros Hq.
  case_decide as Hr; [by simplify_eq |].
  case_decide; [| by simplify_eq].
  destruct Ho as [H1 H2]. eapply ordered_StartRound; [exact H1 | | exact Hq].
  lia.
Qed.

Lemma ordered_tryCommit n r p q :
  ordered p → tryCommitUponSufficientPrecommits n r p = Some q → ordered q.
Proof.
  intros Ho. unfold tryCommitUponSufficientPrecommits. intros Hq.
  destruct (ProposeLogs p !! r) as [propose|]; [| by simplify_eq].
  case_decide; [| by simplify_eq].
  eapply ordered_StartRound; [| | exact Hq]; simpl; unfold InvalidRound; lia.
Qed.

Lemma ordered_inserted ev p p1 :
  ordered p →
  match ev with
  | EvPropose m => ∃ ok, insertPropose m p = (ok, p1)
  | EvPrevote m => ∃ ok, insertPrevote m p = (ok, p1)
  | EvPrecommit m => ∃ ok, insertPrecommit m p = (ok, p1)
  | _ => p1 = p
  end →
  ordered p1 ∧ position p1 = position p ∧ CurrentStep p1 = CurrentStep p.
Proof.
  intros Ho. destruct ev; try (by intros ->).
  - intros (ok & Hi). apply insertPropose_spec in Hi. destruct ok.
    + by destruct Hi as (_ & _ & _ & _ & ->).
    + by destruct Hi as [-> | (old & _ & _ & _ & ->)].
  - intros (ok & Hi). apply insertPrevote_spec in Hi. destruct ok.
    + by destruct Hi as (_ & _ & ->).
    + by destruct Hi as [-> | (old & _ & _ & _ & ->)].
  - intros (ok & Hi). apply insertPrecommit_spec in Hi. destruct ok.
    + by destruct Hi as (_ & _ & ->).
    + by destruct Hi as [-> | (old & _ & _ & _ & ->)].
Qed.

Lemma handle_ordered n ev p q :
  is_input ev → incrementable (CurrentRound p) → ordered p →
  handle n ev p = Some q → ordered q.
Proof.
  destruct (cycle_relocks n) as (IH1 & IH2 & IH3 & IH4 & IH5 & IH6).
  destruct ev; cbn [handle is_input]; intros Hin Hr Ho Hq; try done.
  - unfold Process_Propose in Hq.
    destruct (insertPropose propose p) as [ok p1] eqn:Hi.
    destruct (ordered_inserted (EvPropose propose) p p1 Ho) as (Ho1 & _);
      [by eexists |].
    destruct ok; cbn [negb] in Hq; run_inv; [| done].
    eapply ordered_relocks; [| by apply IH2].
    eapply ordered_relocks; [| by apply IH1].
    eapply ordered_relocks; [| by apply IH3].
    eapply ordered_tryCommit; [| done]. by eapply ordered_trySkip.
  - unfold Process_Prevote in Hq.
    destruct (insertPrevote prevote p) as [ok p1] eqn:Hi.
    destruct (ordered_inserted (EvPrevote prevote) p p1 Ho) as (Ho1 & _);
      [by eexists |].
    destruct ok; cbn [negb] in Hq; run_inv; [| done].
    eapply ordered_relocks; [| apply relocks_tryTimeoutPrevote].
    eapply ordered_relocks; [| by apply IH2].
    eapply ordered_relocks; [| by apply IH4].
    eapply ordered_relocks; [| by apply IH3].
    by eapply ordered_trySkip.
  - unfold Process_Precommit in Hq.
    destruct (insertPrecommit precommit p) as [ok p1] eqn:Hi.
    destruct (ordered_inserted (EvPrecommit precommit) p p1 Ho)
      as (Ho1 & _); [by eexists |].
    destruct ok; cbn [negb] in Hq; run_inv; [| done].
    eapply ordered_relocks; [| apply relocks_tryTimeoutPrecommit].
    eapply ordered_tryCommit; [| done]. by eapply ordered_trySkip.
  - unfold OnTimeoutPropose in Hq. case_decide as Hd; [| by simplify_eq].
    eapply ordered_relocks; [exact Ho |].
    eapply relocks_trans; [| by apply IH5]. by apply relocks_same.
  - unfold OnTimeoutPrevote in Hq. case_decide as Hd; [| by simplify_eq].
    eapply ordered_relocks; [exact Ho |].
    eapply relocks_trans; [| by apply IH6]. by apply relocks_same.
  - unfold OnTimeoutPrecommit in Hq. case_decide as Hd; [| by simplify_eq].
    destruct Hd as (_ & ->). destruct Ho as [H1 H2].
    rewrite int_wrap_succ in Hq by done.
    eapply ordered_StartRound; [exact H1 | | exact Hq]. lia.
Qed.

(** X21.  In a process that is started once and then given messages and
    timeouts, for as long as its height and round counters do not wrap
    around (see [running]), the locked round is never after the valid round,
    and the valid round never after the current round; the locked round is
    the invalid round [-1] or a later one. *)
Theorem lock_order whoami f sched prop (valid : Value → bool) p :
  running (New (Pid:=Pid) whoami f sched prop valid) p →
  InvalidRound <= LockedRound p
  ∧ LockedRound p <= ValidRound p
  ∧ ValidRound p <= CurrentRound p.
Proof.
  intros Hr. enough (ordered p) as [[? ?] ?]; [done |].
  induction Hr as [n q Hq | p ev n q _ IH Hin Hh Hr Hq].
  - eapply ordered_StartRound; [| | exact Hq]; simpl; unfold InvalidRound;
      lia.
  - by eapply handle_ordered.
Qed.

(** ** No way back *)

Lemma forward_refl p : forward p p.
Proof. right. split; [done | lia]. Qed.

Lemma forward_trans p q r : forward p q → forward q r → forward p r.
Proof.
  unfold forward, before, position.
  intros [H1 | [H1 S1]] [H2 | [H2 S2]]; simplify_eq/=; [left; lia .. |].
  right. split; [congruence | lia].
Qed.

Lemma acts_forward p q : acts p q → forward p q.
Proof.
  intros [P M _]. right. split; [done |].
  pose proof (M KindPrevote) as M1. pose proof (M KindPrecommit) as M2.
  simpl in *. destruct (CurrentStep p), (CurrentStep q); simpl; try lia.
  - by destruct M1.
  - by discriminate M2.
  - by discriminate M2.
Qed.

Lemma StartRound_forward n r p q :
  CurrentRound p < r → StartRound n r p = Some q → forward p q.
Proof.
  intros Hr Hq. apply StartRound_acts in Hq as [P _ _].
  left. rewrite P. right. simpl. lia.
Qed.

Lemma trySkip_forward n r p q :
  trySkipToFutureRound n r p = Some q → forward p q.
Proof.
  unfold trySkipToFutureRound. intros Hq.
  case_decide as Hr; [simplify_eq; apply forward_refl |].
  case_decide; [| simplify_eq; apply forward_refl].
  eapply StartRound_forward; [| exact Hq]. lia.
Qed.

Lemma tryCommit_forward n r p q :
  incrementable (CurrentHeight p) →
  tryCommitUponSufficientPrecommits n r p = Some q → forward p q.
Proof.
  unfold tryCommitUponSufficientPrecommits. intros Hh Hq.
  destruct (ProposeLogs p !! r) as [propose|];
    [| simplify_eq; apply forward_refl].
  case_decide; [| simplify_eq; apply forward_refl].
  rewrite (int_wrap_succ (CurrentHeight _)) in Hq by done.
  apply StartRound_acts in Hq as [P _ _].
  left. rewrite P. left. simpl. lia.
Qed.

Lemma inserted_state ev p p1 :
  match ev with
  | EvPropose m => ∃ ok, insertPropose m p = (ok, p1)
  | EvPrevote m => ∃ ok, insertPrevote m p = (ok, p1)
  | EvPrecommit m => ∃ ok, insertPrecommit m p = (ok, p1)
  | _ => p1 = p
  end →
  state p1 = state p.
Proof.
  destruct ev; try (by intros ->).
  - intros (ok & Hi). apply insertPropose_spec in Hi. destruct ok.
    + by destruct Hi as (_ & _ & _ & _ & ->).
    + by destruct Hi as [-> | (old & _ & _ & _ & ->)].
  - intros (ok & Hi). apply insertPrevote_spec in Hi. destruct ok.
    + by destruct Hi as (_ & _ & ->).
    + by destruct Hi as [-> | (old & _ & _ & _ & ->)].
  - intros (ok & Hi). apply insertPrecommit_spec in Hi. destruct ok.
    + by destruct Hi as (_ & _ & ->).
    + by destruct Hi as [-> | (old & _ & _ & _ & ->)].
Qed.

Lemma forward_same p q : state q = state p → forward p q.
Proof. intros E. right. unfold position. rewrite E. split; [done | lia]. Qed.

Lemma handle_forward n ev p q :
  is_input ev →
  incrementable (CurrentHeight p) → incrementable (CurrentRound p) →
  handle n ev p = Some q → forward p q.
Proof.
  destruct (cycle_acts n) as (IH1 & IH2 & IH3 & IH4 & IH5 & IH6).
  destruct ev; cbn [handle is_input]; intros Hin Hh Hr Hq; try done.
  - unfold Process_Propose in Hq.
    destruct (insertPropose propose p) as [ok p1] eqn:Hi.
    assert (forward p p1) as Hf.
    { apply forward_same, (inserted_state (EvPropose propose)). by eexists. }
    destruct ok; cbn [negb] in Hq; run_inv; [| done].
    eapply forward_trans; [exact Hf |].
    eapply forward_trans; [by eapply trySkip_forward |].
    eapply forward_trans.
    { eapply tryCommit_forward; [| eassumption].
      erewrite (trySkip_inserted_height _ (EvPropose propose));
        [exact Hh | by eexists | eassumption]. }
    eapply forward_trans; [by eapply acts_forward, IH3 |].
    eapply forward_trans; [by eapply acts_forward, IH1 |].
    by eapply acts_forward, IH2.
  - unfold Process_Prevote in Hq.
    destruct (insertPrevote prevote p) as [ok p1] eqn:Hi.
    assert (forward p p1) as Hf.
    { apply forward_same, (inserted_state (EvPrevote prevote)). by eexists. }
    destruct ok; cbn [negb] in Hq; run_inv; [| done].
    eapply forward_trans; [exact Hf |].
    eapply forward_trans; [by eapply trySkip_forward |].
    eapply forward_trans; [by eapply acts_forward, IH3 |].
    eapply forward_trans; [by eapply acts_forward, IH4 |].
    eapply forward_trans; [by eapply acts_forward, IH2 |].
    apply acts_forward, acts_tryTimeoutPrevote.
  - unfold Process_Precommit in Hq.
    destruct (insertPrecommit precommit p) as [ok p1] eqn:Hi.
    assert (forward p p1) as Hf.
    { apply forward_same, (inserted_state (EvPrecommit precommit)).
      by eexists. }
    destruct ok; cbn [negb] in Hq; run_inv; [| done].
    eapply forward_trans; [exact Hf |].
    eapply forward_trans; [by eapply trySkip_forward |].
    eapply forward_trans.
    { eapply tryCommit_forward; [| eassumption].
      erewrite (trySkip_inserted_height _ (EvPrecommit precommit));
        [exact Hh | by eexists | eassumption]. }
    apply acts_forward, acts_tryTimeoutPrecommit.
  - unfold OnTimeoutPropose in Hq.
    case_decide as Hd; [| simplify_eq; apply forward_refl].
    destruct Hd as (_ & _ & Hs). apply acts_forward.
    eapply acts_trans; [by apply acts_prevote | by apply IH5].
  - unfold OnTimeoutPrevote in Hq.
    case_decide as Hd; [| simplify_eq; apply forward_refl].
    destruct Hd as (_ & _ & Hs). apply acts_forward.
    eapply acts_trans; [| by apply IH6]. by apply acts_precommit.
  - unfold OnTimeoutPrecommit in Hq.
    case_decide as Hd; [| simplify_eq; apply forward_refl].
    destruct Hd as (_ & ->). rewrite int_wrap_succ in Hq by done.
    eapply StartRound_forward; [| exact Hq]. lia.
Qed.

(** X22.  A message or a timeout never takes the process back, unless a
    counter wraps around: when neither the height nor the round is the
    largest [int64], the process is afterwards at a later height, or at the
    same height in a later round, or at the same height and round in the
    same or a later step. *)
Theorem never_back n ev p :
  is_input ev →
  incrementable (CurrentHeight p) → incrementable (CurrentRound p) →
  ∃ q, handle (5 + n) ev p = Some q
       ∧ (CurrentHeight p < CurrentHeight q
          ∨ CurrentHeight q = CurrentHeight p
            ∧ (CurrentRound p < CurrentRound q
               ∨ CurrentRound q = CurrentRound p
                 ∧ Step_rank (CurrentStep p) <= Step_rank (CurrentStep q))).
Proof.
  intros Hin Hh Hr. destruct (handle_total n ev p) as (q & Hq). exists q.
  split; [exact Hq |].
  destruct (handle_forward _ _ _ _ Hin Hh Hr Hq) as [[H | [H1 H2]] | [H S]];
    simpl in *; [by left | right; by auto |].
  injection H as H1 H2. right. by auto.
Qed.

(** ** Votes are borne out by the logs *)

Lemma backed_nil p e : ProposeLogs p = ∅ → backed p e → ∀ p', backed p' e.
Proof.
  intros Hl Hb p'. destruct e; try done; simpl in *.
  - destruct Hb as [? | (_ & m & Hm & _)]; [by left |].
    by rewrite Hl, lookup_empty in Hm.
  - destruct Hb as [? | (_ & m & Hm & _)]; [by left |].
    by rewrite Hl, lookup_empty in Hm.
Qed.

Lemma backed_same p q e :
  F q = F p → CurrentHeight q = CurrentHeight p →
  ProposeLogs q = ProposeLogs p → PrevoteLogs q = PrevoteLogs p →
  backed q e → backed p e.
Proof.
  intros HF Hh H1 H2. destruct e; try done; simpl; unfold prevotesAt;
    by rewrite ?HF, Hh, H1, ?H2.
Qed.

Lemma backs_refl p : backs p p.
Proof.
  split; [done |]. split; [by right |]. exists []. by rewrite app_nil_r.
Qed.

Lemma backs_trans p q r : backs p q → backs q r → backs p r.
Proof.
  intros (F1 & L1 & l1 & E1 & B1) (F2 & L2 & l2 & E2 & B2).
  split; [congruence |]. split.
  - destruct L2 as [? | (? & ? & ?)]; [by left |].
    destruct L1 as [? | (? & ? & ?)]; [left; congruence |].
    right. repeat split; congruence.
  - exists (l1 ++ l2). split; [by rewrite E2, E1, app_assoc |].
    apply Forall_app. split; [done |].
    eapply Forall_impl; [exact B2 |]. intros e He.
    destruct L1 as [L1 | (? & ? & ?)]; [by apply (backed_nil q) |].
    by apply (backed_same p q).
Qed.

(** A step that keeps height, logs and [F], and makes no call. *)
Lemma backs_silent p q :
  F q = F p → CurrentHeight q = CurrentHeight p →
  ProposeLogs q = ProposeLogs p → PrevoteLogs q = PrevoteLogs p →
  calls q = calls p → backs p q.
Proof.
  intros HF Hh H1 H2 Hc. split; [done |]. split; [by right |].
  exists []. by rewrite app_nil_r.
Qed.

Lemma backs_emit p p' e :
  F p' = F p → CurrentHeight p' = CurrentHeight p →
  ProposeLogs p' = ProposeLogs p → PrevoteLogs p' = PrevoteLogs p →
  calls p' = calls p → backed p e → backs p (emit e p').
Proof.
  intros HF Hh H1 H2 Hc He. split; [done |]. split; [by right |].
  exists [e]. split; [simpl; by rewrite Hc | by apply Forall_singleton].
Qed.

Lemma backs_tryTimeoutPrevote p :
  backs p (tryTimeoutPrevoteUponSufficientPrevotes p).
Proof.
  unfold tryTimeoutPrevoteUponSufficientPrevotes.
  destruct (checkOnceFlag _ _ p); [apply backs_refl |].
  case_decide; [apply backs_refl |]. case_decide.
  - apply (backs_trans _
             (emit (TimeoutPrevote (CurrentHeight p) (CurrentRound p)) p));
      [by apply (backs_emit p p) | by apply backs_silent].
  - by apply backs_silent.
Qed.

Lemma backs_tryTimeoutPrecommit p :
  backs p (tryTimeoutPrecommitUponSufficientPrecommits p).
Proof.
  unfold tryTimeoutPrecommitUponSufficientPrecommits.
  destruct (checkOnceFlag _ _ p); [apply backs_refl |].
  case_decide; [| apply backs_refl].
  apply (backs_trans _
           (emit (TimeoutPrecommit (CurrentHeight p) (CurrentRound p)) p));
    [by apply (backs_emit p p) | by apply backs_silent].
Qed.

Lemma backs_prevote p propose v :
  ProposeLogs p !! CurrentRound p = Some propose →
  v = NilValue ∨ v = Propose_Value propose →
  backs p (set_CurrentStep Prevoting
             (emit (BroadcastPrevote (CurrentHeight p) (CurrentRound p) v)
                p)).
Proof.
  intros Hl Hv. eapply backs_trans; [| by apply backs_silent].
  apply (backs_emit p p); try done. simpl.
  destruct Hv as [-> | ->]; [by left | right]. by eauto.
Qed.

Lemma cycle_backs n : cycle_runs_in (Pid:=Pid) (Value:=Value) backs n.
Proof.
  induction n as [|n (IH1 & IH2 & IH3 & IH4 & IH5 & IH6)].
  { repeat apply conj; intros p q Hq; discriminate Hq. }
  repeat apply conj; intros p q Hq.
  - simpl in Hq. run_inv; try apply backs_refl;
      (eapply backs_trans; [| by apply IH5]);
      apply (backs_emit p p); try done; simpl; [right | by left]. by eauto.
  - simpl in Hq. run_inv; try apply backs_refl;
      (eapply backs_trans; [| by apply IH5]);
      apply (backs_emit p p); try done; simpl; [right | by left]. by eauto.
  - rewrite tryPrecommitUponSufficientPrevotes_S in Hq.
    destruct (checkOnceFlag _ _ p); [simplify_eq; apply backs_refl |].
    case_decide; [simplify_eq; apply backs_refl |].
    destruct (ProposeLogs p !! CurrentRound p) as [propose|] eqn:Hl;
      [| simplify_eq; apply backs_refl].
    case_decide as Hc; [simplify_eq; apply backs_refl |].
    case_decide as Hs.
    + apply bind_Some in Hq as ([x b] & Hx & Hq).
      apply bind_Some in Hx as (x' & Hx & [= <- <-]).
      apply bind_Some in Hq as (x1 & H1 & Hq).
      apply (backs_trans _ (locked (Propose_Value propose) p)).
      { unfold locked. apply backs_emit; try done. simpl. right.
        split; [done |]. exists propose.
        split; [done |]. split; [done | lia]. }
      apply (backs_trans _ x'); [by apply IH6 |].
      apply (backs_trans _ (validated (Propose_Value propose) x'));
        [by apply backs_silent |].
      apply (backs_trans _ x1); [by apply IH1 | by apply IH2].
    + rewrite bind_Some_eq in Hq. simplify_eq. by apply backs_silent.
  - simpl in Hq. run_inv; try apply backs_refl.
    eapply backs_trans; [| by apply IH6].
    apply (backs_emit p p); try done. simpl. by left.
  - rewrite stepToPrevoting_S in Hq. run_inv.
    apply (backs_trans _ (set_CurrentStep Prevoting p));
      [by apply backs_silent |].
    eapply backs_trans; [by apply IH3 |].
    eapply backs_trans; [by apply IH4 |]. apply backs_tryTimeoutPrevote.
  - rewrite stepToPrecommitting_S in Hq.
    apply (backs_trans _ (set_CurrentStep Precommitting p));
      [by apply backs_silent | by apply IH3].
Qed.

Lemma backed_StartRound_call r p : backed p (StartRound_call r p).
Proof. unfold StartRound_call. by case_decide. Qed.

Lemma StartRound_backs n r p q : StartRound n r p = Some q → backs p q.
Proof.
  destruct (cycle_backs n) as (IH1 & IH2 & IH3 & IH4 & IH5 & IH6).
  rewrite StartRound_eq. intros Hq. run_inv.
  eapply backs_trans; [| apply backs_tryTimeoutPrevote].
  eapply backs_trans; [| apply backs_tryTimeoutPrecommit].
  eapply backs_trans; [| by apply IH2].
  eapply backs_trans; [| by apply IH1].
  eapply backs_trans; [| by apply IH4].
  eapply backs_trans; [| by apply IH3].
  apply (backs_emit p (set_CurrentStep Proposing (set_CurrentRound r p)));
    try done.
  apply backed_StartRound_call.
Qed.

Lemma trySkip_backs n r p q : trySkipToFutureRound n r p = Some q → backs p q.
Proof.
  unfold trySkipToFutureRound. intros Hq.
  case_decide; [simplify_eq; apply backs_refl |].
  case_decide; [| simplify_eq; apply backs_refl].
  by eapply StartRound_backs.
Qed.

Lemma tryCommit_backs n r p q :
  tryCommitUponSufficientPrecommits n r p = Some q → backs p q.
Proof.
  unfold tryCommitUponSufficientPrecommits. intros Hq.
  destruct (ProposeLogs p !! r) as [propose|];
    [| simplify_eq; apply backs_refl].
  case_decide; [| simplify_eq; apply backs_refl].
  eapply backs_trans; [| by eapply StartRound_backs].
  split; [done |]. split; [by left |].
  eexists [_]. split; [done |]. by apply Forall_singleton.
Qed.

Lemma inserted_inserted ev p :
  match ev with
  | EvPropose m => ∃ ok, insertPropose m p = (ok, inserted ev p)
  | EvPrevote m => ∃ ok, insertPrevote m p = (ok, inserted ev p)
  | EvPrecommit m => ∃ ok, insertPrecommit m p = (ok, inserted ev p)
  | _ => inserted ev p = p
  end.
Proof.
  destruct ev; cbn [inserted]; try done; eexists; apply surjective_pairing.
Qed.

Lemma handle_backs n ev p q :
  handle n ev p = Some q →
  ∃ l, calls q = calls p ++ l ∧ Forall (backed (inserted ev p)) l.
Proof.
  destruct (cycle_backs n) as (IH1 & IH2 & IH3 & IH4 & IH5 & IH6).
  intros Hq.
  enough (∃ p1, backs p1 q
                ∧ match ev with
                  | EvPropose m => ∃ ok, insertPropose m p = (ok, p1)
                  | EvPrevote m => ∃ ok, insertPrevote m p = (ok, p1)
                  | EvPrecommit m => ∃ ok, insertPrecommit m p = (ok, p1)
                  | _ => p1 = p
                  end) as (p1 & (_ & _ & l & E & Fl) & Hi).
  { apply handle_inserted in Hi as (-> & _ & _ & _ & _ & Hc).
    destruct Hc as [Hc | (e & He & Hc)]; rewrite Hc in E.
    - by exists l.
    - exists ([e] ++ l). split; [by rewrite E, app_assoc |].
      apply Forall_app. split; [| done]. apply Forall_singleton.
      by destruct e. }
  destruct ev; cbn [handle] in Hq.
  - exists p. split; [by eapply StartRound_backs | done].
  - exists p. split; [by eapply StartRound_backs | done].
  - unfold Process_Propose in Hq.
    destruct (insertPropose propose p) as [ok p1] eqn:Hi. exists p1.
    split; [| by eexists].
    destruct ok; cbn [negb] in Hq; run_inv; [| apply backs_refl].
    eapply backs_trans; [by eapply trySkip_backs |].
    eapply backs_trans; [by eapply tryCommit_backs |].
    eapply backs_trans; [by apply IH3 |].
    eapply backs_trans; [by apply IH1 | by apply IH2].
  - unfold Process_Prevote in Hq.
    destruct (insertPrevote prevote p) as [ok p1] eqn:Hi. exists p1.
    split; [| by eexists].
    destruct ok; cbn [negb] in Hq; run_inv; [| apply backs_refl].
    eapply backs_trans; [by eapply trySkip_backs |].
    eapply backs_trans; [by apply IH3 |].
    eapply backs_trans; [by apply IH4 |].
    eapply backs_trans; [by apply IH2 |]. apply backs_tryTimeoutPrevote.
  - unfold Process_Precommit in Hq.
    destruct (insertPrecommit precommit p) as [ok p1] eqn:Hi. exists p1.
    split; [| by eexists].
    destruct ok; cbn [negb] in Hq; run_inv; [| apply backs_refl].
    eapply backs_trans; [by eapply trySkip_backs |].
    eapply backs_trans; [by eapply tryCommit_backs |].
    apply backs_tryTimeoutPrecommit.
  - exists p. split; [| done]. unfold OnTimeoutPropose in Hq.
    run_inv; [| apply backs_refl].
    eapply backs_trans; [| by apply IH5].
    apply (backs_emit p p); try done. simpl. by left.
  - exists p. split; [| done]. unfold OnTimeoutPrevote in Hq.
    run_inv; [| apply backs_refl].
    eapply backs_trans; [| by apply IH6].
    apply (backs_emit p p); try done. simpl. by left.
  - exists p. split; [| done]. unfold OnTimeoutPrecommit in Hq.
    run_inv; [| apply backs_refl]. by eapply StartRound_backs.
Qed.

(** X23.  Whatever the event, a prevote that the process broadcasts for a
    value other than nil is for the value of the proposal that its log holds
    for the round of the vote, and a precommit that it broadcasts for a value
    other than nil has, besides, at least [2F + 1] prevotes of that round for
    the value in the log; both carry the height the process is at.  (The log
    is the one after the insertion of the message delivered.) *)
Theorem votes_backed n ev p :
  ∃ q l, handle (5 + n) ev p = Some q
         ∧ calls q = calls p ++ l
         ∧ (∀ h r v, v ≠ NilValue → BroadcastPrevote h r v ∈ l →
              h = CurrentHeight p
              ∧ ∃ propose, ProposeLogs (inserted ev p) !! r = Some propose
                           ∧ Propose_Value propose = v)
         ∧ (∀ h r v, v ≠ NilValue → BroadcastPrecommit h r v ∈ l →
              h = CurrentHeight p
              ∧ ∃ propose, ProposeLogs (inserted ev p) !! r = Some propose
                           ∧ Propose_Value propose = v
                           ∧ int_wrap (2 * F p + 1)
                             <= countPrevotes v
                                  (prevotesAt (inserted ev p) r)).
Proof.
  destruct (handle_total n ev p) as (q & Hq).
  destruct (handle_backs _ _ _ _ Hq) as (l & E & Fl).
  destruct (handle_inserted ev p _ (inserted_inserted ev p))
    as (_ & Hh & HF & _).
  exists q, l. split; [done |]. split; [done |].
  rewrite Forall_forall in Fl. rewrite <- Hh, <- HF.
  split; intros h r v Hv Hin; destruct (Fl _ Hin) as [? | ?]; done.
Qed.

(** ** Future rounds of a running process *)

(** X24.  In a process that is started once and then given messages and
    timeouts, for as long as its height and round counters do not wrap
    around (see [running]), no round after the current one ever holds more
    than [F] messages: when a message makes it [F + 1], the process skips to
    that round. *)
Theorem future_rounds_below_threshold whoami f sched prop
    (valid : Value → bool) p :
  0 <= f < 2 ^ 62 →
  running (New (Pid:=Pid) whoami f sched prop valid) p →
  ∀ r, CurrentRound p < r → msgsInRound p r <= f.
Proof.
  intros Hf Hr.
  enough (below_threshold p ∧ F p = f) as [[_ Hb] <-]; [done |].
  induction Hr as [n q Hq | p ev n q _ [IH IHF] Hin Hh Hrd Hq].
  - pose proof (New_below whoami f sched prop valid Hf) as [H1 H2].
    split.
    + eapply StartRound_below; [exact H1 | | exact Hq].
      intros r' Hr'. apply H2. simpl. lia.
    + by destruct (StartRound_frame _ _ _ _ Hq) as [_ _ _ _ _ _ -> _ _ _ _].
  - split.
    + eapply handle_below; [exact IH | | exact Hq]. by destruct ev.
    + destruct (handle_advances _ _ _ _ Hq) as [_ _ _ HF _ _]. congruence.
Qed.

(** * The entry points, end to end *)

Lemma countPrevotes_insert v (m : gmap Pid Prevote) from prevote :
  m !! from = None →
  countPrevotes v (<[from := prevote]> m)
  = countPrevotes v m + (if decide (Prevote_Value prevote = v) then 1 else 0).
Proof.
  intros Hn. unfold countPrevotes.
  rewrite map_fold_insert_L; [| | done].
  - case_decide; lia.
  - intros. repeat case_decide; lia.
Qed.

Lemma countPrecommits_insert v (m : gmap Pid Precommit) from precommit :
  m !! from = None →
  countPrecommits v (<[from := precommit]> m)
  = countPrecommits v m
    + (if decide (Precommit_Value precommit = v) then 1 else 0).
Proof.
  intros Hn. unfold countPrecommits.
  rewrite map_fold_insert_L; [| | done].
  - case_decide; lia.
  - intros. repeat case_decide; lia.
Qed.

Lemma trySkip_not_future n r p :
  r <= CurrentRound p → trySkipToFutureRound n r p = Some p.
Proof. intros Hr. unfold trySkipToFutureRound. by rewrite decide_True. Qed.

Lemma timeout_prevote_not_prevoting p :
  CurrentStep p ≠ Prevoting → tryTimeoutPrevoteUponSufficientPrevotes p = p.
Proof.
  intros Hs. unfold tryTimeoutPrevoteUponSufficientPrevotes.
  destruct (checkOnceFlag _ _ _); [done |]. by rewrite decide_True.
Qed.

(** X25.  The prevote that completes a polka.  In step Prevoting, with the
    proposal of the current round logged and the once-flag of the round not
    set, the delivery of a new prevote of the current height and round for
    the proposed value that brings the prevotes for that value to [2F + 1] or
    more is logged and makes the process lock on the value, broadcast one
    precommit for it, record it as valid value, and step to Precommitting;
    no other call is made. *)
Theorem prevote_completes_polka n m p propose :
  Prevote_Height m = CurrentHeight p →
  Prevote_Round m = CurrentRound p →
  prevotesAt p (CurrentRound p) !! Prevote_From m = None →
  CurrentStep p = Prevoting →
  checkOnceFlag (CurrentRound p) OnceFlagPrecommitUponSufficientPrevotes p
  = false →
  ProposeLogs p !! CurrentRound p = Some propose →
  Prevote_Value m = Propose_Value propose →
  int_wrap (2 * F p + 1)
  <= countPrevotes (Propose_Value propose) (prevotesAt p (CurrentRound p))
     + 1 →
  ∃ q, Process_Prevote (3 + n) m p = Some q
       ∧ prevotesAt q (CurrentRound p) !! Prevote_From m = Some m
       ∧ calls q
         = calls p ++ [BroadcastPrecommit (CurrentHeight p) (CurrentRound p)
                         (Propose_Value propose)]
       ∧ LockedValue q = Propose_Value propose
       ∧ LockedRound q = CurrentRound p
       ∧ ValidValue q = Propose_Value propose
       ∧ ValidRound q = CurrentRound p
       ∧ CurrentStep q = Precommitting
       ∧ CurrentHeight q = CurrentHeight p
       ∧ CurrentRound q = CurrentRound p.
Proof.
  intros Hh Hr Hn Hs Hf Hl Hv Hc. rewrite <- Hr in Hn.
  unfold Process_Prevote. rewrite (insertPrevote_fresh m p Hh Hn).
  cbn [negb]. set (p1 := set_PrevoteLogs _ p).
  rewrite trySkip_not_future by (simpl; lia). rewrite bind_Some_eq.
  change (3 + n)%nat with (S (S (S n))).
  rewrite (tryPrecommit_prevoting n p1 propose); [| done ..|].
  - rewrite bind_Some_eq.
    rewrite tryPrecommitNil_not_prevoting by done. rewrite bind_Some_eq.
    rewrite tryPrevoteUponSufficientPrevotes_not_proposing by done.
    rewrite bind_Some_eq. rewrite timeout_prevote_not_prevoting by done.
    eexists. split; [done |]. split; [| done].
    unfold validated, locked, p1, prevotesAt.
    cbn [PrevoteLogs set_PrevoteLogs setOnceFlag set_OnceFlags set_ValidRound
      set_ValidValue set_CurrentStep set_LockedRound set_LockedValue
      set_state emit set_calls].
    rewrite <- Hr, lookup_insert_eq. cbn [default from_option id].
    apply lookup_insert_eq.
  - unfold p1. rewrite prevotesAt_insert. cbn [CurrentRound state
      set_PrevoteLogs F]. rewrite decide_True by done.
    rewrite countPrevotes_insert by done. rewrite decide_True by done.
    by rewrite Hr.
Qed.

(** X26.  The precommit that completes a commit.  With the proposal of a
    round up to the current one logged, the delivery of a new precommit of
    the current height and that round for the proposed value that brings the
    precommits for that value to exactly [2F + 1] commits the value: it is
    handed to the committer with the current height, and the process enters
    round 0 of the next height (the [int64] increment of the current one,
    which wraps around after [2^63 - 1]) with empty logs, its only other
    call being the proposal or the propose timeout of that round. *)
Theorem precommit_completes_commit n m p propose :
  Precommit_Height m = CurrentHeight p →
  Precommit_Round m <= CurrentRound p →
  precommitsAt p (Precommit_Round m) !! Precommit_From m = None →
  ProposeLogs p !! Precommit_Round m = Some propose →
  Precommit_Value m = Propose_Value propose →
  countPrecommits (Propose_Value propose) (precommitsAt p (Precommit_Round m))
  + 1 = int_wrap (2 * F p + 1) →
  let next := int_wrap (CurrentHeight p + 1) in
  ∃ q, Process_Precommit (1 + n) m p = Some q
       ∧ CurrentHeight q = next
       ∧ (incrementable (CurrentHeight p) → next = CurrentHeight p + 1)
       ∧ next ≠ CurrentHeight p
       ∧ CurrentRound q = 0
       ∧ CurrentStep q = Proposing
       ∧ ProposeLogs q = ∅ ∧ PrevoteLogs q = ∅ ∧ PrecommitLogs q = ∅
       ∧ calls q
         = calls p
           ++ [Commit (CurrentHeight p) (Propose_Value propose);
               if decide (scheduler p next 0 = Whoami p)
               then BroadcastPropose next 0 (proposer p next 0) InvalidRound
               else TimeoutPropose next 0].
Proof.
  intros Hh Hr Hn Hl Hv Hc next.
  unfold Process_Precommit. rewrite (insertPrecommit_fresh m p Hh Hn).
  cbn [negb]. set (p1 := set_PrecommitLogs _ p).
  rewrite trySkip_not_future by (simpl; lia). rewrite bind_Some_eq.
  destruct (commit_upon_exact_threshold n (Precommit_Round m) p1 propose)
    as [Hq _]; [done | |].
  { unfold p1. rewrite precommitsAt_insert. rewrite decide_True by done.
    rewrite countPrecommits_insert by done. by rewrite decide_True. }
  change (1 + n)%nat with (S n). rewrite Hq. rewrite bind_Some_eq.
  eexists. split; [reflexivity |].
  unfold tryTimeoutPrecommitUponSufficientPrecommits.
  rewrite checkOnceFlag_empty by done.
  rewrite decide_False.
  - split; [done |]. split; [apply int_wrap_succ |].
    split; [apply int_wrap_succ_ne |]. repeat (split; [done |]).
    unfold next.
    cbn [calls emit set_calls set_CurrentStep set_CurrentRound set_state
      Reset set_LockedValue set_LockedRound set_ValidValue set_ValidRound
      set_OnceFlags set_PrecommitLogs set_PrevoteLogs set_ProposeLogs
      set_CurrentHeight p1].
    rewrite <- app_assoc. do 2 f_equal. unfold StartRound_call.
    cbn [Whoami scheduler CurrentHeight ValidValue ValidRound proposer state
      emit set_calls set_CurrentStep set_CurrentRound set_state Reset
      set_LockedValue set_LockedRound set_ValidValue set_ValidRound
      set_OnceFlags set_PrecommitLogs set_PrevoteLogs set_ProposeLogs
      set_CurrentHeight p1].
    repeat case_decide; congruence.
  - unfold precommitsAt, len.
    cbn [PrecommitLogs emit set_calls Reset set_LockedValue set_LockedRound
      set_ValidValue set_ValidRound set_CurrentStep set_CurrentRound
      set_state set_OnceFlags set_PrecommitLogs].
    rewrite lookup_empty. cbn [default from_option id].
    rewrite map_size_empty. intros E. by apply (quorum_nonzero (F p)).
Qed.

Lemma tryPrevoteUponPropose_fires n p propose :
  CurrentStep p = Proposing →
  ProposeLogs p !! CurrentRound p = Some propose →
  Propose_ValidRound propose = InvalidRound →
  tryPrevoteUponPropose (S n) p
  = stepToPrevoting n
      (emit (BroadcastPrevote (CurrentHeight p) (CurrentRound p)
               (if decide (LockedRound p = InvalidRound
                           ∨ LockedValue p = Propose_Value propose)
                then Propose_Value propose else NilValue)) p).
Proof.
  intros Hs Hl Hvr. simpl.
  rewrite decide_False by (intros Hne; by apply Hne).
  rewrite Hl. rewrite decide_False by (intros Hne; by apply Hne).
  by case_decide.
Qed.

(** X27.  The proposal that is prevoted.  In step Proposing, the delivery
    of the proposal for the current round, from the scheduled proposer, with
    a value that the validator accepts and without valid round, is logged and
    answered by one prevote: for the proposed value if the process is not
    locked or is locked on that value, for nil otherwise.  The process leaves
    step Proposing.  (The precommits of the round for the value are assumed
    not to be exactly [2F + 1], in which case the value is committed
    instead.) *)
Theorem proposal_is_prevoted n m p :
  CurrentStep p = Proposing →
  Propose_Height m = CurrentHeight p →
  Propose_Round m = CurrentRound p →
  ProposeLogs p !! CurrentRound p = None →
  scheduler p (CurrentHeight p) (CurrentRound p) = Propose_From m →
  validator p (Propose_Value m) = true →
  Propose_ValidRound m = InvalidRound →
  countPrecommits (Propose_Value m) (precommitsAt p (CurrentRound p))
  ≠ int_wrap (2 * F p + 1) →
  let vote :=
    if decide (LockedRound p = InvalidRound
               ∨ LockedValue p = Propose_Value m)
    then Propose_Value m else NilValue in
  ∃ q l, Process_Propose (5 + n) m p = Some q
         ∧ ProposeLogs q !! CurrentRound p = Some m
         ∧ CurrentStep q ≠ Proposing
         ∧ calls q
           = calls p
             ++ BroadcastPrevote (CurrentHeight p) (CurrentRound p) vote :: l
         ∧ Forall past_call l.
Proof.
  intros Hs Hh Hr Hn Hsch Hv Hvr Hc vote.
  unfold Process_Propose. rewrite insertPropose_fresh by (by rewrite ?Hr).
  rewrite decide_True by (by rewrite Hh, Hr). cbn [negb].
  set (p1 := set_ProposeLogs _ p).
  assert (ProposeLogs p1 !! CurrentRound p1 = Some m) as Hl.
  { unfold p1. cbn [ProposeLogs set_ProposeLogs CurrentRound state].
    rewrite Hr. apply lookup_insert_eq. }
  rewrite trySkip_not_future by (simpl; lia). rewrite bind_Some_eq.
  rewrite (commit_only_at_exact_threshold _ _ p1 m) by (by rewrite ?Hr).
  rewrite bind_Some_eq.
  change (5 + n)%nat with (S (S (S (S (S n))))).
  rewrite tryPrecommit_proposing by done. rewrite bind_Some_eq.
  rewrite (tryPrevoteUponPropose_fires _ p1 m) by done.
  match goal with |- context [stepToPrevoting _ ?x] =>
    destruct (stepToPrevoting_total n x) as (q & Hq & Hsq);
    destruct (stepToPrevoting_past _ _ _ Hq) as (_ & l & E & Fl);
    pose proof (stepToPrevoting_frame _ _ _ Hq) as Hf
  end.
  rewrite Hq, bind_Some_eq.
  rewrite tryPrevoteUponSufficientPrevotes_not_proposing by done.
  exists q, l. split; [done |]. split.
  { rewrite (frame_ProposeLogs _ _ Hf). exact Hl. }
  split; [done |]. split; [| done]. rewrite E. simpl.
  by rewrite <- app_assoc.
Qed.

(** * The driver *)

(** ** The round-robin scheduler *)

Lemma uint64_small z : 0 <= z < 2 ^ 64 → uint64 z = z.
Proof. intros Hz. unfold uint64. by rewrite Z.mod_small. Qed.

Lemma Schedule_index (signatories : list Pid) h r :
  0 < Z.of_nat (length signatories) < 2 ^ 63 →
  0 <= h → 0 <= r → h + r < 2 ^ 64 →
  Schedule signatories h r
  = signatories !! Z.to_nat ((h + r) `mod` Z.of_nat (length signatories)).
Proof.
  intros Hn Hh Hr Hs. unfold Schedule.
  rewrite (uint64_small (Z.of_nat _)) by lia.
  rewrite decide_False by lia.
  by rewrite (uint64_small h), (uint64_small r), (uint64_small (h + r))
    by lia.
Qed.

(** X28.  With at least one signatory, the round-robin scheduler names one
    of the signatories for every height and round, negative ones and those
    whose sum overflows included: the index it computes is never out of
    range.  Without signatories it panics. *)
Theorem Schedule_signatory (signatories : list Pid) h r :
  (0 < Z.of_nat (length signatories) < 2 ^ 63 →
   ∃ s, Schedule signatories h r = Some s ∧ s ∈ signatories)
  ∧ Schedule (Pid:=Pid) [] h r = None.
Proof.
  split; [| done]. intros Hn. unfold Schedule.
  rewrite (uint64_small (Z.of_nat _)) by lia.
  rewrite decide_False by lia.
  set (i := Z.to_nat _).
  assert (i < length signatories)%nat as Hi.
  { unfold i.
    pose proof (Z.mod_pos_bound (uint64 (uint64 h + uint64 r))
                  (Z.of_nat (length signatories))). lia. }
  apply lookup_lt_is_Some in Hi as [s Hs]. exists s. split; [done |].
  by eapply list_elem_of_lookup_2.
Qed.

(** X29.  For heights and rounds that are not negative, the scheduler
    depends on the sum of height and round only, and the signatories take
    turns: every signatory is scheduled in one of any [len(signatories)]
    consecutive rounds of a height (as long as height plus round stays in
    the range of [uint64]). *)
Theorem Schedule_takes_turns (signatories : list Pid) h r :
  0 < Z.of_nat (length signatories) < 2 ^ 63 →
  0 <= h → 0 <= r →
  h + r + Z.of_nat (length signatories) <= 2 ^ 64 →
  (∀ h' r', 0 <= h' → 0 <= r' → h' + r' = h + r →
            Schedule signatories h' r' = Schedule signatories h r)
  ∧ (∀ s, s ∈ signatories →
          ∃ k, 0 <= k < Z.of_nat (length signatories)
               ∧ Schedule signatories h (r + k) = Some s).
Proof.
  intros Hn Hh Hr Hs. split.
  - intros h' r' Hh' Hr' E. rewrite !Schedule_index by lia. by rewrite E.
  - intros s Hin. apply list_elem_of_lookup_1 in Hin as [i Hi].
    pose proof (lookup_lt_Some _ _ _ Hi) as Hlt.
    set (n := Z.of_nat (length signatories)) in *.
    exists ((Z.of_nat i - (h + r)) `mod` n).
    pose proof (Z.mod_pos_bound (Z.of_nat i - (h + r)) n) as Hk.
    split; [lia |]. rewrite Schedule_index by (fold n; lia). fold n.
    replace (h + (r + (Z.of_nat i - (h + r)) `mod` n))
      with ((h + r) + (Z.of_nat i - (h + r)) `mod` n) by lia.
    rewrite Z.add_mod_idemp_r by lia.
    replace (h + r + (Z.of_nat i - (h + r))) with (Z.of_nat i) by lia.
    rewrite Z.mod_small by lia. by rewrite Nat2Z.id.
Qed.

(** ** What the replica lets through *)

Lemma procsAllowed_foldl (signatories : list Pid) (allowed : gmap Pid bool)
    from :
  foldl (λ allowed signatory, <[signatory := true]> allowed) allowed
    signatories !! from
  = if decide (from ∈ signatories) then Some true else allowed !! from.
Proof.
  revert allowed. induction signatories as [|s l IH]; intros allowed.
  { case_decide as Hin; [by apply elem_of_nil in Hin | done]. }
  cbn [foldl]. rewrite IH. destruct (decide (from ∈ l)) as [Hin | Hin].
  - rewrite decide_True; [done | by right].
  - destruct (decide (from = s)) as [-> | Hne].
    + rewrite decide_True by left. apply lookup_insert_eq.
    + rewrite decide_False; [by apply lookup_insert_ne |].
      intros [? | ?]%elem_of_cons; done.
Qed.

(** X30.  The replica hands a message on exactly when its sender is one of
    the signatories that [New] was given and its height is the current
    height of the process or a later one; the messages that it drops for
    their height are messages that the process would have ignored. *)
Theorem replica_filters (signatories : list Pid) n ev p from h :
  (filterFrom (procsAllowed signatories) from = true ↔ from ∈ signatories)
  ∧ (filterHeight p h = true ↔ CurrentHeight p <= h)
  ∧ (message_height ev = Some h → filterHeight p h = false →
     handle n ev p = Some p).
Proof.
  split; [| split].
  - unfold filterFrom, procsAllowed. rewrite procsAllowed_foldl.
    case_decide; [done |]. rewrite lookup_empty. simpl. by split.
  - unfold filterHeight. rewrite bool_decide_eq_true. lia.
  - unfold filterHeight. rewrite bool_decide_eq_false. intros Hm Hlt.
    destruct ev; try done; cbn [message_height handle] in *;
      injection Hm as <-.
    + unfold Process_Propose, insertPropose. rewrite decide_True; [done | lia].
    + unfold Process_Prevote, insertPrevote. rewrite decide_True; [done | lia].
    + unfold Process_Precommit, insertPrecommit.
      rewrite decide_True; [done | lia].
Qed.

End Properties.

(** * The scenarios, evaluated *)

(** ** Witnesses *)

Lemma stale_timeouts_ignored_witness :
  OnTimeoutPropose 5 2 0 processB = Some processB
  ∧ OnTimeoutPrevote 5 1 0 processB = Some processB
  ∧ OnTimeoutPrecommit 5 1 3 processB = Some processB.
Proof.
  destruct (stale_timeouts_ignored 5 2 0 processB) as (H1 & _ & _).
  destruct (stale_timeouts_ignored 5 1 0 processB) as (_ & H2 & _).
  destruct (stale_timeouts_ignored 5 1 3 processB) as (_ & _ & H3).
  split; [apply H1; left; discriminate |].
  split; [apply H2; right; right; discriminate |].
  apply H3; right; discriminate.
Defined.

Lemma propose_only_when_scheduled_witness :
  ∃ q l, handle 5 EvStart processA = Some q
         ∧ calls q = calls processA ++ l
         ∧ ∀ h r v vr, BroadcastPropose h r v vr ∈ l →
                       roundRobin four h r = "A".
Proof. exact (propose_only_when_scheduled 0 EvStart processA). Defined.


Lemma duplicate_delivery_dropped_witness :
  let ev := EvPrevote (mkPrevote 0 "V" "A") in
  is_message ev
  ∧ ∃ q q', handle 5 ev processB = Some q
            ∧ handle 5 ev q = Some q'
            ∧ dropped ev q
            ∧ forget_calls q' = forget_calls q
            ∧ outputs q' = outputs q.
Proof.
  intros ev. split; [exact I |].
  exact (duplicate_delivery_dropped 0 5 ev processB I).
Defined.

Lemma lock_coherence_witness :
  rejectNil NilValue = false
  ∧ reachable_in_range processB (after polka processB)
  ∧ LockedValue (after polka processB) = "V"
  ∧ LockedRound (after polka processB) = 0
  ∧ coherent (after polka processB).
Proof.
  assert (reachable_in_range processB (after polka processB)) as Hr
    by (apply reachable_in_range_after; repeat constructor).
  split; [reflexivity |]. split; [exact Hr |].
  split; [vm_compute; reflexivity |]. split; [vm_compute; reflexivity |].
  exact (proj1 (lock_coherence "B" 1 (roundRobin four) proposeW rejectNil
                  _ eq_refl Hr)).
Defined.

(** ** Scenarios that go as specified *)

(** S1: after the proposal of [A] and three prevotes and precommits for it,
    [B] has committed [V] at height 1 and, being the scheduled proposer of
    height 2, round 0, has broadcast its own proposal. *)
Example happy_path :
  calls (after (polka ++ [EvPrecommit (mkPrecommit 0 "V" "A");
                          EvPrecommit (mkPrecommit 0 "V" "B");
                          EvPrecommit (mkPrecommit 0 "V" "C")]) processB)
  = [TimeoutPropose 1 0; BroadcastPrevote 1 0 "V";
     BroadcastPrecommit 1 0 "V"; Commit 1 "V";
     BroadcastPropose 2 0 "W" (-1)].
Proof. vm_compute; reflexivity. Qed.

(** S6: locked on [V] at round 1, [B] receives in round 2 a proposal for
    another value without valid round, and prevotes nil. *)
Example locked_process_refuses :
  let q := after [EvPropose (mkPropose 2 "X" (-1) "C")] locked_B in
  calls q = [BroadcastPrevote 1 2 NilValue] ∧ CurrentStep q = Prevoting.
Proof. intros; repeat apply conj; vm_compute; reflexivity. Qed.

(** S4: two prevotes of round 5 take [B] from round 0 to round 5. *)
Example skip_to_future_round :
  CurrentRound (after future_round processB) = 5
  ∧ CurrentStep (after future_round processB) = Proposing
  ∧ calls (after future_round processB)
    = [TimeoutPropose 1 0; BroadcastPropose 1 5 "W" (-1)].
Proof. intros; repeat apply conj; vm_compute; reflexivity. Qed.

(** The counters are [int64]: the precommit timeout of the last round,
    [2^63 - 1], starts round [-2^63], and a commit at the last height leads
    to height [-2^63]. *)
Example counters_wrap_around :
  let p := set_CurrentRound (2 ^ 63 - 1) processB in
  let p' := set_CurrentHeight (2 ^ 63 - 1) commit_logged in
  CurrentRound (after [EvTimeoutPrecommit 1 (2 ^ 63 - 1)] p) = - 2 ^ 63
  ∧ (∃ q, tryCommitUponSufficientPrecommits 5 0 p' = Some q
          ∧ calls q
            = calls p' ++ [Commit (2 ^ 63 - 1) "V";
                           TimeoutPropose (- 2 ^ 63) 0]
          ∧ CurrentHeight q = - 2 ^ 63).
Proof.
  intros p p'. split; [vm_compute; reflexivity |].
  eexists. repeat apply conj; vm_compute; reflexivity.
Qed.

(** ** Where the code departs from the specification *)

(** C1.  Seven participants, [F = 2]: the precommits of the six others for
    [V] reach [G] before the proposal does.  When the proposal arrives, the
    log of round 0 holds it and six precommits for its value, more than
    [2F + 1 = 5], and nothing is committed: the comparison is an equality. *)
Theorem commit_missed_above_threshold :
  let q := after late_proposal processG in
  run 5 late_proposal processG = Some q
  ∧ ProposeLogs q !! 0 = Some (mkPropose 0 "V" (-1) "A")
  ∧ countPrecommits "V" (precommitsAt q 0) = 6
  ∧ 2 * F q + 1 = 5
  ∧ CurrentHeight q = 1
  ∧ calls q
    = [TimeoutPropose 1 0; TimeoutPrecommit 1 0; BroadcastPrevote 1 0 "V"]
  ∧ tryCommitUponSufficientPrecommits 5 0 q = Some q.
Proof. intros; repeat apply conj; vm_compute; reflexivity. Qed.

(** C3.  [B] holds the proposal of the scheduled proposer [A] for round 0.
    A proposal for the same round from [C], who is not scheduled, is
    reported to the catcher together with the proposal of [A], although the
    two come from different participants. *)
Theorem insertPropose_reports_other_sender :
  let p := after proposal_of_A processB in
  let new := mkPropose 0 "X" (-1) "C" in
  let old := mkPropose 0 "V" (-1) "A" in
  ProposeLogs p !! 0 = Some old
  ∧ scheduler p 1 0 = "A"
  ∧ Propose_From new ≠ Propose_From old
  ∧ insertPropose new p = (false, emit (CatchDoublePropose new old) p).
Proof.
  intros. repeat apply conj; try (vm_compute; reflexivity). discriminate.
Qed.

(** C4.  The propose timeout takes [B] to step Prevoting before any prevote
    has arrived; this first try sets the once-flag although no timeout is
    requested.  When the log of the round then holds [2F + 1 = 3] prevotes,
    [B] is still in step Prevoting and the prevote timeout is never
    requested. *)
Theorem prevote_timeout_never_requested :
  let q := after prevotes_after_timeout processB in
  run 5 prevotes_after_timeout processB = Some q
  ∧ CurrentStep q = Prevoting
  ∧ len (prevotesAt q (CurrentRound q)) = 3
  ∧ 2 * F q + 1 = 3
  ∧ calls q = [TimeoutPropose 1 0; BroadcastPrevote 1 0 NilValue]
  ∧ tryTimeoutPrevoteUponSufficientPrevotes q = q.
Proof. intros; repeat apply conj; vm_compute; reflexivity. Qed.

(** C5.  [B] holds three prevotes of round 5 and is started again, which
    takes it back to round 0.  The precommit of round 5 that arrives next
    makes four messages of round 5, more than [F + 1 = 2], and [B] stays in
    round 0: the comparison is an equality. *)
Theorem skip_missed_above_threshold :
  let q := after future_round_restarted processB in
  run 5 future_round_restarted processB = Some q
  ∧ CurrentRound q = 0
  ∧ ProposeLogs q !! 5 = None
  ∧ len (prevotesAt q 5) + len (precommitsAt q 5) = 4
  ∧ F q + 1 = 2
  ∧ trySkipToFutureRound 5 5 q = Some q.
Proof. intros; repeat apply conj; vm_compute; reflexivity. Qed.

(** C7, as stated, fails when the validator accepts the nil value: a polka
    for a nil proposal locks the process on the nil value at round 0. *)
Theorem lock_coherence_needs_validator :
  ¬ (∀ whoami f sched prop valid (p : Process (Pid:=string) (Value:=string)),
       reachable (New whoami f sched prop valid) p → coherent p).
Proof.
  intros Hc.
  assert (reachable permissiveB (after nil_polka permissiveB)) as Hr
    by (apply reachable_after; repeat constructor).
  destruct (Hc _ _ _ _ _ _ Hr) as [[_ Hl] _].
  assert (LockedRound (after nil_polka permissiveB) = 0) as E
    by (vm_compute; reflexivity).
  rewrite E in Hl. discriminate Hl. vm_compute; reflexivity.
Qed.

(** C7, as stated, also fails when the round counter overflows, whatever
    the validator: two messages of round [2^63 - 1] take [B] to that round,
    the last one, and its precommit timeout takes it on to round [-2^63].
    From there round [-1] is a future round; two messages of it make [B]
    skip to it, and the polka for the proposal of that round locks [B] on
    [V] at round [-1], which is the invalid round. *)
Theorem lock_coherence_needs_rounds_in_range :
  let q := after round_overflow processB in
  rejectNil NilValue = false
  ∧ reachable processB q
  ∧ run 5 round_overflow processB = Some q
  ∧ LockedRound q = InvalidRound
  ∧ LockedValue q = "V"
  ∧ ¬ coherent q.
Proof.
  intros q.
  assert (LockedRound q = InvalidRound) as H1 by (vm_compute; reflexivity).
  assert (LockedValue q = "V") as H2 by (vm_compute; reflexivity).
  split; [reflexivity |].
  split; [apply reachable_after; repeat constructor |].
  split; [vm_compute; reflexivity |]. split; [exact H1 |].
  split; [exact H2 |]. intros [[Hc _] _].
  specialize (Hc H1). rewrite H2 in Hc. discriminate Hc.
Qed.

(** ** The further properties, at work in the scenarios *)

Lemma other_height_ignored_witness :
  message_height (EvPrevote prevote_of_height_2) = Some 2
  ∧ 2 ≠ CurrentHeight processB
  ∧ handle 5 (EvPrevote prevote_of_height_2) processB = Some processB.
Proof.
  split; [reflexivity |]. split; [discriminate |].
  apply (other_height_ignored 5 (EvPrevote prevote_of_height_2) processB 2);
    [reflexivity | discriminate].
Defined.

Lemma first_vote_stored_witness :
  let m := mkPrevote 0 "V" "A" in
  let m' := mkPrecommit 0 "V" "A" in
  prevotesAt processB 0 !! "A" = None
  ∧ precommitsAt processB 0 !! "A" = None
  ∧ (∃ q, insertPrevote m processB = (true, q)
          ∧ prevotesAt q 0 !! "A" = Some m
          ∧ calls q = calls processB)
  ∧ (∃ q, insertPrecommit m' processB = (true, q)
          ∧ precommitsAt q 0 !! "A" = Some m'
          ∧ calls q = calls processB).
Proof.
  intros m m'. split; [vm_compute; reflexivity |].
  split; [vm_compute; reflexivity |].
  destruct (first_vote_stored processB) as [H H']. split.
  - destruct (H m) as (q & H1 & H2 & _ & _ & H3 & _);
      [reflexivity | vm_compute; reflexivity |].
    exists q. split; [exact H1 |]. split; [exact H2 | exact H3].
  - destruct (H' m') as (q & H1 & H2 & _ & _ & H3 & _);
      [reflexivity | vm_compute; reflexivity |].
    exists q. split; [exact H1 |]. split; [exact H2 | exact H3].
Defined.

Lemma second_vote_reported_witness :
  let p := after one_prevote processB in
  let old := mkPrevote 0 "V" "A" in
  let m := mkPrevote 0 "X" "A" in
  prevotesAt p 0 !! "A" = Some old
  ∧ Process_Prevote 5 m p
    = Some (if decide (m = old) then p
            else emit (CatchDoublePrevote m old) p)
  ∧ m ≠ old.
Proof.
  intros p old m. split; [vm_compute; reflexivity |]. split; [| discriminate].
  apply (proj1 (second_vote_reported 5 p) m old);
    vm_compute; reflexivity.
Defined.

Lemma once_flags_independent_witness :
  let set := setOnceFlag 0 OnceFlagPrecommitUponSufficientPrevotes processB in
  OnceFlagPrecommitUponSufficientPrevotes ∈ once_flags
  ∧ OnceFlagTimeoutPrevoteUponSufficientPrevotes ∈ once_flags
  ∧ checkOnceFlag 0 OnceFlagTimeoutPrevoteUponSufficientPrevotes set
    = (if decide (0 = 0
                  ∧ OnceFlagTimeoutPrevoteUponSufficientPrevotes
                    = OnceFlagPrecommitUponSufficientPrevotes)
       then true
       else checkOnceFlag 0 OnceFlagTimeoutPrevoteUponSufficientPrevotes
              processB)
  ∧ checkOnceFlag 0 OnceFlagTimeoutPrevoteUponSufficientPrevotes set = false.
Proof.
  intros set.
  assert (OnceFlagPrecommitUponSufficientPrevotes ∈ once_flags) as H4
    by (do 2 apply list_elem_of_further; apply list_elem_of_here).
  assert (OnceFlagTimeoutPrevoteUponSufficientPrevotes ∈ once_flags) as H2
    by (apply list_elem_of_further, list_elem_of_here).
  split; [exact H4 |]. split; [exact H2 |].
  split; [| vm_compute; reflexivity].
  exact (once_flags_independent 0 OnceFlagPrecommitUponSufficientPrevotes 0
           OnceFlagTimeoutPrevoteUponSufficientPrevotes processB H4 H2).
Defined.

Lemma precommit_upon_polka_witness :
  CurrentStep polka_logged = Prevoting
  ∧ ProposeLogs polka_logged !! 0 = Some (mkPropose 0 "V" (-1) "A")
  ∧ countPrevotes "V" (prevotesAt polka_logged 0) = 3
  ∧ ∃ q, tryPrecommitUponSufficientPrevotes 5 polka_logged = Some q
         ∧ LockedValue q = "V"
         ∧ LockedRound q = 0
         ∧ CurrentStep q = Precommitting.
Proof.
  repeat (apply conj; [vm_compute; reflexivity |]).
  destruct (precommit_upon_polka 2 polka_logged (mkPropose 0 "V" (-1) "A"))
    as (q & H1 & H2 & H3 & _ & _ & H4 & _);
    [vm_compute; reflexivity | vm_compute; reflexivity
    | vm_compute; reflexivity | vm_compute; discriminate |].
  exists q. split; [exact H1 |]. split; [exact H2 |].
  split; [exact H3 | exact H4].
Defined.

Lemma valid_upon_late_polka_witness :
  CurrentStep late_polka_logged = Precommitting
  ∧ ProposeLogs late_polka_logged !! 0 = Some (mkPropose 0 "V" (-1) "A")
  ∧ countPrevotes "V" (prevotesAt late_polka_logged 0) = 3
  ∧ ∃ q, tryPrecommitUponSufficientPrevotes 5 late_polka_logged = Some q
         ∧ ValidValue q = "V"
         ∧ ValidRound q = 0
         ∧ LockedRound q = LockedRound late_polka_logged
         ∧ calls q = calls late_polka_logged.
Proof.
  repeat (apply conj; [vm_compute; reflexivity |]).
  destruct (valid_upon_late_polka 4 late_polka_logged
              (mkPropose 0 "V" (-1) "A"))
    as (q & H1 & H2 & H3 & _ & H4 & _ & H5 & _);
    [vm_compute; reflexivity | vm_compute; reflexivity
    | vm_compute; reflexivity | vm_compute; discriminate |].
  exists q. split; [exact H1 |]. split; [exact H2 |].
  split; [exact H3 |]. split; [exact H4 | exact H5].
Defined.

Lemma prevote_upon_reproposal_witness :
  CurrentStep reproposal_logged = Proposing
  ∧ CurrentRound reproposal_logged = 1
  ∧ ProposeLogs reproposal_logged !! 1 = Some (mkPropose 1 "V" 0 "B")
  ∧ countPrevotes "V" (prevotesAt reproposal_logged 0) = 3
  ∧ LockedRound reproposal_logged = -1
  ∧ ∃ q l, tryPrevoteUponSufficientPrevotes 5 reproposal_logged = Some q
           ∧ CurrentStep q ≠ Proposing
           ∧ calls q
             = calls reproposal_logged ++ BroadcastPrevote 1 1 "V" :: l.
Proof.
  repeat (apply conj; [vm_compute; reflexivity |]).
  destruct (prevote_upon_reproposal 0 reproposal_logged
              (mkPropose 1 "V" 0 "B"))
    as (q & l & H1 & H2 & H3 & _);
    [vm_compute; reflexivity | vm_compute; reflexivity | discriminate
    | vm_compute; reflexivity | vm_compute; discriminate |].
  exists q, l. split; [exact H1 |]. split; [exact H2 | exact H3].
Defined.

Lemma precommit_nil_upon_nil_prevotes_witness :
  CurrentStep nil_prevotes_logged = Prevoting
  ∧ countPrevotes NilValue (prevotesAt nil_prevotes_logged 0) = 3
  ∧ countPrevotes NilValue (prevotesAt (after two_nil_prevotes processB) 0)
    = 2
  ∧ (∃ q, tryPrecommitNilUponSufficientPrevotes 5 nil_prevotes_logged
          = Some q
          ∧ CurrentStep q = Precommitting
          ∧ calls q
            = calls nil_prevotes_logged ++ [BroadcastPrecommit 1 0 NilValue])
  ∧ tryPrecommitNilUponSufficientPrevotes 5 (after two_nil_prevotes processB)
    = Some (after two_nil_prevotes processB).
Proof.
  repeat (apply conj; [vm_compute; reflexivity |]). split.
  - destruct (precommit_nil_upon_nil_prevotes 2 nil_prevotes_logged)
      as [H _]; [vm_compute; reflexivity |].
    destruct H as (q & H1 & H2 & H3 & _); [vm_compute; reflexivity |].
    exists q. split; [exact H1 |]. split; [exact H2 | exact H3].
  - destruct (precommit_nil_upon_nil_prevotes 2
                (after two_nil_prevotes processB)) as [_ H];
      [vm_compute; reflexivity |].
    apply H. vm_compute. discriminate.
Defined.

Lemma due_timeouts_witness :
  let p := after [EvStart] processB in
  let p' := after proposal_of_A processB in
  CurrentStep p = Proposing
  ∧ CurrentStep p' = Prevoting
  ∧ (∃ q l, OnTimeoutPropose 5 1 0 p = Some q
            ∧ CurrentStep q ≠ Proposing
            ∧ calls q = calls p ++ BroadcastPrevote 1 0 NilValue :: l)
  ∧ (∃ q, OnTimeoutPrevote 5 1 0 p' = Some q
          ∧ CurrentStep q = Precommitting
          ∧ calls q = calls p' ++ [BroadcastPrecommit 1 0 NilValue])
  ∧ (∃ q l, OnTimeoutPrecommit 5 1 0 p = Some q
            ∧ CurrentRound q = 1
            ∧ calls q = calls p ++ StartRound_call 1 p :: l).
Proof.
  intros p p'. split; [vm_compute; reflexivity |].
  split; [vm_compute; reflexivity |].
  pose proof (due_timeouts 1 p) as H. cbv zeta in H.
  destruct H as (H & _ & H0).
  pose proof (due_timeouts 3 p') as H'. cbv zeta in H'.
  destruct H' as (_ & H' & _).
  split; [| split].
  - destruct H as (q & l & H1 & H2 & H3 & _); [vm_compute; reflexivity |].
    exists q, l. split; [exact H1 |]. split; [exact H2 | exact H3].
  - destruct H' as (q & H1 & H2 & H3 & _); [vm_compute; reflexivity |].
    exists q. split; [exact H1 |]. split; [exact H2 | exact H3].
  - destruct H0 as (q & l & H1 & H2 & _ & _ & H3 & _).
    exists q, l. split; [exact H1 |]. split; [exact H2 | exact H3].
Defined.

Lemma commit_starts_next_height_witness :
  ProposeLogs commit_logged !! 0 = Some (mkPropose 0 "V" (-1) "A")
  ∧ countPrecommits "V" (precommitsAt commit_logged 0) = 3
  ∧ ∃ q, tryCommitUponSufficientPrecommits 5 0 commit_logged = Some q
         ∧ CurrentHeight q = 2
         ∧ CurrentRound q = 0
         ∧ ProposeLogs q = ∅ ∧ PrevoteLogs q = ∅ ∧ PrecommitLogs q = ∅.
Proof.
  repeat (apply conj; [vm_compute; reflexivity |]).
  destruct (commit_starts_next_height 4 0 commit_logged
              (mkPropose 0 "V" (-1) "A"))
    as (q & H1 & H2 & _ & _ & H3 & _ & H4 & H5 & H6 & _);
    [vm_compute; reflexivity | vm_compute; reflexivity |].
  exists q. split; [exact H1 |]. split; [exact H2 |]. split; [exact H3 |].
  split; [exact H4 |]. split; [exact H5 | exact H6].
Defined.

Lemma logs_filed_witness :
  let p := after polka processB in
  reachable processB p
  ∧ ProposeLogs p !! 0 = Some (mkPropose 0 "V" (-1) "A")
  ∧ ∀ r m, ProposeLogs p !! r = Some m →
           Propose_Height m = CurrentHeight p ∧ Propose_Round m = r
           ∧ Propose_From m = roundRobin four (CurrentHeight p) r
           ∧ rejectNil (Propose_Value m) = true.
Proof.
  intros p.
  assert (reachable processB p) as Hr
    by (apply reachable_after; repeat constructor).
  split; [exact Hr |]. split; [vm_compute; reflexivity |].
  exact (proj1 (logs_filed "B" 1 (roundRobin four) proposeW rejectNil p Hr)).
Defined.

Lemma reports_justified_witness :
  let p := after double_prevote processB in
  reachable processB p
  ∧ calls p
    = [TimeoutPropose 1 0;
       CatchDoublePrevote (mkPrevote 0 "X" "A") (mkPrevote 0 "V" "A")]
  ∧ ∀ new old, CatchDoublePrevote new old ∈ calls p →
      new ≠ old ∧ Prevote_Height new = Prevote_Height old
      ∧ Prevote_Round new = Prevote_Round old
      ∧ Prevote_From new = Prevote_From old.
Proof.
  intros p.
  assert (reachable processB p) as Hr
    by (apply reachable_after; repeat constructor).
  split; [exact Hr |]. split; [vm_compute; reflexivity |].
  exact (proj1 (reports_justified "B" 1 (roundRobin four) proposeW rejectNil
                  p Hr)).
Defined.

Lemma commits_consecutive_witness :
  let p := after committed processB in
  reachable processB p
  ∧ commits (calls p) = [(1, "V")]
  ∧ CurrentHeight p = 2
  ∧ (commits (calls p)).*1 = seqZ 1 (CurrentHeight p - 1).
Proof.
  intros p.
  assert (reachable processB p) as Hr
    by (apply reachable_after; repeat constructor).
  split; [exact Hr |]. split; [vm_compute; reflexivity |].
  split; [vm_compute; reflexivity |].
  pose proof (commits_consecutive "B" 1 (roundRobin four) proposeW
                rejectNil p Hr) as H.
  cbv zeta in H. destruct H as (_ & _ & H).
  apply H. vm_compute. reflexivity.
Defined.

Lemma committed_values_valid_witness :
  let p := after committed processB in
  reachable processB p
  ∧ commits (calls p) = [(1, "V")]
  ∧ ∀ h v, (h, v) ∈ commits (calls p) → rejectNil v = true.
Proof.
  intros p.
  assert (reachable processB p) as Hr
    by (apply reachable_after; repeat constructor).
  split; [exact Hr |]. split; [vm_compute; reflexivity |].
  exact (committed_values_valid "B" 1 (roundRobin four) proposeW rejectNil
           p Hr).
Defined.

Lemma calls_once_witness :
  let p := after committed processB in
  running processB p
  ∧ calls p
    = [TimeoutPropose 1 0; BroadcastPrevote 1 0 "V";
       BroadcastPrecommit 1 0 "V"; Commit 1 "V";
       BroadcastPropose 2 0 "W" (-1)]
  ∧ ∀ k, NoDup (slots k (calls p)).
Proof.
  intros p.
  assert (running processB p) as Hr
    by (apply (running_after (tail committed));
        [repeat constructor | by vm_compute]).
  split; [exact Hr |]. split; [vm_compute; reflexivity |].
  exact (calls_once "B" 1 (roundRobin four) proposeW rejectNil p Hr).
Defined.

Lemma lock_order_witness :
  let p := after polka processB in
  running processB p
  ∧ LockedRound p = 0
  ∧ InvalidRound <= LockedRound p
  ∧ LockedRound p <= ValidRound p
  ∧ ValidRound p <= CurrentRound p.
Proof.
  intros p.
  assert (running processB p) as Hr
    by (apply (running_after (tail polka));
        [repeat constructor | by vm_compute]).
  split; [exact Hr |]. split; [vm_compute; reflexivity |].
  exact (lock_order "B" 1 (roundRobin four) proposeW rejectNil p Hr).
Defined.

Lemma never_back_witness :
  let ev := EvTimeoutPrecommit 1 0 in
  is_input ev
  ∧ incrementable (CurrentHeight processB)
  ∧ incrementable (CurrentRound processB)
  ∧ ∃ q, handle 5 ev processB = Some q
         ∧ (CurrentHeight processB < CurrentHeight q
            ∨ CurrentHeight q = CurrentHeight processB
              ∧ (CurrentRound processB < CurrentRound q
                 ∨ CurrentRound q = CurrentRound processB
                   ∧ Step_rank (CurrentStep processB)
                     <= Step_rank (CurrentStep q))).
Proof.
  intros ev.
  assert (incrementable (CurrentHeight processB)) as Hh by (by vm_compute).
  assert (incrementable (CurrentRound processB)) as Hr by (by vm_compute).
  split; [exact I |]. split; [exact Hh |]. split; [exact Hr |].
  exact (never_back 0 ev processB I Hh Hr).
Defined.

Lemma future_rounds_below_threshold_witness :
  let p := after [EvStart; EvPrevote (mkPrevote 5 "V" "A")] processB in
  running processB p
  ∧ CurrentRound p = 0
  ∧ msgsInRound p 5 = 1
  ∧ ∀ r, CurrentRound p < r → msgsInRound p r <= 1.
Proof.
  intros p.
  assert (running processB p) as Hr
    by (apply (running_after [EvPrevote (mkPrevote 5 "V" "A")]);
        [repeat constructor | by vm_compute]).
  split; [exact Hr |]. split; [vm_compute; reflexivity |].
  split; [vm_compute; reflexivity |].
  apply (future_rounds_below_threshold "B" 1 (roundRobin four) proposeW
           rejectNil p); [lia | exact Hr].
Defined.

Lemma prevote_completes_polka_witness :
  let p := after two_prevotes processB in
  let m := mkPrevote 0 "V" "C" in
  CurrentStep p = Prevoting
  ∧ countPrevotes "V" (prevotesAt p 0) = 2
  ∧ ∃ q, Process_Prevote 5 m p = Some q
         ∧ calls q = calls p ++ [BroadcastPrecommit 1 0 "V"]
         ∧ LockedValue q = "V"
         ∧ CurrentStep q = Precommitting.
Proof.
  intros p m. repeat (apply conj; [vm_compute; reflexivity |]).
  destruct (prevote_completes_polka 2 m p (mkPropose 0 "V" (-1) "A"))
    as (q & H1 & _ & H2 & H3 & _ & _ & _ & H4 & _);
    [vm_compute; reflexivity | vm_compute; reflexivity
    | vm_compute; reflexivity | vm_compute; reflexivity
    | vm_compute; reflexivity | vm_compute; reflexivity
    | vm_compute; reflexivity | vm_compute; discriminate |].
  exists q. split; [exact H1 |]. split; [exact H2 |].
  split; [exact H3 | exact H4].
Defined.

Lemma precommit_completes_commit_witness :
  let p := after two_precommits processB in
  let m := mkPrecommit 0 "V" "C" in
  CurrentHeight p = 1
  ∧ countPrecommits "V" (precommitsAt p 0) = 2
  ∧ ∃ q, Process_Precommit 5 m p = Some q
         ∧ CurrentHeight q = 2
         ∧ CurrentRound q = 0
         ∧ CurrentStep q = Proposing
         ∧ ProposeLogs q = ∅.
Proof.
  intros p m. repeat (apply conj; [vm_compute; reflexivity |]).
  destruct (precommit_completes_commit 4 m p (mkPropose 0 "V" (-1) "A"))
    as (q & H1 & H2 & _ & _ & H3 & H4 & H5 & _);
    [vm_compute; reflexivity | vm_compute; discriminate
    | vm_compute; reflexivity | vm_compute; reflexivity
    | vm_compute; reflexivity | vm_compute; reflexivity |].
  exists q. split; [exact H1 |]. split; [exact H2 |]. split; [exact H3 |].
  split; [exact H4 | exact H5].
Defined.

Lemma proposal_is_prevoted_witness :
  let p := after [EvStart] processB in
  let m := mkPropose 0 "V" (-1) "A" in
  CurrentStep p = Proposing
  ∧ LockedRound p = InvalidRound
  ∧ ∃ q l, Process_Propose 5 m p = Some q
           ∧ ProposeLogs q !! 0 = Some m
           ∧ CurrentStep q ≠ Proposing
           ∧ calls q = calls p ++ BroadcastPrevote 1 0 "V" :: l.
Proof.
  intros p m. repeat (apply conj; [vm_compute; reflexivity |]).
  destruct (proposal_is_prevoted 0 m p)
    as (q & l & H1 & H2 & H3 & H4 & _);
    [vm_compute; reflexivity | vm_compute; reflexivity
    | vm_compute; reflexivity | vm_compute; reflexivity
    | vm_compute; reflexivity | vm_compute; reflexivity
    | vm_compute; reflexivity | vm_compute; discriminate |].
  exists q, l. split; [exact H1 |]. split; [exact H2 |].
  split; [exact H3 | exact H4].
Defined.

Lemma Schedule_signatory_witness :
  0 < Z.of_nat (length four) < 2 ^ 63
  ∧ Schedule four 1 0 = Some "A"
  ∧ Schedule four (-1) 0 = Some "C"
  ∧ ∃ s, Schedule four (-1) 0 = Some s ∧ s ∈ four.
Proof.
  assert (0 < Z.of_nat (length four) < 2 ^ 63) as Hn
    by (split; reflexivity).
  split; [exact Hn |]. split; [vm_compute; reflexivity |].
  split; [vm_compute; reflexivity |].
  exact (proj1 (Schedule_signatory four (-1) 0) Hn).
Defined.

Lemma Schedule_takes_turns_witness :
  0 < Z.of_nat (length four) < 2 ^ 63
  ∧ Schedule four 0 1 = Schedule four 1 0
  ∧ ∀ s, s ∈ four →
         ∃ k, 0 <= k < Z.of_nat (length four)
              ∧ Schedule four 1 (0 + k) = Some s.
Proof.
  assert (0 < Z.of_nat (length four) < 2 ^ 63) as Hn
    by (split; reflexivity).
  split; [exact Hn |].
  destruct (Schedule_takes_turns four 1 0 Hn) as [H1 H2];
    [discriminate | discriminate | vm_compute; discriminate |].
  split; [| exact H2].
  apply (H1 0 1); [discriminate | discriminate | reflexivity].
Defined.

Lemma replica_filters_witness :
  let m := {| Prevote_Height := 0; Prevote_Round := 0; Prevote_Value := "V";
              Prevote_From := "A" |} in
  filterFrom (procsAllowed four) "A" = true
  ∧ filterFrom (procsAllowed four) "E" = false
  ∧ filterHeight processB 0 = false
  ∧ handle 5 (EvPrevote m) processB = Some processB.
Proof.
  intros m. repeat (apply conj; [vm_compute; reflexivity |]).
  destruct (replica_filters four 5 (EvPrevote m) processB "A" 0)
    as (_ & _ & H).
  apply H; [reflexivity | vm_compute; reflexivity].
Defined.
